(** * GraphFM: a shallow embedding of [graphfm.py]

    The model follows [src/code/graphfm.py] (the generic variant) and, for the
    multi-value genre field, [src/movielens/code/graphfm.py].

    Tensors of floating-point numbers are modelled over the real numbers of
    the Standard Library: a rank-1 tensor is a [list R], a rank-2 tensor a
    list of rows.  A TensorFlow variable of shape [[n]] or [[n, m]] is an
    indexing function, so a layer created with [units] outputs has that many
    outputs by construction, as in TensorFlow.  The graph is modelled in
    inference mode (the mode [predict] and [visualize] feed: every dropout
    keep probability is 1.0, so dropout is the identity) and one sample at a
    time; a batch is the list of its samples, and the number of fed samples
    is an argument where an operation depends on it ([tf.squeeze]).

    Python exceptions and TensorFlow errors are explicit ([Raises]).  Loops
    that the source writes with [while] carry a fuel argument; running out of
    fuel is a third outcome ([OutOfFuel]) that is proved never to occur. *)

From Stdlib Require Import List Arith Bool Lia Reals Lra Permutation.
Import ListNotations.
Local Open Scope R_scope.

(** ** Outcomes of Python code *)

Inductive exn : Type :=
| ValueError
| TypeError
| IndexError
| InvalidArgumentError.

Inductive outcome (A : Type) : Type :=
| Returns (a : A)
| Raises (e : exn)
| OutOfFuel.

Arguments Returns {A} a.
Arguments Raises {A} e.
Arguments OutOfFuel {A}.

Definition bind {A B : Type} (m : outcome A) (k : A -> outcome B) : outcome B :=
  match m with
  | Returns a => k a
  | Raises e => Raises e
  | OutOfFuel => OutOfFuel
  end.

Notation "x <- m ;; k" := (bind m (fun x => k))
  (at level 61, m at next level, right associativity).

(** A Python list comprehension whose body may raise. *)
Fixpoint mapM {A B : Type} (f : A -> outcome B) (l : list A) : outcome (list B) :=
  match l with
  | [] => Returns []
  | a :: l' => b <- f a ;; bs <- mapM f l' ;; Returns (b :: bs)
  end.

(** [l[i]] on a Python list. *)
Definition py_index {A : Type} (l : list A) (i : nat) : outcome A :=
  match nth_error l i with
  | Some a => Returns a
  | None => Raises IndexError
  end.

(** Python slicing [l[start:stop]] for non-negative bounds. *)
Definition slice {A : Type} (l : list A) (start stop : nat) : list A :=
  firstn (stop - start) (skipn start l).

(** Boolean comparisons of floats, as Python's [<], [>] and [>=]. *)
Definition Rltb (x y : R) : bool := if Rlt_dec x y then true else false.
Definition Rgtb (x y : R) : bool := Rltb y x.
Definition Rgeb (x y : R) : bool := if Rle_dec y x then true else false.
Definition Reqb (x y : R) : bool := if Req_dec_T x y then true else false.

(** ** Tensors *)

Definition vec : Type := list R.
Definition mat : Type := list vec.

Definition sum (v : vec) : R := fold_right Rplus 0 v.

Fixpoint zip_with {A B C : Type} (f : A -> B -> C) (a : list A) (b : list B)
    : list C :=
  match a, b with
  | x :: a', y :: b' => f x y :: zip_with f a' b'
  | _, _ => []
  end.

(** Map with the position of each entry. *)
Definition imap {A B : Type} (f : nat -> A -> B) (v : list A) : list B :=
  zip_with f (seq 0 (length v)) v.

Definition width (m : mat) : nat := length (hd [] m).

(** Elementwise product with broadcasting of an axis of size 1, first on the
    last axis, then on the row axis ([tf.multiply], [*]). *)
Definition bmul_row (a b : vec) : vec :=
  match a, b with
  | [x], _ => map (fun y => x * y) b
  | _, [y] => map (fun x => x * y) a
  | _, _ => zip_with Rmult a b
  end.

Definition bmul (a b : mat) : mat :=
  match a, b with
  | [r], _ => map (fun s => bmul_row r s) b
  | _, [s] => map (fun r => bmul_row r s) a
  | _, _ => zip_with bmul_row a b
  end.

(** [tf.reduce_sum] and [tf.reduce_mean] over the row axis of a rank-2
    tensor: one entry per column. *)
Definition column (m : mat) (c : nat) : vec := map (fun row => nth c row 0) m.

Definition reduce_sum_rows (m : mat) : vec :=
  map (fun c => sum (column m c)) (seq 0 (width m)).

Definition reduce_mean_rows (m : mat) : vec :=
  map (fun c => sum (column m c) / INR (length m)) (seq 0 (width m)).

(** Activations. *)
Definition relu (x : R) : R := Rmax x 0.
Definition sigmoid (x : R) : R := 1 / (1 + exp (- x)).
Definition linear (x : R) : R := x.

(** [tf.layers.dense(x, units, activation, use_bias)] on the last axis: the
    kernel has shape [[in, units]], the bias shape [[units]]. *)
Definition dot (x : vec) (w : nat -> R) : R :=
  sum (imap (fun i xi => xi * w i) x).

Definition dense (kernel : nat -> nat -> R) (bias : option (nat -> R))
    (activation : R -> R) (units : nat) (x : vec) : vec :=
  map (fun o => activation (dot x (fun i => kernel i o) +
                            match bias with Some b => b o | None => 0 end))
      (seq 0 units).

(** ** [normalize]: layer normalization over the last axis *)

Definition reduce_mean (v : vec) : R := sum v / INR (length v).

(** [tf.nn.moments(inputs, [-1])]: mean and (population) variance. *)
Definition moments (inputs : vec) : R * R :=
  let mean := reduce_mean inputs in
  (mean, reduce_mean (map (fun x => (x - mean) * (x - mean)) inputs)).

Definition epsilon : R := 1 / 100000000.

(** [normalized = (inputs - mean) / ((variance + epsilon) ** (.5))]. *)
Definition normalized (eps : R) (inputs : vec) : vec :=
  let '(mean, variance) := moments inputs in
  map (fun x => (x - mean) / Rpower (variance + eps) (/ 2)) inputs.

(** [outputs = gamma * normalized + beta], [gamma] and [beta] being the two
    variables of shape [params_shape] the call creates. *)
Definition normalize (gamma beta : nat -> R) (eps : R) (inputs : vec) : vec :=
  imap (fun c n => gamma c * n + beta c) (normalized eps inputs).

(** ** [gat_attention] *)

(** *** The graph-structure selector (lines 85-88) *)

(** [tf.nn.top_k(S, k)]: the [k] largest entries, largest first; the indices
    it also returns are not used by the source.  It refuses [k] larger than
    the axis. *)
Fixpoint insert_desc (x : R) (l : vec) : vec :=
  match l with
  | [] => [x]
  | y :: l' => if Rgeb x y then x :: l else y :: insert_desc x l'
  end.

Definition sort_desc (l : vec) : vec := fold_right insert_desc [] l.

Definition top_k (S : vec) (k : nat) : outcome vec :=
  if (k <=? length S)%nat then Returns (firstn k (sort_desc S))
  else Raises InvalidArgumentError.

(** [tf.reduce_min(values, -1)]; over no entry at all it is [+inf], here
    [None]. *)
Fixpoint reduce_min (values : vec) : option R :=
  match values with
  | [] => None
  | x :: values' =>
      match reduce_min values' with
      | None => Some x
      | Some m => Some (Rmin x m)
      end
  end.

(** [tf.greater_equal(s, kth)] and [tf.cast(_, tf.float32)]. *)
Definition greater_equal (s : R) (kth : option R) : bool :=
  match kth with
  | Some t => Rgeb s t
  | None => false
  end.

Definition cast_float (b : bool) : R := if b then 1 else 0.

(** Lines 85-88: [S * topk], the visibility row of one query field. *)
Definition graph_structure_selector (S : vec) (k : nat) : outcome vec :=
  values <- top_k S k ;;
  let kth := reduce_min values in
  let topk := map (fun s => cast_float (greater_equal s kth)) S in
  Returns (zip_with Rmult S topk).

(** *** Heads *)

(** [tf.split(t, num, axis=2)] on a tensor whose last axis has (static) size
    [size]: [num] pieces of equal width, or an error when [num] does not
    divide [size].  The source stacks the pieces along the batch axis; here
    they stay a list with one entry per head. *)
Definition tf_split (t : mat) (size num : nat) : outcome (list mat) :=
  if (num =? 0)%nat || negb (size mod num =? 0)%nat then Raises ValueError
  else
    let w := (size / num)%nat in
    Returns (map (fun p => map (fun row => slice row (p * w) ((p + 1) * w)) t)
                 (seq 0 num)).

(** [tf.nn.softmax(A_, axis=1)]: over the field axis, column by column. *)
Definition softmax_rows (m : mat) : mat :=
  map (fun row => imap (fun c x => exp x / sum (map exp (column m c))) row) m.

(** [tf.squeeze(S)] on [S] of shape [[batch, fields, 1]] removes EVERY axis
    of size 1.  With at least two fed samples and two fields the result is
    [[batch, fields]], as the source's comment has it, and per sample the
    row of scores.  With one fed sample or one field a further axis is
    lost: [tf.expand_dims(S, -1)] then yields a tensor of rank 2 or less,
    which [tf.tile(S, [num_heads, 1, 1])] (and [tf.transpose(S, [0, 2, 1])])
    refuses. *)
Definition squeeze_keeps_batch_and_fields (batch fields : nat) : bool :=
  negb (batch =? 1)%nat && negb (fields =? 1)%nat.

Definition tf_squeeze (S : mat) : vec := map (fun row => nth 0 row 0) S.
Definition expand_dims (S : vec) : mat := map (fun s => [s]) S.

(** Lines 92-95: the selector's row multiplies the logits of every head, then
    the softmax over the fields. *)
Definition masked_logits (S : vec) (A_ : list mat) : list mat :=
  map (fun a => bmul (expand_dims S) a) A_.

Definition attention_weights (S : vec) (A_ : list mat) : list mat :=
  map softmax_rows (masked_logits S A_).

(** The variables of one block.  [att_*] and [gsl_*] are shared by all
    fields of the block (the variable scope is reused when [field > 0]); the
    value and residual projections, and the two variables each call of
    [normalize] creates, belong to one field. *)
Record block_weights : Type := {
  att_kernel : nat -> nat -> R;
  att_bias : nat -> R;
  w_kernel : nat -> nat -> nat -> R;
  res_kernel : nat -> nat -> nat -> R;
  res_bias : nat -> nat -> R;
  gsl_1_kernel : nat -> nat -> R;
  gsl_1_bias : nat -> R;
  gsl_2_kernel : nat -> nat -> R;
  gsl_2_bias : nat -> R;
  ln_gamma : nat -> nat -> R;
  ln_beta : nat -> nat -> R
}.

(** The relevance scores of lines 81-84 for one query field. *)
Definition gsl_scores (W : block_weights) (values : mat) : vec :=
  let S := map (dense (gsl_1_kernel W) (Some (gsl_1_bias W)) relu 16) values in
  let S := map (dense (gsl_2_kernel W) (Some (gsl_2_bias W)) sigmoid 1) S in
  tf_squeeze S.

(** [gat_attention] for one sample of a fed batch of [batch] samples:
    [queries] is the field's own state, [values] its product with every
    field's state.  It returns the new state and the visibility row. *)
Definition gat_attention (W : block_weights) (batch : nat) (queries : vec)
    (values : mat) (num_units num_heads k field : nat) (has_residual : bool)
    : outcome (vec * vec) :=
  let A := map (dense (att_kernel W) (Some (att_bias W)) relu num_heads) values in
  let H := map (dense (w_kernel W field) None linear num_units) values in
  let Q_res := dense (res_kernel W field) (Some (res_bias W field)) relu
                 num_units queries in
  A_ <- tf_split A num_heads num_heads ;;
  H_ <- tf_split H num_units num_heads ;;
  let S := gsl_scores W values in
  S <- graph_structure_selector S k ;;
  if negb (squeeze_keeps_batch_and_fields batch (length values))
  then Raises InvalidArgumentError else
  let vis := S in
  let weights := attention_weights S A_ in
  let outputs := zip_with bmul weights H_ in
  let outputs := map reduce_sum_rows outputs in
  let outputs := concat outputs in
  let outputs := if has_residual then zip_with Rplus outputs Q_res
                 else outputs in
  let outputs := map relu outputs in
  let outputs := normalize (ln_gamma W field) (ln_beta W field) epsilon outputs in
  Returns (outputs, vis).

(** ** The model graph ([_init_graph], [_initialize_weights]) *)

Inductive loss : Type := logloss | mse.

Record config : Type := {
  field_size : nat;
  embedding_size : nat;
  blocks : nat;
  heads : nat;
  block_shape : list nat;
  ks : list nat;
  has_residual : bool;
  loss_type : loss;
  deep_layers : option (list nat)
}.

(** The variables of the model.  [prediction] is the column of shape
    [[input_size, 1]]; [dense_net] is the fully connected side network of
    lines 188-199, a function of the embeddings, used when [deep_layers] is
    not [None]. *)
Record weights : Type := {
  feature_embeddings : mat;
  block_vars : nat -> block_weights;
  prediction : vec;
  prediction_bias : R;
  dense_net : mat -> R
}.

(** [_initialize_weights]: [input_size = sum(self.block_shape)] fixes the
    shape of ["prediction"]; the random draws are parameters. *)
Definition input_size (cfg : config) : nat := list_sum (block_shape cfg).

Definition _initialize_weights (cfg : config) (feature_size : nat)
    (rnd_embedding : nat -> nat -> R) (rnd_blocks : nat -> block_weights)
    (rnd_prediction : nat -> R) (rnd_bias : R) (rnd_dense : mat -> R)
    : weights :=
  {| feature_embeddings :=
       map (fun n => map (rnd_embedding n) (seq 0 (embedding_size cfg)))
           (seq 0 feature_size);
     block_vars := rnd_blocks;
     prediction := map rnd_prediction (seq 0 (input_size cfg));
     prediction_bias := rnd_bias;
     dense_net := rnd_dense |}.

(** [tf.nn.embedding_lookup]: an index outside the table is an error. *)
Definition embedding_lookup (table : mat) (ids : list nat) : outcome mat :=
  mapM (fun i => match nth_error table i with
                 | Some row => Returns row
                 | None => Raises InvalidArgumentError
                 end) ids.

(** [tf.reshape(v, [-1, n, 1])] for one sample of a well-formed batch: the
    row has [n] entries. *)
Definition tf_reshape_col (v : vec) (n : nat) : outcome mat :=
  if (length v =? n)%nat then Returns (expand_dims v)
  else Raises InvalidArgumentError.

(** [tf.multiply] of two rank-2 tensors whose row counts agree or are 1. *)
Definition tf_multiply (a b : mat) : outcome mat :=
  if (length a =? length b)%nat || (length a =? 1)%nat || (length b =? 1)%nat
  then Returns (bmul a b)
  else Raises InvalidArgumentError.

(** Lines 181-184 of the generic variant: the embeddings of one sample,
    before dropout. *)
Definition embeddings (cfg : config) (W : weights) (feat_index : list nat)
    (feat_value : vec) : outcome mat :=
  e <- embedding_lookup (feature_embeddings W) feat_index ;;
  feat_value <- tf_reshape_col feat_value (field_size cfg) ;;
  tf_multiply e feat_value.

(** [h[:, j, :]]. *)
Definition tf_row (h : mat) (j : nat) : outcome vec :=
  match nth_error h j with
  | Some row => Returns row
  | None => Raises ValueError
  end.

(** [tf.concat(l, axis=1)] of per-field rows, and [tf.concat(l, axis=-1)] of
    per-layer tensors; both refuse an empty list. *)
Definition tf_concat_rows (l : list vec) : outcome mat :=
  match l with
  | [] => Raises ValueError
  | _ => Returns l
  end.

Definition tf_concat_last (l : list mat) : outcome mat :=
  match l with
  | [] => Raises ValueError
  | h0 :: rest => Returns (fold_left (zip_with (@app R)) rest h0)
  end.

(** The body of [for j in range(self.field_size)] in block [i]. *)
Definition field_step (cfg : config) (W : weights) (batch i : nat) (h : mat)
    (j : nat) : outcome (vec * vec) :=
  state <- tf_row h j ;;
  let state_all := bmul [state] h in
  num_units <- py_index (block_shape cfg) i ;;
  k <- py_index (ks cfg) i ;;
  gat_attention (block_vars W i) batch state state_all num_units (heads cfg)
    k j (has_residual cfg).

(** [for i in range(self.blocks)], over the list of the remaining [i]. *)
Fixpoint block_loop (cfg : config) (W : weights) (batch : nat)
    (layers : list nat) (h : mat) (h_list v_list : list mat)
    : outcome (list mat * list mat) :=
  match layers with
  | [] => Returns (h_list, v_list)
  | i :: layers' =>
      sv <- mapM (field_step cfg W batch i h) (seq 0 (field_size cfg)) ;;
      h' <- tf_concat_rows (map fst sv) ;;
      v <- tf_concat_rows (map snd sv) ;;
      block_loop cfg W batch layers' h' (h_list ++ [h']) (v_list ++ [v])
  end.

(** [tf.matmul(flat, prediction)]: the widths must agree. *)
Definition tf_matmul_col (flat col : vec) : outcome R :=
  if (length flat =? length col)%nat then Returns (sum (zip_with Rmult flat col))
  else Raises ValueError.

(** What one run of the graph yields for a sample. *)
Record graph_run : Type := {
  v_list : list mat;
  flat : vec;
  out : R
}.

(** Lines 202-237: the block stack and the pooled vector [self.flat]. *)
Definition run_flat (cfg : config) (W : weights) (batch : nat) (e : mat)
    : outcome (list mat * vec) :=
  hv <- block_loop cfg W batch (seq 0 (blocks cfg)) e [] [] ;;
  let '(h_list, v_list) := hv in
  y_deep <- tf_concat_last h_list ;;
  Returns (v_list, reduce_mean_rows y_deep).

(** Lines 181-242: [self.out] before the loss section, the logit. *)
Definition run_logit (cfg : config) (W : weights) (batch : nat)
    (feat_index : list nat) (feat_value : vec)
    : outcome (list mat * vec * R) :=
  e <- embeddings cfg W feat_index feat_value ;;
  vf <- run_flat cfg W batch e ;;
  let '(v_list, flat) := vf in
  o <- tf_matmul_col flat (prediction W) ;;
  let o := o + prediction_bias W in
  let o := match deep_layers cfg with
           | Some _ => o + dense_net W e
           | None => o
           end in
  Returns (v_list, flat, o).

(** Lines 246-252: the sigmoid when [loss_type == "logloss"], the raw value
    when it is ["mse"]. *)
Definition run_graph (cfg : config) (W : weights) (batch : nat)
    (feat_index : list nat) (feat_value : vec) : outcome graph_run :=
  l <- run_logit cfg W batch feat_index feat_value ;;
  let '(v_list, flat, o) := l in
  let o := match loss_type cfg with
           | logloss => sigmoid o
           | mse => o
           end in
  Returns {| v_list := v_list; flat := flat; out := o |}.

(** [self.out] of one sample as a number, for a sample on which the graph
    runs; the sample is taken in a batch of two, the value being the same in
    every batch of two samples or more. *)
Definition out_of (cfg : config) (W : weights) (feat_index : list nat)
    (feat_value : vec) : R :=
  match run_graph cfg W 2 feat_index feat_value with
  | Returns r => out r
  | _ => 0
  end.

(** The model with another value in the variable ["prediction_bias"]. *)
Definition with_prediction_bias (W : weights) (b : R) : weights :=
  {| feature_embeddings := feature_embeddings W;
     block_vars := block_vars W;
     prediction := prediction W;
     prediction_bias := b;
     dense_net := dense_net W |}.

(** [self.sess.run(self.out, feed_dict)] on a batch of the generic variant:
    one output per fed sample; the two fed arrays have the same number of
    rows. *)
Definition sess_run_out (cfg : config) (W : weights)
    (Xi_batch : list (list nat)) (Xv_batch : list vec) : outcome (list R) :=
  if (length Xi_batch =? length Xv_batch)%nat then
    mapM (fun s => r <- run_graph cfg W (length Xi_batch) (fst s) (snd s) ;;
                   Returns (out r))
         (combine Xi_batch Xv_batch)
  else Raises InvalidArgumentError.

(** ** The multi-value field of the movielens variant (lines 183-197)

    This part is modelled on the whole batch, because the division of line
    194 broadcasts across the batch axis. *)

(** [tf.math.divide(a, b)] for [a] of shape [[B, d]] and [b] of shape [[n]]:
    broadcasting aligns [b] with the LAST axis of [a], so the shapes are
    compatible when [n = d], [n = 1] or [d = 1]. *)
Definition tf_divide_mat_vec (a : mat) (d : nat) (b : vec) : outcome mat :=
  if (length b =? d)%nat then
    Returns (map (fun row => zip_with Rdiv row b) a)
  else if (length b =? 1)%nat then
    Returns (map (fun row => map (fun x => x / nth 0 b 0) row) a)
  else if (d =? 1)%nat then
    Returns (map (fun row => map (fun y => nth 0 row 0 / y) b) a)
  else Raises InvalidArgumentError.

(** Lines 189-194: [self.embeddings_m], of shape [[B, d]] by the source's
    comment. *)
Definition embeddings_m (cfg : config) (W : weights)
    (genre_index : list (list nat)) (genre_value : list vec) : outcome mat :=
  e <- mapM (embedding_lookup (feature_embeddings W)) genre_index ;;
  gv <- mapM (fun v => tf_reshape_col v 6) genre_value ;;
  e <- (if (length e =? length gv)%nat
        then mapM (fun p => tf_multiply (fst p) (snd p)) (combine e gv)
        else Raises InvalidArgumentError) ;;
  let e := map reduce_sum_rows e in
  tf_divide_mat_vec e (embedding_size cfg) (map sum genre_value).

(** Lines 183-197: the single-value fields, then the genre field appended as
    the last field of every sample ([tf.concat] along axis 1 needs the same
    batch size and the same embedding width on both sides). *)
Definition movielens_embeddings (cfg : config) (W : weights)
    (feat_index : list (list nat)) (feat_value : list vec)
    (genre_index : list (list nat)) (genre_value : list vec)
    : outcome (list mat) :=
  if (field_size cfg =? 0)%nat then Raises ValueError else
  e <- (if (length feat_index =? length feat_value)%nat
        then mapM (fun p =>
                     r <- embedding_lookup (feature_embeddings W) (fst p) ;;
                     v <- tf_reshape_col (snd p) (field_size cfg - 1) ;;
                     tf_multiply r v)
                  (combine feat_index feat_value)
        else Raises InvalidArgumentError) ;;
  em <- embeddings_m cfg W genre_index genre_value ;;
  if (length e =? length em)%nat &&
     forallb (fun m => (length m =? embedding_size cfg)%nat) em
  then Returns (zip_with (fun s m => s ++ [m]) e em)
  else Raises InvalidArgumentError.

(** The genre vector as the specification words it, for one sample:
    [sum_j(table[idx_j] * val_j) / sum_j(val_j)]. *)
Definition genre_vector_spec (table : mat) (idx : list nat) (val : vec) : vec :=
  let rows := zip_with (fun i v => map (fun e => e * v) (nth i table [])) idx val in
  map (fun x => x / sum val) (reduce_sum_rows rows).

(** ** Batching, prediction, evaluation and early stopping *)

(** What [predict] holds in [y_pred]: Python's [None] or a numpy array. *)
Inductive pyarray : Type :=
| PyNone
| NdArray (v : list R).

(** [get_batch]: the slice of each list for batch number [index]; the labels
    are wrapped one per row. *)
Definition get_batch {SI SV Y : Type} (Xi : list SI) (Xv : list SV) (y : list Y)
    (batch_size index : nat) : list SI * list SV * list (list Y) :=
  let start := (index * batch_size)%nat in
  let stop := ((index + 1) * batch_size)%nat in
  let stop := if (stop <? length y)%nat then stop else length y in
  (slice Xi start stop, slice Xv start stop,
   map (fun y_ => [y_]) (slice y start stop)).

(** [np.reshape(batch_out, (num_batch,))]. *)
Definition np_reshape (batch_out : list R) (num_batch : nat) : outcome (list R) :=
  if (length batch_out =? num_batch)%nat then Returns batch_out
  else Raises ValueError.

(** [np.concatenate((y_pred, b))]. *)
Definition np_concatenate (y_pred : pyarray) (b : list R) : outcome (list R) :=
  match y_pred with
  | NdArray v => Returns (v ++ b)
  | PyNone => Raises ValueError
  end.

(** [np.clip(y_pred, lo, hi)]; clipping [None] compares [None] with a float,
    which Python refuses. *)
Definition clip (lo hi x : R) : R := Rmin (Rmax x lo) hi.

Definition clip_lo : R := 1 / 1000000.
Definition clip_hi : R := 1 - 1 / 1000000.

Definition np_clip (y_pred : pyarray) (lo hi : R) : outcome (list R) :=
  match y_pred with
  | NdArray v => Returns (map (clip lo hi) v)
  | PyNone => Raises TypeError
  end.

Section Batches.

Context {SI SV : Type}.

Variable batch_size : nat.

(** [self.sess.run(self.out, feed_dict)] on the fed batch. *)
Variable run_out : list SI -> list SV -> outcome (list R).

(** The [while len(Xi_batch) > 0] loop of [predict]; the state is the batch
    index, the current batch and [y_pred]. *)
Fixpoint predict_loop (fuel : nat) (Xi : list SI) (Xv : list SV)
    (dummy_y : list nat) (batch_index : nat)
    (batch : list SI * list SV * list (list nat)) (y_pred : pyarray)
    : outcome pyarray :=
  let '(Xi_batch, Xv_batch, y_batch) := batch in
  if (0 <? length Xi_batch)%nat then
    match fuel with
    | O => OutOfFuel
    | S fuel' =>
        let num_batch := length y_batch in
        batch_out <- run_out Xi_batch Xv_batch ;;
        y_pred' <- (if (batch_index =? 0)%nat
                    then np_reshape batch_out num_batch
                    else r <- np_reshape batch_out num_batch ;;
                         np_concatenate y_pred r) ;;
        let batch_index' := (batch_index + 1)%nat in
        predict_loop fuel' Xi Xv dummy_y batch_index'
          (get_batch Xi Xv dummy_y batch_size batch_index') (NdArray y_pred')
    end
  else Returns y_pred.

Definition predict (Xi : list SI) (Xv : list SV) : outcome pyarray :=
  let dummy_y := repeat 1%nat (length Xi) in
  let batch_index := 0%nat in
  predict_loop (S (length Xi)) Xi Xv dummy_y batch_index
    (get_batch Xi Xv dummy_y batch_size batch_index) PyNone.

(** [self.eval_metric] and [log_loss], the two metric functions [evaluate]
    calls, in this order. *)
Variable eval_metric : list R -> list R -> outcome R.
Variable log_loss : list R -> list R -> outcome R.

Definition evaluate (Xi : list SI) (Xv : list SV) (y : list R)
    : outcome (R * R) :=
  y_pred <- predict Xi Xv ;;
  y_pred <- np_clip y_pred clip_lo clip_hi ;;
  a <- eval_metric y y_pred ;;
  l <- log_loss y y_pred ;;
  Returns (a, l).

End Batches.

(** scikit-learn's [roc_auc_score] and [log_loss] for binary labels and a
    1-d array of scores, after the library's documentation: both refuse
    arrays of different lengths and a [y_true] that does not hold exactly two
    classes (["Only one class present in y_true. ROC AUC score is not defined
    in that case."], ["y_true contains only one label"]).  The positive class
    is the larger label. *)
Definition np_unique (y : list R) : list R := nodup Req_dec_T y.

Definition pos_label (classes : list R) : R :=
  fold_right Rmax (hd 0 classes) classes.

Definition scores_of (keep : R -> bool) (y_true y_score : list R) : list R :=
  map snd (filter (fun p => keep (fst p)) (combine y_true y_score)).

Definition roc_auc_score (y_true y_score : list R) : outcome R :=
  if negb (length y_true =? length y_score)%nat then Raises ValueError
  else if negb (length (np_unique y_true) =? 2)%nat then Raises ValueError
  else
    let pos := pos_label (np_unique y_true) in
    let P := scores_of (fun y => Reqb y pos) y_true y_score in
    let N := scores_of (fun y => negb (Reqb y pos)) y_true y_score in
    let wins := sum (map (fun p =>
                  sum (map (fun n => if Rltb n p then 1
                                     else if Reqb n p then 1 / 2 else 0) N)) P) in
    Returns (wins / (INR (length P) * INR (length N))).

Definition log_loss (y_true y_pred : list R) : outcome R :=
  if negb (length y_true =? length y_pred)%nat then Raises ValueError
  else if negb (length (np_unique y_true) =? 2)%nat then Raises ValueError
  else
    let pos := pos_label (np_unique y_true) in
    Returns (- sum (zip_with (fun y p => if Reqb y pos then ln p else ln (1 - p))
                             y_true y_pred)
             / INR (length y_true)).

(** [valid_result[-i]] for [1 <= i <= len(valid_result)]. *)
Definition neg_index (l : list R) (i : nat) : R := nth (length l - i) l 0.

Definition training_termination (greater_is_better : bool)
    (valid_result : list R) : bool :=
  if (5 <? length valid_result)%nat then
    if greater_is_better then
      if Rltb (neg_index valid_result 1) (neg_index valid_result 2) &&
         Rltb (neg_index valid_result 2) (neg_index valid_result 3) &&
         Rltb (neg_index valid_result 3) (neg_index valid_result 4) &&
         Rltb (neg_index valid_result 4) (neg_index valid_result 5)
      then true else false
    else
      if Rgtb (neg_index valid_result 1) (neg_index valid_result 2) &&
         Rgtb (neg_index valid_result 2) (neg_index valid_result 3) &&
         Rgtb (neg_index valid_result 3) (neg_index valid_result 4) &&
         Rgtb (neg_index valid_result 4) (neg_index valid_result 5)
      then true else false
  else false.

(** The bookkeeping fields of the model object that [fit_once] updates. *)
Record fit_state : Type := {
  train_result : list R;
  train_loss : list R;
  valid_result : list R;
  valid_loss : list R;
  best_loss : R
}.

Section Fit.

(** A data set is the triple of lists [fit_once] receives. *)
Context {D : Type}.

(** [self.evaluate] on the session as the epoch's training steps leave it. *)
Variable evaluate_after_training : D -> outcome (R * R).

Variables is_save greater_is_better : bool.

(** [fit_once]: the returned flag, with the state it leaves.  [valid] is
    [None] when [Xv_valid is None]. *)
Definition fit_once (st : fit_state) (train : D) (valid : option D)
    (early_stopping : bool) : outcome (fit_state * bool) :=
  let has_valid := match valid with Some _ => true | None => false end in
  tr <- evaluate_after_training train ;;
  let st := {| train_result := train_result st ++ [fst tr];
               train_loss := train_loss st ++ [snd tr];
               valid_result := valid_result st;
               valid_loss := valid_loss st;
               best_loss := best_loss st |} in
  st <- match valid with
        | Some v =>
            vr <- evaluate_after_training v ;;
            Returns {| train_result := train_result st;
                       train_loss := train_loss st;
                       valid_result := valid_result st ++ [fst vr];
                       valid_loss := valid_loss st ++ [snd vr];
                       best_loss := if Rltb (snd vr) (best_loss st) && is_save
                                    then snd vr else best_loss st |}
        | None => Returns st
        end ;;
  if has_valid && early_stopping &&
     training_termination greater_is_better (valid_loss st)
  then Returns (st, false)
  else Returns (st, true).

End Fit.

(** ** Predicates used to state the properties *)

(** Counting the entries of a row. *)
Definition count_if (p : R -> bool) (v : vec) : nat := length (filter p v).

Definition count_nonzero (v : vec) : nat :=
  count_if (fun x => negb (Reqb x 0)) v.

(** [descending l]: every entry is at least every later one. *)
Inductive descending : vec -> Prop :=
| descending_nil : descending []
| descending_cons (x : R) (l : vec) :
    Forall (fun y => y <= x) l -> descending l -> descending (x :: l).

(** [has_shape F u h]: [h] has [F] rows of width [u]. *)
Definition has_shape (F u : nat) (h : mat) : Prop :=
  length h = F /\ Forall (fun row => length row = u) h.

(** ** Well-formed configurations and samples

    The invariants of the data model: [len(block_shape) == blocks],
    [len(ks) == blocks], every [ks[i]] at most [field_size]; and what
    [tf.split] needs, [heads] dividing every [block_shape[i]]. *)
Definition valid_config (cfg : config) : Prop :=
  (0 < field_size cfg)%nat /\ (0 < blocks cfg)%nat /\ (0 < heads cfg)%nat /\
  length (block_shape cfg) = blocks cfg /\
  length (ks cfg) = blocks cfg /\
  Forall (fun u => (u mod heads cfg = 0)%nat) (block_shape cfg) /\
  Forall (fun k => (k <= field_size cfg)%nat) (ks cfg).

(** A sample of a pre-validated batch: one index and one value per field,
    every index inside the embedding table. *)
Definition well_formed_sample (cfg : config) (W : weights)
    (feat_index : list nat) (feat_value : vec) : Prop :=
  length feat_index = field_size cfg /\
  length feat_value = field_size cfg /\
  Forall (fun i => (i < length (feature_embeddings W))%nat) feat_index.

(** ** Concrete inputs used by the examples *)

Definition trend_state : fit_state :=
  {| train_result := []; train_loss := [];
     valid_result := [0; 0; 0; 0; 0]; valid_loss := [0; 1; 2; 3; 4];
     best_loss := 1 |}.

Definition trend_state' : fit_state :=
  {| train_result := [0]; train_loss := [5];
     valid_result := [0; 0; 0; 0; 0; 0]; valid_loss := [0; 1; 2; 3; 4; 5];
     best_loss := 1 |}.

(** A session run that answers 1/2 for every sample, and two metric
    functions that always return. *)
Definition half (_ _ : nat) : R := 1 / 2.

Definition half_run (bi bv : list nat) : outcome (list R) :=
  Returns (zip_with half bi bv).

Definition zero_metric (_ _ : list R) : outcome R := Returns 0.

(** A block whose variables are all zero, and the states of two fields. *)
Definition zero_block : block_weights :=
  {| att_kernel := fun _ _ => 0; att_bias := fun _ => 0;
     w_kernel := fun _ _ _ => 0;
     res_kernel := fun _ _ _ => 0; res_bias := fun _ _ => 0;
     gsl_1_kernel := fun _ _ => 0; gsl_1_bias := fun _ => 0;
     gsl_2_kernel := fun _ _ => 0; gsl_2_bias := fun _ => 0;
     ln_gamma := fun _ _ => 1; ln_beta := fun _ _ => 0 |}.

Definition two_fields : mat := [[1; 2]; [3; 4]].

(** A movielens batch of two samples with embedding size 2: one
    single-value field and the genre field; the genre values of the two
    samples have different sums (1 and 2). *)
Definition genre_cfg : config :=
  {| field_size := 2; embedding_size := 2; blocks := 1; heads := 1;
     block_shape := [2%nat]; ks := [1%nat]; has_residual := true;
     loss_type := logloss; deep_layers := None |}.

Definition genre_weights : weights :=
  {| feature_embeddings := [[1; 1]];
     block_vars := fun _ => zero_block;
     prediction := [0; 0];
     prediction_bias := 0;
     dense_net := fun _ => 0 |}.

Definition genre_feat_index : list (list nat) := [[0%nat]; [0%nat]].
Definition genre_feat_value : list vec := [[1]; [1]].
Definition genre_index : list (list nat) :=
  [[0; 0; 0; 0; 0; 0]%nat; [0; 0; 0; 0; 0; 0]%nat].
Definition genre_value : list vec := [[1; 0; 0; 0; 0; 0]; [1; 1; 0; 0; 0; 0]].

(** The same batch with embedding size 3. *)
Definition genre_cfg3 : config :=
  {| field_size := 2; embedding_size := 3; blocks := 1; heads := 1;
     block_shape := [2%nat]; ks := [1%nat]; has_residual := true;
     loss_type := logloss; deep_layers := None |}.

Definition genre_weights3 : weights :=
  {| feature_embeddings := [[1; 1; 1]];
     block_vars := fun _ => zero_block;
     prediction := [0; 0];
     prediction_bias := 0;
     dense_net := fun _ => 0 |}.

(** A block whose relevance scores differ between fields: the score of a
    field is the sigmoid of the ReLU of the first entry of its row of
    [values]; the other variables are those of [zero_block]. *)
Definition mask_block : block_weights :=
  {| att_kernel := fun _ _ => 0; att_bias := fun _ => 0;
     w_kernel := fun _ _ _ => 0;
     res_kernel := fun _ _ _ => 0; res_bias := fun _ _ => 0;
     gsl_1_kernel := fun i o => if (i + o =? 0)%nat then 1 else 0;
     gsl_1_bias := fun _ => 0;
     gsl_2_kernel := fun i _ => if (i =? 0)%nat then 1 else 0;
     gsl_2_bias := fun _ => 0;
     ln_gamma := fun _ _ => 1; ln_beta := fun _ _ => 0 |}.

(** The configuration [genre_cfg] with the loss type ["mse"]. *)
Definition genre_cfg_mse : config :=
  {| field_size := 2; embedding_size := 2; blocks := 1; heads := 1;
     block_shape := [2%nat]; ks := [1%nat]; has_residual := true;
     loss_type := mse; deep_layers := None |}.

(** * More of [graphfm.py] *)

(** ** The training loop of [fit_once] (lines 386-390) *)

(** [int(len(y_train) / self.batch_size)]; [None] stands for the
    [ZeroDivisionError] of a batch size of 0.  For list lengths the float
    quotient truncates to the integer quotient. *)
Definition total_batch (n batch_size : nat) : option nat :=
  if (batch_size =? 0)%nat then None else Some (n / batch_size)%nat.

(** The batches [for i in range(total_batch)] hands to [fit_on_batch], in
    order. *)
Definition training_batches {SI SV Y : Type} (Xi : list SI) (Xv : list SV)
    (y : list Y) (batch_size : nat)
    : option (list (list SI * list SV * list (list Y))) :=
  match total_batch (length y) batch_size with
  | None => None
  | Some t => Some (map (get_batch Xi Xv y batch_size) (seq 0 t))
  end.

Section TrainLoop.

Context {SI SV Y M : Type}.

(** [fit_on_batch]: one optimizer step on the session [M]; it returns the
    global step and the loss. *)
Variable fit_on_batch : M -> list SI -> list SV -> list (list Y) -> M * (nat * R).

(** The loop itself: the session after the epoch and [last_step]. *)
Definition train_epoch (batch_size : nat) (m : M) (Xi : list SI)
    (Xv : list SV) (y : list Y) : option (M * nat) :=
  match training_batches Xi Xv y batch_size with
  | None => None
  | Some batches =>
      Some (fold_left
              (fun (acc : M * nat) b =>
                 let '(Xi_batch, Xv_batch, y_batch) := b in
                 let '(m', (step, loss)) :=
                   fit_on_batch (fst acc) Xi_batch Xv_batch y_batch in
                 (m', step))
              batches (m, 0%nat))
  end.

End TrainLoop.

(** ** [shuffle_in_unison_scary] (lines 358-364) *)

(** [x[i] = v] on a list, for [i] inside the list. *)
Fixpoint list_set {A : Type} (l : list A) (i : nat) (v : A) : list A :=
  match l, i with
  | [], _ => []
  | _ :: l', O => v :: l'
  | a :: l', S i' => a :: list_set l' i' v
  end.

(** [x[i], x[j] = x[j], x[i]]. *)
Definition swap {A : Type} (l : list A) (i j : nat) : list A :=
  match nth_error l i, nth_error l j with
  | Some xi, Some xj => list_set (list_set l i xj) j xi
  | _, _ => l
  end.

Section Shuffle.

(** The state of numpy's global generator, and [random_interval(state, i)]:
    a draw in [[0, i]] and the next state. *)
Variable rng : Type.
Variable random_interval : rng -> nat -> nat * rng.

(** [np.random.shuffle(x)]:
    [for i in reversed(range(1, n)): j = random_interval(i); swap x[i], x[j]].
    The draws depend on the state and on [n] only. *)
Fixpoint shuffle_loop {A : Type} (st : rng) (indices : list nat) (x : list A)
    : list A * rng :=
  match indices with
  | [] => (x, st)
  | i :: indices' =>
      let '(j, st') := random_interval st i in
      shuffle_loop st' indices' (swap x i j)
  end.

Definition np_random_shuffle {A : Type} (st : rng) (x : list A)
    : list A * rng :=
  shuffle_loop st (rev (seq 1 (length x - 1))) x.

(** [shuffle_in_unison_scary(a, b, c)]: the state is saved, and set again
    before the second and the third shuffle.  The result is the three lists
    as the call leaves them, and the generator's state. *)
Definition shuffle_in_unison_scary {A B C : Type} (st : rng) (a : list A)
    (b : list B) (c : list C) : list A * list B * list C * rng :=
  let rng_state := st in
  let '(a', _) := np_random_shuffle st a in
  let '(b', _) := np_random_shuffle rng_state b in
  let '(c', st') := np_random_shuffle rng_state c in
  (a', b', c', st').

End Shuffle.

(** ** The visibility tensor

    What holds of block [i] of [v_list]: [field_size] rows of [field_size]
    entries in [[0, 1)], each row with at least [ks[i]] non-zero entries. *)
Definition vis_block (cfg : config) (i : nat) (v : mat) : Prop :=
  exists k, nth_error (ks cfg) i = Some k /\
            has_shape (field_size cfg) (field_size cfg) v /\
            Forall (Forall (fun x => 0 <= x < 1)) v /\
            Forall (fun row => (k <= count_nonzero row)%nat) v.


(** ** [visualize] (lines 466-514) *)

(** One entry of the list [visualize] returns:
    [[Xi_batch[i], Xv_batch[i], y_batch[i], batch_out[i], batch_vis[i]]]. *)
Record vis_record (SI SV : Type) : Type := {
  rec_index : SI;
  rec_value : SV;
  rec_label : list nat;
  rec_out : R;
  rec_vis : list mat
}.

Arguments Build_vis_record {SI SV}.
Arguments rec_index {SI SV}.
Arguments rec_value {SI SV}.
Arguments rec_label {SI SV}.
Arguments rec_out {SI SV}.
Arguments rec_vis {SI SV}.

(** The data of [batch_vis], of shape [[B, blocks, F, F]], in row-major
    order, and [np.reshape(batch_vis, (num_batch, blocks, F, F))]: it needs
    as many entries as the new shape has. *)
Definition flatten_vis (batch_vis : list (list mat)) : list R :=
  concat (map (fun s => concat (map (@concat R) s)) batch_vis).

Definition np_reshape_vis (batch_vis : list (list mat))
    (num_batch blocks field_size : nat) : outcome (list R) :=
  if (length (flatten_vis batch_vis) =?
      num_batch * blocks * field_size * field_size)%nat
  then Returns (flatten_vis batch_vis)
  else Raises ValueError.

(** [for i in range(num_batch)]: the records of one batch. *)
Definition record_batch {SI SV : Type} (num_batch : nat) (Xi_batch : list SI)
    (Xv_batch : list SV) (y_batch : list (list nat)) (batch_out : list R)
    (batch_vis : list (list mat)) : outcome (list (vis_record SI SV)) :=
  mapM (fun i =>
          xi <- py_index Xi_batch i ;;
          xv <- py_index Xv_batch i ;;
          y_ <- py_index y_batch i ;;
          o <- py_index batch_out i ;;
          v <- py_index batch_vis i ;;
          Returns (Build_vis_record xi xv y_ o v))
       (seq 0 num_batch).

Section Visualize.

Context {SI SV : Type}.

Variables batch_size blocks field_size : nat.

(** [self.sess.run([self.out, self.v_list], feed_dict)] on the fed batch. *)
Variable run_out_vis : list SI -> list SV -> outcome (list R * list (list mat)).

(** [np.save(path, visualization)]. *)
Variable np_save : list (vis_record SI SV) -> outcome unit.

(** The [while len(Xi_batch) > 0] loop; the state is the batch index, the
    current batch, [y_pred], [vis] (its data) and [visualization]. *)
Fixpoint visualize_loop (fuel : nat) (Xi : list SI) (Xv : list SV)
    (dummy_y : list nat) (batch_index : nat)
    (batch : list SI * list SV * list (list nat)) (y_pred vis : pyarray)
    (visualization : list (vis_record SI SV))
    : outcome (list (vis_record SI SV)) :=
  let '(Xi_batch, Xv_batch, y_batch) := batch in
  if (0 <? length Xi_batch)%nat then
    match fuel with
    | O => OutOfFuel
    | S fuel' =>
        let num_batch := length y_batch in
        ov <- run_out_vis Xi_batch Xv_batch ;;
        let '(batch_out, batch_vis) := ov in
        yv <- (if (batch_index =? 0)%nat
               then
                 y_pred' <- np_reshape batch_out num_batch ;;
                 vis' <- np_reshape_vis batch_vis num_batch blocks
                           field_size ;;
                 Returns (y_pred', vis')
               else
                 r <- np_reshape batch_out num_batch ;;
                 y_pred' <- np_concatenate y_pred r ;;
                 rv <- np_reshape_vis batch_vis num_batch blocks
                         field_size ;;
                 vis' <- np_concatenate vis rv ;;
                 Returns (y_pred', vis')) ;;
        recs <- record_batch num_batch Xi_batch Xv_batch y_batch batch_out
                  batch_vis ;;
        let batch_index' := (batch_index + 1)%nat in
        visualize_loop fuel' Xi Xv dummy_y batch_index'
          (get_batch Xi Xv dummy_y batch_size batch_index')
          (NdArray (fst yv)) (NdArray (snd yv)) (visualization ++ recs)
    end
  else Returns visualization.

(** [visualize(Xi, Xv, y)]; the argument [y] is not read. *)
Definition visualize {Y : Type} (Xi : list SI) (Xv : list SV) (y : list Y)
    : outcome (list (vis_record SI SV)) :=
  let visualization := [] in
  let dummy_y := repeat 1%nat (length Xi) in
  let batch_index := 0%nat in
  visualization <-
    visualize_loop (S (length Xi)) Xi Xv dummy_y batch_index
      (get_batch Xi Xv dummy_y batch_size batch_index) PyNone PyNone
      visualization ;;
  _ <- np_save visualization ;;
  Returns visualization.

End Visualize.

(** ** The side network ([deep_layers] not [None])

    [_initialize_weights] (lines 310-331) creates the variables
    ["layer_i"], ["bias_i"], ["prediction_dense"] and
    ["prediction_bias_dense"]; [_init_graph] (lines 188-199) chains them.
    The model is the one with [batch_norm] off, in inference mode. *)

(** A rank-2 variable with its static shape. *)
Record tensor2 : Type := {
  nrows : nat;
  ncols : nat;
  entry : nat -> nat -> R
}.

Record deep_weights : Type := {
  deep_stack : list (tensor2 * tensor2);
  prediction_dense : tensor2;
  prediction_bias_dense : R
}.

(** What the deep part of [_initialize_weights] does: it builds the
    variables, or fails on [self.deep_layers[0]], or divides by zero in a
    [glorot] scale. *)
Inductive init_outcome (A : Type) : Type :=
| Built (a : A)
| RaisesIndexError
| RaisesZeroDivisionError.

Arguments Built {A} a.
Arguments RaisesIndexError {A}.
Arguments RaisesZeroDivisionError {A}.

(** [np.sqrt(2.0 / (fan_in + fan_out))] on Python integers. *)
Definition glorot (fan_in fan_out : nat) : option R :=
  if (fan_in + fan_out =? 0)%nat then None
  else Some (sqrt (2 / INR (fan_in + fan_out))).

(** [np.random.normal(loc=0, scale=scale, size=(rows, cols))], [z] being the
    standard normal draws. *)
Definition np_random_normal (scale : R) (z : nat -> nat -> R)
    (rows cols : nat) : tensor2 :=
  {| nrows := rows; ncols := cols; entry := fun i j => 0 + scale * z i j |}.

(** ["layer_i"] and ["bias_i"] for the layers from number [i] on, [prev]
    being the width of the layer below ([layer0_size] for [i = 0]). *)
Fixpoint init_layers (z_layer z_bias : nat -> nat -> nat -> R) (i prev : nat)
    (sizes : list nat) : init_outcome (list (tensor2 * tensor2)) :=
  match sizes with
  | [] => Built []
  | size :: sizes' =>
      match glorot prev size with
      | None => RaisesZeroDivisionError
      | Some scale =>
          match init_layers z_layer z_bias (S i) size sizes' with
          | Built rest =>
              Built ((np_random_normal scale (z_layer i) prev size,
                      np_random_normal scale (z_bias i) 1 size) :: rest)
          | RaisesIndexError => RaisesIndexError
          | RaisesZeroDivisionError => RaisesZeroDivisionError
          end
      end
  end.

Definition _initialize_deep_weights (cfg : config)
    (z_layer z_bias : nat -> nat -> nat -> R) (z_prediction : nat -> nat -> R)
    (z_prediction_bias : R) : init_outcome (option deep_weights) :=
  match deep_layers cfg with
  | None => Built None
  | Some [] => RaisesIndexError
  | Some (size0 :: sizes) =>
      let layer0_size := (field_size cfg * embedding_size cfg)%nat in
      match init_layers z_layer z_bias 0 layer0_size (size0 :: sizes) with
      | Built stack =>
          let last_size := last (size0 :: sizes) 0%nat in
          match glorot last_size 1 with
          | None => RaisesZeroDivisionError
          | Some scale =>
              Built (Some {| deep_stack := stack;
                             prediction_dense :=
                               np_random_normal scale z_prediction last_size 1;
                             prediction_bias_dense := z_prediction_bias |})
          end
      | RaisesIndexError => RaisesIndexError
      | RaisesZeroDivisionError => RaisesZeroDivisionError
      end
  end.

(** [tf.matmul(y, T)] for one row [y]: the widths must agree. *)
Definition tf_matmul_row (y : vec) (T : tensor2) : outcome vec :=
  if (length y =? nrows T)%nat
  then Returns (map (fun j => sum (imap (fun i yi => yi * entry T i j) y))
                    (seq 0 (ncols T)))
  else Raises ValueError.

(** [tf.add(y, bias)] for one row [y] and a bias of shape [[1, n]], with
    broadcasting of a last axis of size 1. *)
Definition tf_add_row (y : vec) (bias : tensor2) : outcome vec :=
  let b := map (entry bias 0) (seq 0 (ncols bias)) in
  if (length y =? length b)%nat then Returns (zip_with Rplus y b)
  else if (length y =? 1)%nat then Returns (map (fun x => nth 0 y 0 + x) b)
  else if (length b =? 1)%nat then Returns (map (fun x => x + nth 0 b 0) y)
  else Raises ValueError.

(** [for i in range(0, len(self.deep_layers))]: matmul, bias, relu (dropout
    keeps everything in inference mode). *)
Fixpoint dense_stack (stack : list (tensor2 * tensor2)) (y : vec)
    : outcome vec :=
  match stack with
  | [] => Returns y
  | (layer, bias) :: stack' =>
      y <- tf_matmul_row y layer ;;
      y <- tf_add_row y bias ;;
      dense_stack stack' (map relu y)
  end.

(** [self.y_dense] for one sample whose embeddings [e] have shape
    [[field_size, embedding_size]]: the reshape to one row, the stack, and
    the head ["logits_dense"]. *)
Definition y_dense (cfg : config) (dw : deep_weights) (e : mat) : outcome R :=
  let y := concat e in
  if negb (length y =? field_size cfg * embedding_size cfg)%nat
  then Raises InvalidArgumentError else
  y <- dense_stack (deep_stack dw) y ;;
  o <- tf_matmul_row y (prediction_dense dw) ;;
  Returns (nth 0 o 0 + prediction_bias_dense dw).

(** Two neighbours in the chain [layer0_size, deep_layers[0], ...] that are
    both 0. *)
Fixpoint zero_pair (prev : nat) (sizes : list nat) : bool :=
  match sizes with
  | [] => false
  | size :: sizes' => (prev + size =? 0)%nat || zero_pair size sizes'
  end.

(** A configuration with a side network of two layers. *)
Definition deep_cfg : config :=
  {| field_size := 2; embedding_size := 2; blocks := 1; heads := 1;
     block_shape := [2%nat]; ks := [1%nat]; has_residual := true;
     loss_type := logloss; deep_layers := Some [3; 1]%nat |}.

(** ** The loss (lines 245-259) *)

(** [tf.keras.losses.LogCosh()(label, out)]: keras computes
    [x + softplus(-2 x) - log 2] for [x = y_pred - y_true], takes the mean
    over the last axis (of size 1 here) and then over the batch. *)
Definition softplus (x : R) : R := ln (1 + exp x).

Definition log_cosh (y_true y_pred : R) : R :=
  let x := y_pred - y_true in
  x + softplus (- 2 * x) - ln 2.

Definition LogCosh (label out : list R) : R :=
  reduce_mean (zip_with log_cosh label out).

(** [tf.nn.l2_loss(t)]: [sum(t ** 2) / 2]. *)
Definition l2_loss (t : list R) : R := sum (map (fun x => x * x) t) / 2.

(** [tf.contrib.layers.l2_regularizer(scale)(T)]: [scale * l2_loss(T)]. *)
Definition tensor_entries (T : tensor2) : list R :=
  concat (map (fun i => map (entry T i) (seq 0 (ncols T)))
              (seq 0 (nrows T))).

Definition l2_regularizer (scale : R) (T : tensor2) : R :=
  scale * l2_loss (tensor_entries T).

(** [self.loss] for a fed batch: [label] and [out] have one entry per
    sample; [dw] holds the side network's variables, one layer per entry of
    [deep_layers]. *)
Definition training_loss (cfg : config) (l2_reg : R) (dw : deep_weights)
    (label out : list R) : R :=
  let loss := match loss_type cfg with
              | logloss => LogCosh label out
              | mse => l2_loss (zip_with Rminus label out)
              end in
  if Rltb 0 l2_reg then
    match deep_layers cfg with
    | Some _ =>
        fold_left (fun loss lb => loss + l2_regularizer l2_reg (fst lb))
                  (deep_stack dw) loss
    | None => loss
    end
  else loss.

(** ** The loss of the movielens variant (line 261)

    [tf.losses.log_loss(self.label, self.out)], with its default
    [epsilon = 1e-7] and weights 1: the mean over the batch of
    [- y * log(p + epsilon) - (1 - y) * log(1 - p + epsilon)]. *)
Definition log_loss_epsilon : R := 1 / 10000000.

Definition log_loss_term (y p : R) : R :=
  - (y * ln (p + log_loss_epsilon)) -
  (1 - y) * ln (1 - p + log_loss_epsilon).

Definition tf_losses_log_loss (label out : list R) : R :=
  reduce_mean (zip_with log_loss_term label out).

(** ** The bookkeeping across calls of [fit_once]

    [__init__] (lines 153-156) leaves the four lists empty and [best_loss]
    at 1.0. *)
Definition initial_fit_state : fit_state :=
  {| train_result := []; train_loss := [];
     valid_result := []; valid_loss := [];
     best_loss := 1 |}.

Section FitCalls.

Context {D : Type}.
Variable evaluate_after_training : D -> outcome (R * R).
Variables is_save greater_is_better : bool.

(** A sequence of calls [fit_once(train, valid, early_stopping)] on one
    model object: the state the calls leave and the flags they return. *)
Fixpoint fit_calls (st : fit_state) (calls : list (D * option D * bool))
    : outcome (fit_state * list bool) :=
  match calls with
  | [] => Returns (st, [])
  | (train, valid, early_stopping) :: calls' =>
      r <- fit_once evaluate_after_training is_save greater_is_better st
             train valid early_stopping ;;
      rest <- fit_calls (fst r) calls' ;;
      Returns (fst rest, snd r :: snd rest)
  end.

End FitCalls.

(** ** The genre field of the movielens variant on a whole batch *)

(** The numerator of [genre_vector_spec]: the value-weighted sum of the
    looked-up rows of one sample. *)
Definition genre_sum (table : mat) (idx : list nat) (val : vec) : vec :=
  reduce_sum_rows
    (zip_with (fun i v => map (fun e => e * v) (nth i table [])) idx val).

(** A sample's genre part as the data loader gives it: six indices inside
    the embedding table and six values. *)
Definition well_formed_genre (table : mat) (idx : list nat) (val : vec)
    : Prop :=
  length idx = 6%nat /\ length val = 6%nat /\
  Forall (fun i => (i < length table)%nat) idx.
(** * Properties *)

(** ** Comparisons and lists *)

Lemma Rltb_true (x y : R) : Rltb x y = true <-> x < y.
Proof. unfold Rltb. destruct (Rlt_dec x y); split; intros; easy. Qed.

Lemma Rgtb_true (x y : R) : Rgtb x y = true <-> y < x.
Proof. unfold Rgtb. apply Rltb_true. Qed.

Lemma Rgeb_true (x y : R) : Rgeb x y = true <-> y <= x.
Proof. unfold Rgeb. destruct (Rle_dec y x); split; intros; easy. Qed.

Lemma Rgeb_false (x y : R) : Rgeb x y = false <-> x < y.
Proof.
  unfold Rgeb. destruct (Rle_dec y x); split; intros; try easy; lra.
Qed.

Lemma Reqb_true (x y : R) : Reqb x y = true <-> x = y.
Proof. unfold Reqb. destruct (Req_dec_T x y); split; intros; easy. Qed.

Lemma zip_with_length {A B C : Type} (f : A -> B -> C) (a : list A) (b : list B) :
  length (zip_with f a b) = Nat.min (length a) (length b).
Proof.
  revert b. induction a as [|x a IH]; intros [|y b]; simpl; auto.
Qed.

Lemma zip_with_app {A B C : Type} (f : A -> B -> C) (a a' : list A)
    (b b' : list B) :
  length a = length b ->
  zip_with f (a ++ a') (b ++ b') = zip_with f a b ++ zip_with f a' b'.
Proof.
  revert b. induction a as [|x a IH]; intros [|y b] H; simpl in *;
    try discriminate; auto.
  f_equal. apply IH. lia.
Qed.

Lemma slice_length {A : Type} (l : list A) (a b : nat) :
  length (slice l a b) = Nat.min (b - a) (length l - a).
Proof. unfold slice. rewrite length_firstn, length_skipn. reflexivity. Qed.

Lemma firstn_plus {A : Type} (a k : nat) (l : list A) :
  firstn (a + k) l = firstn a l ++ firstn k (skipn a l).
Proof.
  revert l. induction a as [|a IH]; intros l; simpl; auto.
  destruct l as [|x l]; simpl.
  - now rewrite firstn_nil.
  - f_equal. apply IH.
Qed.

Lemma firstn_slice {A : Type} (l : list A) (a b : nat) :
  (a <= b)%nat -> firstn b l = firstn a l ++ slice l a b.
Proof.
  intros H. unfold slice.
  replace b with (a + (b - a))%nat at 1 by lia.
  apply firstn_plus.
Qed.

(** ** [training_termination] and [fit_once] *)

Lemma neg_index_app (pre suf : list R) (i : nat) :
  (1 <= i <= length suf)%nat ->
  neg_index (pre ++ suf) i = nth (length suf - i) suf 0.
Proof.
  intros H. unfold neg_index. rewrite length_app.
  rewrite app_nth2 by lia. f_equal. lia.
Qed.

Lemma last_five (l : list R) :
  (5 <= length l)%nat ->
  exists pre a b c d e, l = pre ++ [a; b; c; d; e].
Proof.
  intros H.
  exists (firstn (length l - 5) l).
  pose proof (firstn_skipn (length l - 5) l) as E.
  assert (L : length (skipn (length l - 5) l) = 5%nat)
    by (rewrite length_skipn; lia).
  destruct (skipn (length l - 5) l) as [|a [|b [|c [|d [|e [|x s]]]]]];
    simpl in L; try lia.
  exists a, b, c, d, e. now rewrite E.
Qed.

Lemma training_termination_false_iff (l : list R) :
  training_termination false l = true <->
  exists pre a b c d e,
    l = pre ++ [a; b; c; d; e] /\ pre <> [] /\
    a < b /\ b < c /\ c < d /\ d < e.
Proof.
  unfold training_termination. split.
  - destruct (Nat.ltb_spec 5 (length l)) as [L|L]; [|discriminate].
    destruct (last_five l) as (pre & a & b & c & d & e & E); [lia|].
    subst l. rewrite !neg_index_app by (simpl; lia). simpl.
    intros H.
    destruct (Rgtb e d) eqn:H1, (Rgtb d c) eqn:H2, (Rgtb c b) eqn:H3,
      (Rgtb b a) eqn:H4; simpl in H; try discriminate.
    apply Rgtb_true in H1, H2, H3, H4.
    exists pre, a, b, c, d, e. repeat split; auto.
    intros ->. simpl in L. lia.
  - intros (pre & a & b & c & d & e & -> & Hpre & H1 & H2 & H3 & H4).
    assert (L : (5 < length (pre ++ [a; b; c; d; e]))%nat).
    { rewrite length_app. simpl. destruct pre; [easy|simpl; lia]. }
    apply Nat.ltb_lt in L. rewrite L.
    rewrite !neg_index_app by (simpl; lia). simpl.
    apply Rgtb_true in H1, H2, H3, H4. now rewrite H1, H2, H3, H4.
Qed.

Lemma fit_once_flag {D : Type} (ev : D -> outcome (R * R))
    (is_save gib : bool) (st : fit_state) (train : D) (valid : option D)
    (es : bool) (st' : fit_state) (flag : bool) :
  fit_once ev is_save gib st train valid es = Returns (st', flag) ->
  flag = negb (match valid with Some _ => true | None => false end && es &&
               training_termination gib (valid_loss st')).
Proof.
  unfold fit_once. destruct (ev train) as [tr| |]; simpl; try discriminate.
  destruct valid as [v|]; simpl.
  - destruct (ev v) as [vr| |]; simpl; try discriminate.
    match goal with
    | |- (if ?c then _ else _) = _ -> _ => destruct c eqn:C
    end; intros [= <- <-]; simpl in *; now rewrite C.
  - intros [= <- <-]. reflexivity.
Qed.



(** ** [get_batch] and [predict] *)

Lemma firstn_min_length {A : Type} (l : list A) (a : nat) :
  firstn (Nat.min a (length l)) l = firstn a l.
Proof.
  destruct (Nat.le_ge_cases a (length l)) as [H|H].
  - now rewrite Nat.min_l.
  - rewrite Nat.min_r by lia. now rewrite !firstn_all2 by lia.
Qed.

Section PredictProps.

Context {SI SV : Type}.
Variable bs : nat.
Variable run_out : list SI -> list SV -> outcome (list R).
Variable Xi : list SI.
Variable Xv : list SV.

Let n : nat := length Xi.
Let dummy_y : list nat := repeat 1%nat n.
Let stop (i : nat) : nat := Nat.min ((i + 1) * bs) n.

Lemma get_batch_eq (i : nat) :
  get_batch Xi Xv dummy_y bs i =
  (slice Xi (i * bs) (stop i), slice Xv (i * bs) (stop i),
   map (fun y_ => [y_]) (slice dummy_y (i * bs) (stop i))).
Proof.
  unfold get_batch, stop, dummy_y. rewrite repeat_length.
  destruct (Nat.ltb_spec ((i + 1) * bs) n) as [H|H].
  - now rewrite Nat.min_l by lia.
  - now rewrite Nat.min_r by lia.
Qed.

Lemma batch_length (i : nat) :
  length (slice Xi (i * bs) (stop i)) = (stop i - i * bs)%nat /\
  length (map (fun y_ : nat => [y_]) (slice dummy_y (i * bs) (stop i))) =
  (stop i - i * bs)%nat.
Proof.
  rewrite length_map, !slice_length. unfold dummy_y.
  rewrite repeat_length. fold n. unfold stop. lia.
Qed.

(** The loop on a run that yields one output per fed sample. *)
Lemma predict_loop_length (fuel i : nat) (y_pred : pyarray) :
  (0 < bs)%nat -> (0 < n)%nat ->
  (forall bi bv, exists o, run_out bi bv = Returns o /\ length o = length bi) ->
  (n - i * bs < fuel)%nat ->
  i = 0%nat \/
  (exists acc, y_pred = NdArray acc /\ length acc = Nat.min (i * bs) n) ->
  exists v,
    predict_loop bs run_out fuel Xi Xv dummy_y i
      (get_batch Xi Xv dummy_y bs i) y_pred = Returns (NdArray v) /\
    length v = n.
Proof.
  intros Hbs Hn Hrun. revert i y_pred.
  induction fuel as [|fuel IH]; intros i y_pred Hfuel Hinv; [lia|].
  rewrite get_batch_eq. cbn [predict_loop].
  destruct (batch_length i) as [L1 L2]. rewrite L1, L2.
  destruct (Nat.ltb_spec 0 (stop i - i * bs)) as [Hne|He].
  - destruct (Hrun (slice Xi (i * bs) (stop i)) (slice Xv (i * bs) (stop i)))
      as (o & -> & Lo).
    cbn [bind]. unfold np_reshape. rewrite Lo, L1, Nat.eqb_refl.
    assert (Hnext : (n - (i + 1) * bs < fuel)%nat) by (unfold stop in Hne; lia).
    destruct (Nat.eqb_spec i 0) as [->|Hi].
    + cbn [bind]. apply IH; [exact Hnext|]. right. exists o. split; [easy|].
      rewrite Lo, L1. unfold stop. lia.
    + destruct Hinv as [->|(acc & -> & La)]; [easy|].
      cbn [bind np_concatenate]. apply IH; [exact Hnext|]. right.
      exists (acc ++ o). split; [easy|].
      rewrite length_app, La, Lo, L1. unfold stop in *. lia.
  - destruct Hinv as [->|(acc & -> & La)].
    + unfold stop in He. lia.
    + exists acc. split; [easy|]. rewrite La. unfold stop in He. lia.
Qed.

(** The loop on a run that computes each output from its own sample. *)
Lemma predict_loop_in_order (f : SI -> SV -> R) (fuel i : nat)
    (y_pred : pyarray) :
  (0 < bs)%nat -> (0 < n)%nat -> length Xv = n ->
  (forall j, (j * bs < n)%nat ->
     run_out (slice Xi (j * bs) (stop j)) (slice Xv (j * bs) (stop j)) =
     Returns (zip_with f (slice Xi (j * bs) (stop j))
                         (slice Xv (j * bs) (stop j)))) ->
  (n - i * bs < fuel)%nat ->
  i = 0%nat \/
  y_pred = NdArray (zip_with f (firstn (i * bs) Xi) (firstn (i * bs) Xv)) ->
  predict_loop bs run_out fuel Xi Xv dummy_y i
    (get_batch Xi Xv dummy_y bs i) y_pred =
  Returns (NdArray (zip_with f Xi Xv)).
Proof.
  intros Hbs Hn Hv Hrun. revert i y_pred.
  induction fuel as [|fuel IH]; intros i y_pred Hfuel Hinv; [lia|].
  rewrite get_batch_eq. cbn [predict_loop].
  destruct (batch_length i) as [L1 L2]. rewrite L1, L2.
  assert (Lv : length (slice Xv (i * bs) (stop i)) = (stop i - i * bs)%nat).
  { rewrite slice_length, Hv. unfold stop. lia. }
  destruct (Nat.ltb_spec 0 (stop i - i * bs)) as [Hne|He].
  - rewrite Hrun by (unfold stop in Hne; lia). cbn [bind]. unfold np_reshape.
    rewrite zip_with_length, L1, Lv, Nat.min_id, Nat.eqb_refl.
    assert (Hnext : (n - (i + 1) * bs < fuel)%nat) by (unfold stop in Hne; lia).
    assert (Hpre : zip_with f (firstn ((i + 1) * bs) Xi)
                     (firstn ((i + 1) * bs) Xv) =
                   zip_with f (firstn (i * bs) Xi) (firstn (i * bs) Xv) ++
                   zip_with f (slice Xi (i * bs) (stop i))
                     (slice Xv (i * bs) (stop i))).
    { rewrite <- zip_with_app by (rewrite !length_firstn; lia).
      rewrite <- !firstn_slice by (unfold stop in *; lia).
      replace (firstn (stop i) Xi) with (firstn ((i + 1) * bs) Xi)
        by (unfold stop, n; now rewrite firstn_min_length).
      replace (firstn (stop i) Xv) with (firstn ((i + 1) * bs) Xv)
        by (unfold stop; rewrite <- Hv; now rewrite firstn_min_length).
      reflexivity. }
    destruct (Nat.eqb_spec i 0) as [->|Hi].
    + cbn [bind]. apply IH; [exact Hnext|]. right.
      rewrite Hpre. reflexivity.
    + destruct Hinv as [-> | ->]; [easy|].
      cbn [bind np_concatenate]. apply IH; [exact Hnext|]. right.
      now rewrite Hpre.
  - destruct Hinv as [-> | ->].
    + unfold stop in He. lia.
    + rewrite !firstn_all2; [reflexivity| |]; unfold stop in He; lia.
Qed.

(** The loop on a run that answers every fed batch: the result is the
    concatenation of the answers, batch after batch. *)
Lemma concat_outs_length (outs : nat -> list R) (i : nat) :
  (forall j, (j * bs < n)%nat -> length (outs j) = (stop j - j * bs)%nat) ->
  i = 0%nat \/ ((i - 1) * bs < n)%nat ->
  length (concat (map outs (seq 0 i))) = Nat.min (i * bs) n.
Proof.
  intros Hlen. induction i as [|i IH]; intros Hi; [reflexivity|].
  assert (Hin : (i * bs < n)%nat).
  { destruct Hi as [Hi|Hi]; [discriminate|].
    now replace (S i - 1)%nat with i in Hi by lia. }
  rewrite seq_S, map_app, concat_app, length_app. cbn [Nat.add map concat].
  rewrite app_nil_r, IH, (Hlen i Hin).
  - unfold stop. lia.
  - destruct i as [|i']; [now left|right]. simpl in *. lia.
Qed.

Lemma predict_loop_concat (outs : nat -> list R) (fuel i : nat)
    (y_pred : pyarray) :
  (0 < bs)%nat ->
  (forall j, (j * bs < n)%nat ->
     run_out (slice Xi (j * bs) (stop j)) (slice Xv (j * bs) (stop j)) =
     Returns (outs j) /\
     length (outs j) = (stop j - j * bs)%nat) ->
  (n - i * bs < fuel)%nat ->
  (i = 0%nat /\ (0 < n)%nat) \/
  (y_pred = NdArray (concat (map outs (seq 0 i))) /\
   ((i - 1) * bs < n)%nat /\ (0 < i)%nat) ->
  predict_loop bs run_out fuel Xi Xv dummy_y i
    (get_batch Xi Xv dummy_y bs i) y_pred =
  Returns (NdArray (concat (map outs (seq 0 ((n + bs - 1) / bs))))).
Proof.
  intros Hbs Hrun. revert i y_pred.
  induction fuel as [|fuel IH]; intros i y_pred Hfuel Hinv; [lia|].
  rewrite get_batch_eq. cbn [predict_loop].
  destruct (batch_length i) as [L1 L2]. rewrite L1, L2.
  destruct (Nat.ltb_spec 0 (stop i - i * bs)) as [Hne|He].
  - assert (Hin : (i * bs < n)%nat) by (unfold stop in Hne; lia).
    destruct (Hrun i Hin) as [-> Lo]. cbn [bind]. unfold np_reshape.
    rewrite Lo, Nat.eqb_refl.
    assert (Hnext : (n - (i + 1) * bs < fuel)%nat) by lia.
    assert (Hseq : concat (map outs (seq 0 (i + 1))) =
                   concat (map outs (seq 0 i)) ++ outs i).
    { replace (i + 1)%nat with (S i) by lia.
      rewrite seq_S, map_app, concat_app. cbn [Nat.add map concat].
      now rewrite app_nil_r. }
    destruct (Nat.eqb_spec i 0) as [->|Hi].
    + cbn [bind]. apply IH; [exact Hnext|]. right.
      rewrite Hseq. cbn [seq map concat app]. repeat split; simpl; lia.
    + destruct Hinv as [[-> _]|(-> & _ & _)]; [easy|].
      cbn [bind np_concatenate]. apply IH; [exact Hnext|]. right.
      rewrite Hseq. repeat split; lia.
  - destruct Hinv as [[-> Hn]|(-> & Hprev & Hpos)].
    + unfold stop in He. lia.
    + assert (E : i = ((n + bs - 1) / bs)%nat).
      { apply (Nat.div_unique (n + bs - 1) bs i (n + bs - 1 - bs * i));
          unfold stop in He; nia. }
      now rewrite <- E.
Qed.

Lemma predict_empty_first_batch :
  n = 0%nat \/ bs = 0%nat -> predict bs run_out Xi Xv = Returns PyNone.
Proof.
  intros H. unfold predict. fold n. fold dummy_y.
  rewrite get_batch_eq. cbn [predict_loop].
  destruct (batch_length 0) as [L1 _]. rewrite L1.
  destruct (Nat.ltb_spec 0 (stop 0 - 0 * bs)) as [Hne|He]; [|reflexivity].
  unfold stop in Hne. lia.
Qed.

End PredictProps.

(** C9.  [predict] feeds the batches [get_batch(Xi, Xv, dummy_y, batch_size,
    0)], [get_batch(..., 1)], ... to the session, one after the other, until
    a batch is empty.  On the empty list, and with [batch_size = 0], the
    first batch is empty and [predict] returns [None].  With a positive
    [batch_size], on [n > 0] samples, and a session that answers each fed
    batch with one output per fed sample, it returns the answers of the
    [ceil(n / batch_size)] batches concatenated in this order, [n]
    predictions in all; when the session computes each output from its own
    sample, these are the samples' outputs in input order. *)
Theorem predict_length_preserving (SI SV : Type) (batch_size : nat)
    (run_out : list SI -> list SV -> outcome (list R))
    (Xi : list SI) (Xv : list SV) :
  predict batch_size run_out [] Xv = Returns PyNone /\
  predict 0 run_out Xi Xv = Returns PyNone /\
  ((0 < batch_size)%nat -> Xi <> [] ->
   forall outs : nat -> list R,
     (forall j, (j * batch_size < length Xi)%nat ->
        let b := get_batch Xi Xv (repeat 1%nat (length Xi)) batch_size j in
        run_out (fst (fst b)) (snd (fst b)) = Returns (outs j) /\
        length (outs j) = length (fst (fst b))) ->
     let batches := ((length Xi + batch_size - 1) / batch_size)%nat in
     predict batch_size run_out Xi Xv =
     Returns (NdArray (concat (map outs (seq 0 batches)))) /\
     length (concat (map outs (seq 0 batches))) = length Xi) /\
  (forall f : SI -> SV -> R,
     (0 < batch_size)%nat -> Xi <> [] -> length Xv = length Xi ->
     (forall j, (j * batch_size < length Xi)%nat ->
        let b := get_batch Xi Xv (repeat 1%nat (length Xi)) batch_size j in
        run_out (fst (fst b)) (snd (fst b)) =
        Returns (zip_with f (fst (fst b)) (snd (fst b)))) ->
     predict batch_size run_out Xi Xv = Returns (NdArray (zip_with f Xi Xv))).
Proof.
  assert (Hn : Xi <> [] -> (0 < length Xi)%nat).
  { destruct Xi; [easy|simpl; lia]. }
  split; [|split; [|split]].
  - apply predict_empty_first_batch. now left.
  - apply predict_empty_first_batch. now right.
  - intros Hbs Hne outs Hrun batches.
    assert (Hrun' : forall j, (j * batch_size < length Xi)%nat ->
              run_out (slice Xi (j * batch_size)
                         (Nat.min ((j + 1) * batch_size) (length Xi)))
                      (slice Xv (j * batch_size)
                         (Nat.min ((j + 1) * batch_size) (length Xi))) =
              Returns (outs j) /\
              length (outs j) =
              (Nat.min ((j + 1) * batch_size) (length Xi) - j * batch_size)%nat).
    { intros j Hj. specialize (Hrun j Hj). cbv zeta in Hrun.
      rewrite get_batch_eq in Hrun. cbn [fst snd] in Hrun.
      destruct (batch_length batch_size Xi j) as [L1 _].
      rewrite L1 in Hrun. exact Hrun. }
    split.
    + unfold predict.
      apply (predict_loop_concat batch_size run_out Xi Xv outs
               (S (length Xi)) 0 PyNone Hbs Hrun'); [lia|].
      left. split; [reflexivity|now apply Hn].
    + specialize (Hn Hne).
      pose proof (Nat.div_mod_eq (length Xi + batch_size - 1) batch_size)
        as E.
      pose proof (Nat.mod_upper_bound (length Xi + batch_size - 1)
                    batch_size ltac:(lia)) as U.
      fold batches in E.
      set (rest := ((length Xi + batch_size - 1) mod batch_size)%nat) in *.
      clearbody batches rest.
      rewrite (concat_outs_length batch_size Xi outs batches).
      * apply Nat.min_r. rewrite Nat.mul_comm. lia.
      * intros j Hj. apply (Hrun' j Hj).
      * destruct batches as [|q]; [now left|right].
        replace (S q - 1)%nat with q by lia. nia.
  - intros f Hbs Hne Hv Hrun. unfold predict.
    apply (predict_loop_in_order batch_size run_out Xi Xv f (S (length Xi))
             0 PyNone Hbs (Hn Hne) Hv); [|lia|now left].
    intros j Hj. specialize (Hrun j Hj). cbv zeta in Hrun.
    rewrite get_batch_eq in Hrun. exact Hrun.
Qed.

Lemma predict_in_order {SI SV : Type} (batch_size : nat)
    (run_out : list SI -> list SV -> outcome (list R))
    (Xi : list SI) (Xv : list SV) (f : SI -> SV -> R) :
  (0 < batch_size)%nat -> Xi <> [] -> length Xv = length Xi ->
  (forall j, (j * batch_size < length Xi)%nat ->
     let a := (j * batch_size)%nat in
     let b := Nat.min ((j + 1) * batch_size) (length Xi) in
     run_out (slice Xi a b) (slice Xv a b) =
     Returns (zip_with f (slice Xi a b) (slice Xv a b))) ->
  predict batch_size run_out Xi Xv = Returns (NdArray (zip_with f Xi Xv)).
Proof.
  intros Hbs Hne Hv Hrun. unfold predict.
  apply predict_loop_in_order; auto.
  - destruct Xi; [easy|simpl; lia].
  - lia.
Qed.

(** ** [evaluate] *)

Lemma clip_range (x : R) :
  clip_lo <= clip clip_lo clip_hi x <= clip_hi.
Proof.
  unfold clip. split.
  - apply Rmin_glb; [apply Rmax_r|unfold clip_lo, clip_hi; lra].
  - apply Rmin_r.
Qed.

Lemma clip_log_arguments (x : R) :
  0 < clip clip_lo clip_hi x /\ 0 < 1 - clip clip_lo clip_hi x.
Proof.
  pose proof (clip_range x) as H.
  set (c := clip clip_lo clip_hi x) in *.
  unfold clip_lo, clip_hi in H. lra.
Qed.

(** C10. [evaluate] hands [eval_metric] and [log_loss] the predictions of
    [predict] clipped into [[1e-6, 1 - 1e-6]]: every clipped value lies in
    that interval, so both logarithms of the log-loss have a positive
    argument; whenever [evaluate] returns, its two results are the metrics
    of the clipped array; and a [log_loss] changed outside that interval
    leaves [evaluate] unchanged, whatever the session run computes (hence for
    both loss types). *)
Theorem evaluate_clips_predictions (SI SV : Type) (batch_size : nat)
    (run_out : list SI -> list SV -> outcome (list R))
    (Xi : list SI) (Xv : list SV) (y : list R) :
  (forall x, clip_lo <= clip clip_lo clip_hi x <= clip_hi /\
             0 < clip clip_lo clip_hi x /\ 0 < 1 - clip clip_lo clip_hi x) /\
  (forall (em ll : list R -> list R -> outcome R) (r : R * R),
     evaluate batch_size run_out em ll Xi Xv y = Returns r ->
     exists p,
       predict batch_size run_out Xi Xv = Returns (NdArray p) /\
       Forall (fun q => clip_lo <= q <= clip_hi)
              (map (clip clip_lo clip_hi) p) /\
       em y (map (clip clip_lo clip_hi) p) = Returns (fst r) /\
       ll y (map (clip clip_lo clip_hi) p) = Returns (snd r)) /\
  (forall em ll ll' : list R -> list R -> outcome R,
     (forall p, Forall (fun q => clip_lo <= q <= clip_hi) p ->
                ll y p = ll' y p) ->
     evaluate batch_size run_out em ll Xi Xv y =
     evaluate batch_size run_out em ll' Xi Xv y).
Proof.
  assert (HF : forall p, Forall (fun q => clip_lo <= q <= clip_hi)
                           (map (clip clip_lo clip_hi) p)).
  { intros p. apply Forall_forall. intros q Hq.
    apply in_map_iff in Hq. destruct Hq as (x & <- & _). apply clip_range. }
  split; [|split].
  - intros x. split; [apply clip_range|apply clip_log_arguments].
  - intros em ll r. unfold evaluate.
    destruct (predict batch_size run_out Xi Xv) as [[|p]| |]; simpl;
      try discriminate.
    destruct (em y _) as [a| |] eqn:Ea; simpl; try discriminate.
    destruct (ll y _) as [l| |] eqn:El; simpl; try discriminate.
    intros [= <-]. exists p. simpl. auto.
  - intros em ll ll' Hll. unfold evaluate.
    destruct (predict batch_size run_out Xi Xv) as [[|p]| |]; simpl; auto.
    destruct (em y _) as [a| |]; simpl; auto.
    now rewrite (Hll _ (HF p)).
Qed.

Lemma half_predict :
  predict 2 half_run [1; 2; 3]%nat [4; 5; 6]%nat =
  Returns (NdArray [1 / 2; 1 / 2; 1 / 2]).
Proof.
  rewrite (predict_in_order 2 half_run _ _ half); try reflexivity.
  - lia.
  - discriminate.
Qed.

Lemma evaluate_clips_predictions_witness :
  exists p,
    predict 2 half_run [1; 2; 3]%nat [4; 5; 6]%nat = Returns (NdArray p) /\
    Forall (fun q => clip_lo <= q <= clip_hi) (map (clip clip_lo clip_hi) p) /\
    zero_metric [1; 0; 1] (map (clip clip_lo clip_hi) p) = Returns (fst (0, 0)) /\
    zero_metric [1; 0; 1] (map (clip clip_lo clip_hi) p) = Returns (snd (0, 0)).
Proof.
  apply (proj1 (proj2 (evaluate_clips_predictions nat nat 2 half_run
                         [1; 2; 3]%nat [4; 5; 6]%nat [1; 0; 1]))
           zero_metric zero_metric (0, 0)).
  unfold evaluate. rewrite half_predict. reflexivity.
Defined.

(** *** Constant labels *)

Lemma np_unique_constant (c : R) (y : list R) :
  Forall (fun l => l = c) y -> (length (np_unique y) <= 1)%nat.
Proof.
  unfold np_unique. induction 1 as [|x y Hx Hy IH]; simpl; [lia|].
  destruct (in_dec Req_dec_T x y) as [Hin|Hout]; [exact IH|].
  destruct y as [|x' y]; simpl; [lia|].
  exfalso. apply Hout. left. inversion Hy; subst. reflexivity.
Qed.

Lemma roc_auc_score_one_class (c : R) (y p : list R) :
  Forall (fun l => l = c) y -> roc_auc_score y p = Raises ValueError.
Proof.
  intros H. unfold roc_auc_score.
  destruct (negb (length y =? length p)%nat); [reflexivity|].
  pose proof (np_unique_constant c y H) as L.
  destruct (Nat.eqb_spec (length (np_unique y)) 2) as [E|E]; [lia|reflexivity].
Qed.

Lemma log_loss_one_class (c : R) (y p : list R) :
  Forall (fun l => l = c) y -> log_loss y p = Raises ValueError.
Proof.
  intros H. unfold log_loss.
  destruct (negb (length y =? length p)%nat); [reflexivity|].
  pose proof (np_unique_constant c y H) as L.
  destruct (Nat.eqb_spec (length (np_unique y)) 2) as [E|E]; [lia|reflexivity].
Qed.

Lemma evaluate_one_class {SI SV : Type} (batch_size : nat)
    (run_out : list SI -> list SV -> outcome (list R))
    (Xi : list SI) (Xv : list SV) (y p : list R) (c : R) :
  Forall (fun l => l = c) y ->
  predict batch_size run_out Xi Xv = Returns (NdArray p) ->
  evaluate batch_size run_out roc_auc_score log_loss Xi Xv y =
  Raises ValueError.
Proof.
  intros Hy Hp. unfold evaluate. rewrite Hp. simpl.
  now rewrite (roc_auc_score_one_class c).
Qed.

(** C5, as the code has it.  [evaluate] has no guard for a batch with a
    single class: with scikit-learn's [roc_auc_score] as [eval_metric] and
    its [log_loss], a batch whose labels are all equal never makes
    [evaluate] return a pair; once [predict] has produced its array,
    [evaluate] raises the [ValueError] of [roc_auc_score]. *)
Theorem evaluate_constant_label_raises (SI SV : Type) (batch_size : nat)
    (run_out : list SI -> list SV -> outcome (list R))
    (Xi : list SI) (Xv : list SV) (y : list R) (c : R) :
  Forall (fun l => l = c) y ->
  (forall r, evaluate batch_size run_out roc_auc_score log_loss Xi Xv y
             <> Returns r) /\
  (forall p, predict batch_size run_out Xi Xv = Returns (NdArray p) ->
             evaluate batch_size run_out roc_auc_score log_loss Xi Xv y =
             Raises ValueError).
Proof.
  intros Hy. split.
  - intros r. unfold evaluate.
    destruct (predict batch_size run_out Xi Xv) as [[|p]| |]; simpl;
      try discriminate.
    now rewrite (roc_auc_score_one_class c).
  - intros p. now apply (evaluate_one_class _ _ _ _ _ _ c).
Qed.

Lemma evaluate_constant_label_raises_witness :
  (forall r, evaluate 2 half_run roc_auc_score log_loss
               [1; 2; 3]%nat [4; 5; 6]%nat [1; 1; 1] <> Returns r) /\
  (forall p, predict 2 half_run [1; 2; 3]%nat [4; 5; 6]%nat =
             Returns (NdArray p) ->
             evaluate 2 half_run roc_auc_score log_loss
               [1; 2; 3]%nat [4; 5; 6]%nat [1; 1; 1] = Raises ValueError).
Proof.
  apply (evaluate_constant_label_raises nat nat 2 half_run
           [1; 2; 3]%nat [4; 5; 6]%nat [1; 1; 1] 1).
  repeat constructor.
Defined.

(** C5 as stated fails: on a batch of three samples whose labels are all 1,
    and on one whose labels are all 0, [evaluate] raises. *)
Lemma evaluate_constant_label_counterexample :
  evaluate 2 half_run roc_auc_score log_loss
    [1; 2; 3]%nat [4; 5; 6]%nat [1; 1; 1] = Raises ValueError /\
  evaluate 2 half_run roc_auc_score log_loss
    [1; 2; 3]%nat [4; 5; 6]%nat [0; 0; 0] = Raises ValueError.
Proof.
  split.
  - apply (evaluate_one_class 2 half_run _ _ _ [1 / 2; 1 / 2; 1 / 2] 1);
      [|apply half_predict].
    repeat constructor.
  - apply (evaluate_one_class 2 half_run _ _ _ [1 / 2; 1 / 2; 1 / 2] 0);
      [|apply half_predict].
    repeat constructor.
Qed.

(** ** [normalize] *)

Lemma sum_map_scale (c : R) (v : vec) :
  sum (map (fun x => x * c) v) = sum v * c.
Proof.
  induction v as [|x v IH]; [simpl; ring|].
  cbn [map]. change (x * c + sum (map (fun x => x * c) v) = (x + sum v) * c).
  rewrite IH. ring.
Qed.

Lemma sum_map_shift (m : R) (v : vec) :
  sum (map (fun x => x - m) v) = sum v - INR (length v) * m.
Proof.
  induction v as [|x v IH]; [simpl; ring|].
  cbn [map].
  change (x - m + sum (map (fun x => x - m) v) =
          x + sum v - INR (S (length v)) * m).
  rewrite IH, S_INR. ring.
Qed.

Lemma sum_squares_nonneg (m : R) (v : vec) :
  0 <= sum (map (fun x => (x - m) * (x - m)) v).
Proof.
  induction v as [|x v IH]; [simpl; lra|].
  cbn [map].
  change (0 <= (x - m) * (x - m) + sum (map (fun x => (x - m) * (x - m)) v)).
  pose proof (Rle_0_sqr (x - m)) as H. unfold Rsqr in H. lra.
Qed.

Lemma INR_length_pos {A : Type} (v : list A) : v <> [] -> 0 < INR (length v).
Proof.
  intros H. apply lt_0_INR. destruct v; [easy|simpl; lia].
Qed.

Lemma variance_nonneg (v : vec) : v <> [] -> 0 <= snd (moments v).
Proof.
  intros H. unfold moments, reduce_mean. cbn [snd]. rewrite length_map.
  apply Rmult_le_pos; [apply sum_squares_nonneg|].
  left. apply Rinv_0_lt_compat. now apply INR_length_pos.
Qed.

Section Normalized.

Variable eps : R.
Hypothesis eps_pos : 0 < eps.
Variable inputs : vec.
Hypothesis inputs_nonempty : inputs <> [].

Let mean : R := fst (moments inputs).
Let variance : R := snd (moments inputs).

Lemma normalized_eq :
  normalized eps inputs =
  map (fun x => (x - mean) / sqrt (variance + eps)) inputs.
Proof.
  unfold normalized, mean, variance. cbn [moments fst snd].
  rewrite Rpower_sqrt; [reflexivity|].
  pose proof (variance_nonneg inputs inputs_nonempty) as H.
  unfold moments in H. cbn [snd] in H. lra.
Qed.

Lemma sqrt_variance_pos : 0 < sqrt (variance + eps).
Proof.
  apply sqrt_lt_R0.
  pose proof (variance_nonneg inputs inputs_nonempty). fold variance in H. lra.
Qed.

Lemma normalized_mean : fst (moments (normalized eps inputs)) = 0.
Proof.
  rewrite normalized_eq. cbn [moments fst]. unfold reduce_mean.
  rewrite length_map.
  pose proof (INR_length_pos inputs inputs_nonempty) as Hn.
  pose proof sqrt_variance_pos as Hs.
  replace (map (fun x => (x - mean) / sqrt (variance + eps)) inputs)
    with (map (fun x => x * / sqrt (variance + eps))
              (map (fun x => x - mean) inputs))
    by (rewrite map_map; reflexivity).
  rewrite sum_map_scale, sum_map_shift.
  unfold mean. cbn [moments fst]. unfold reduce_mean. field. lra.
Qed.

Lemma normalized_variance :
  snd (moments (normalized eps inputs)) = variance / (variance + eps).
Proof.
  pose proof normalized_mean as Hm.
  pose proof (INR_length_pos inputs inputs_nonempty) as Hn.
  pose proof sqrt_variance_pos as Hs.
  pose proof (variance_nonneg inputs inputs_nonempty) as Hv.
  fold variance in Hv.
  assert (Hss : sqrt (variance + eps) * sqrt (variance + eps) = variance + eps)
    by (apply sqrt_sqrt; lra).
  change (snd (moments (normalized eps inputs)))
    with (reduce_mean
            (map (fun x => (x - fst (moments (normalized eps inputs))) *
                           (x - fst (moments (normalized eps inputs))))
                 (normalized eps inputs))).
  rewrite Hm, normalized_eq, map_map. unfold reduce_mean.
  rewrite length_map.
  replace (map (fun x => ((x - mean) / sqrt (variance + eps) - 0) *
                         ((x - mean) / sqrt (variance + eps) - 0)) inputs)
    with (map (fun x => x * / (variance + eps))
              (map (fun x => (x - mean) * (x - mean)) inputs)).
  - rewrite sum_map_scale.
    change variance
      with (sum (map (fun x => (x - mean) * (x - mean)) inputs) /
            INR (length (map (fun x => (x - mean) * (x - mean)) inputs))) at 2.
    rewrite length_map. field. split; lra.
  - rewrite map_map. apply map_ext. intros x.
    set (s := sqrt (variance + eps)) in *. rewrite <- Hss. field. lra.
Qed.

End Normalized.

Lemma zip_with_map_r {A B B' C : Type} (f : A -> B' -> C) (g : B -> B')
    (a : list A) (b : list B) :
  zip_with f a (map g b) = zip_with (fun x y => f x (g y)) a b.
Proof.
  revert b. induction a as [|x a IH]; intros [|y b]; simpl; auto.
  now rewrite IH.
Qed.

Lemma imap_map {A A' B : Type} (f : nat -> A' -> B) (g : A -> A')
    (v : list A) :
  imap f (map g v) = imap (fun c x => f c (g x)) v.
Proof. unfold imap. now rewrite length_map, zip_with_map_r. Qed.

Lemma imap_length {A B : Type} (f : nat -> A -> B) (v : list A) :
  length (imap f v) = length v.
Proof.
  unfold imap. rewrite zip_with_length, length_seq. apply Nat.min_id.
Qed.

Lemma constant_pair_moments : moments [1; 1] = (1, 0).
Proof.
  unfold moments, reduce_mean. simpl. f_equal; field.
Qed.

(** C7, as the code has it.  [normalize] subtracts the mean of the last
    axis, divides by [sqrt(variance + epsilon)], then scales by [gamma] and
    shifts by [beta].  Before the scale and shift a non-empty vector has mean
    0 and variance [variance / (variance + epsilon)]: below 1 by
    [epsilon / (variance + epsilon)], hence close to 1 only when the input's
    variance is large against [epsilon], and 0 when the input is constant. *)
Theorem normalize_layer_norm (gamma beta : nat -> R) (eps : R) (inputs : vec) :
  0 < eps -> inputs <> [] ->
  let mean := fst (moments inputs) in
  let variance := snd (moments inputs) in
  normalize gamma beta eps inputs =
    imap (fun c x => gamma c * ((x - mean) / sqrt (variance + eps)) + beta c)
         inputs /\
  fst (moments (normalized eps inputs)) = 0 /\
  snd (moments (normalized eps inputs)) = variance / (variance + eps) /\
  0 <= variance / (variance + eps) < 1 /\
  1 - variance / (variance + eps) = eps / (variance + eps) /\
  (variance = 0 -> snd (moments (normalized eps inputs)) = 0).
Proof.
  intros Heps Hne mean variance.
  pose proof (variance_nonneg inputs Hne) as Hv. fold variance in Hv.
  assert (Hq : 0 <= variance / (variance + eps) < 1).
  { split.
    - apply Rmult_le_pos; [lra|]. left. apply Rinv_0_lt_compat. lra.
    - apply Rmult_lt_reg_r with (variance + eps); [lra|].
      unfold Rdiv. rewrite Rmult_assoc, Rinv_l by lra. lra. }
  repeat split; try apply Hq.
  - unfold normalize. rewrite (normalized_eq eps Heps inputs Hne).
    apply imap_map.
  - now apply normalized_mean.
  - now apply normalized_variance.
  - field. lra.
  - intros H0. rewrite (normalized_variance eps Heps inputs Hne).
    fold variance. rewrite H0. unfold Rdiv. ring.
Qed.

Lemma normalize_layer_norm_witness :
  fst (moments (normalized epsilon [1; 2; 3])) = 0.
Proof.
  apply (normalize_layer_norm (fun _ => 1) (fun _ => 0) epsilon [1; 2; 3]).
  - unfold epsilon. lra.
  - discriminate.
Defined.

(** C7 as stated fails: the normalized form of the constant vector [1; 1]
    has variance 0, at distance 1 from the variance the claim announces. *)
Lemma normalize_variance_counterexample :
  snd (moments (normalized epsilon [1; 1])) = 0 /\
  ~ Rabs (snd (moments (normalized epsilon [1; 1])) - 1) <= epsilon.
Proof.
  assert (H : snd (moments (normalized epsilon [1; 1])) = 0).
  { rewrite normalized_variance; [|unfold epsilon; lra|discriminate].
    rewrite constant_pair_moments. cbn [snd]. unfold Rdiv. ring. }
  split; [exact H|].
  rewrite H. replace (0 - 1) with (- (1)) by ring.
  rewrite Rabs_Ropp, Rabs_R1. unfold epsilon. lra.
Qed.

(** ** The graph-structure selector *)

(** *** [top_k]: sorting, largest first *)

Lemma insert_desc_perm (x : R) (l : vec) : Permutation (insert_desc x l) (x :: l).
Proof.
  induction l as [|y l IH]; simpl; [reflexivity|].
  destruct (Rgeb x y); [reflexivity|].
  rewrite IH. apply perm_swap.
Qed.

Lemma sort_desc_perm (l : vec) : Permutation (sort_desc l) l.
Proof.
  induction l as [|x l IH]; simpl; [reflexivity|].
  rewrite insert_desc_perm. now constructor.
Qed.

Lemma insert_desc_descending (x : R) (l : vec) :
  descending l -> descending (insert_desc x l).
Proof.
  induction 1 as [|y l Hy Hl IH]; simpl.
  - repeat constructor.
  - destruct (Rgeb x y) eqn:E.
    + apply Rgeb_true in E. constructor; [|now constructor].
      constructor; [exact E|].
      eapply Forall_impl; [|exact Hy]. simpl. intros z Hz. lra.
    + apply Rgeb_false in E. constructor; [|exact IH].
      apply (Permutation_Forall (Permutation_sym (insert_desc_perm x l))).
      constructor; [lra|exact Hy].
Qed.

Lemma sort_desc_descending (l : vec) : descending (sort_desc l).
Proof.
  induction l as [|x l IH]; simpl; [constructor|].
  now apply insert_desc_descending.
Qed.

Lemma descending_firstn_skipn (l : vec) (k : nat) (x y : R) :
  descending l -> In x (firstn k l) -> In y (skipn k l) -> y <= x.
Proof.
  intros H. revert k. induction H as [|a l Ha Hl IH]; intros k Hx Hy.
  - rewrite firstn_nil in Hx. destruct Hx.
  - destruct k as [|k]; [destruct Hx|]. simpl in Hx, Hy.
    destruct Hx as [<-|Hx].
    + rewrite Forall_forall in Ha. apply Ha.
      rewrite <- (firstn_skipn k l). apply in_or_app. now right.
    + now apply (IH k).
Qed.

(** *** [reduce_min] *)

Lemma reduce_min_spec (v : vec) :
  v <> [] ->
  exists t, reduce_min v = Some t /\ In t v /\ Forall (fun x => t <= x) v.
Proof.
  induction v as [|x v IH]; [easy|]. intros _.
  destruct v as [|x' v].
  - exists x. simpl. repeat split; auto. constructor; [lra|constructor].
  - destruct IH as (t & E & Hin & Hall); [easy|].
    cbn [reduce_min] in *. rewrite E.
    exists (Rmin x t). split; [reflexivity|].
    unfold Rmin. destruct (Rle_dec x t) as [Hle|Hgt].
    + split; [now left|]. constructor; [lra|].
      eapply Forall_impl; [|exact Hall]. simpl. intros z Hz. lra.
    + split; [now right|]. constructor; [lra|exact Hall].
Qed.

(** *** Counting *)

Lemma count_if_perm (p : R -> bool) (l l' : vec) :
  Permutation l l' -> count_if p l = count_if p l'.
Proof.
  unfold count_if. induction 1 as [|x l l' H IH|x y l|l l' l'' H1 IH1 H2 IH2];
    simpl; auto.
  - destruct (p x); simpl; auto.
  - destruct (p x), (p y); simpl; auto.
  - congruence.
Qed.

Lemma count_if_app (p : R -> bool) (l l' : vec) :
  count_if p (l ++ l') = (count_if p l + count_if p l')%nat.
Proof. unfold count_if. now rewrite filter_app, length_app. Qed.

Lemma count_if_all (p : R -> bool) (l : vec) :
  Forall (fun x => p x = true) l -> count_if p l = length l.
Proof.
  unfold count_if. induction 1 as [|x l Hx Hl IH]; simpl; auto.
  rewrite Hx. simpl. now rewrite IH.
Qed.

Lemma count_if_none (p : R -> bool) (l : vec) :
  Forall (fun x => p x = false) l -> count_if p l = 0%nat.
Proof.
  unfold count_if. induction 1 as [|x l Hx Hl IH]; simpl; auto.
  now rewrite Hx.
Qed.

Lemma count_if_le (p : R -> bool) (l : vec) : (count_if p l <= length l)%nat.
Proof. unfold count_if. apply filter_length_le. Qed.

Lemma count_if_miss (p : R -> bool) (l : vec) (t : R) :
  In t l -> p t = false -> (count_if p l < length l)%nat.
Proof.
  unfold count_if. induction l as [|x l IH]; [easy|].
  intros [->|Hin] Ht; simpl.
  - rewrite Ht. pose proof (filter_length_le p l). lia.
  - specialize (IH Hin Ht). destruct (p x); simpl; lia.
Qed.

Lemma count_ge_split (t : R) (l : vec) :
  count_if (fun s => Rgeb s t) l =
  (count_if (fun s => Rltb t s) l + count_if (fun s => Reqb s t) l)%nat.
Proof.
  unfold count_if. induction l as [|x l IH]; simpl; auto.
  destruct (Rgeb x t) eqn:H1, (Rltb t x) eqn:H2, (Reqb x t) eqn:H3;
    simpl; try lia; exfalso;
    try apply Rgeb_true in H1; try apply Rgeb_false in H1;
    try apply Rltb_true in H2; try apply Reqb_true in H3; try lra.
  - assert (H2' : ~ t < x) by (intros H; apply Rltb_true in H; congruence).
    assert (H3' : x <> t) by (intros H; apply Reqb_true in H; congruence).
    apply H3'. apply Rle_antisym; [now apply Rnot_lt_le|exact H1].
Qed.

(** *** The cutoff and the row *)

Lemma top_k_cutoff (S : vec) (k : nat) :
  (1 <= k <= length S)%nat ->
  exists t,
    top_k S k = Returns (firstn k (sort_desc S)) /\
    reduce_min (firstn k (sort_desc S)) = Some t /\
    In t S /\
    (k <= count_if (fun s => Rgeb s t) S)%nat /\
    (count_if (fun s => Rltb t s) S < k)%nat.
Proof.
  intros Hk.
  pose proof (sort_desc_perm S) as HP.
  pose proof (sort_desc_descending S) as HD.
  assert (HL : length (sort_desc S) = length S)
    by now apply Permutation_length.
  assert (Hf : length (firstn k (sort_desc S)) = k)
    by (rewrite length_firstn; lia).
  destruct (reduce_min_spec (firstn k (sort_desc S))) as (t & Et & Hin & Hall).
  { intros E. rewrite E in Hf. simpl in Hf. lia. }
  exists t. split; [|split; [exact Et|split; [|split]]].
  - unfold top_k. destruct (Nat.leb_spec k (length S)); [reflexivity|lia].
  - apply (Permutation_in _ HP).
    rewrite <- (firstn_skipn k (sort_desc S)). apply in_or_app. now left.
  - rewrite <- (count_if_perm _ _ _ HP).
    rewrite <- (firstn_skipn k (sort_desc S)), count_if_app.
    rewrite count_if_all; [lia|].
    eapply Forall_impl; [|exact Hall]. simpl. intros x Hx.
    now apply Rgeb_true.
  - rewrite <- (count_if_perm _ _ _ HP).
    rewrite <- (firstn_skipn k (sort_desc S)), count_if_app.
    rewrite (count_if_none _ (skipn k (sort_desc S))).
    + pose proof (count_if_miss (fun s => Rltb t s) _ t Hin) as Hm.
      rewrite Hf in Hm. rewrite Nat.add_0_r. apply Hm.
      unfold Rltb. destruct (Rlt_dec t t); [lra|reflexivity].
    + apply Forall_forall. intros y Hy.
      pose proof (descending_firstn_skipn _ k t y HD Hin Hy) as Hle.
      unfold Rltb. destruct (Rlt_dec t y); [lra|reflexivity].
Qed.

Lemma masked_row (S : vec) (t : R) :
  zip_with Rmult S (map (fun s => cast_float (greater_equal s (Some t))) S) =
  map (fun s => if Rgeb s t then s else 0) S.
Proof.
  induction S as [|s S IH]; [reflexivity|].
  cbn [zip_with map]. rewrite IH. f_equal.
  unfold greater_equal. destruct (Rgeb s t); simpl; ring.
Qed.

Lemma count_nonzero_masked_row (S : vec) (t : R) :
  Forall (fun s => 0 < s) S ->
  count_nonzero (map (fun s => if Rgeb s t then s else 0) S) =
  count_if (fun s => Rgeb s t) S.
Proof.
  unfold count_nonzero, count_if.
  induction 1 as [|s S Hs HS IH]; simpl; [reflexivity|].
  destruct (Rgeb s t); simpl.
  - unfold Reqb at 1. destruct (Req_dec_T s 0); [lra|]. simpl. now rewrite IH.
  - unfold Reqb at 1. destruct (Req_dec_T 0 0); [|easy]. simpl. exact IH.
Qed.

(** *** The scores are sigmoid outputs *)

Lemma sigmoid_range (x : R) : 0 < sigmoid x < 1.
Proof.
  unfold sigmoid. pose proof (exp_pos (- x)) as H.
  split.
  - apply Rdiv_lt_0_compat; lra.
  - apply Rmult_lt_reg_r with (1 + exp (- x)); [lra|].
    unfold Rdiv. rewrite Rmult_assoc, Rinv_l by lra. lra.
Qed.

Lemma gsl_scores_eq (W : block_weights) (values : mat) :
  exists z : vec, length z = length values /\
                  gsl_scores W values = map sigmoid z.
Proof.
  unfold gsl_scores, tf_squeeze. rewrite !map_map.
  eexists (map _ values). split; [apply length_map|].
  rewrite map_map. apply map_ext. intros row. reflexivity.
Qed.

Lemma gsl_scores_length (W : block_weights) (values : mat) :
  length (gsl_scores W values) = length values.
Proof.
  destruct (gsl_scores_eq W values) as (z & Lz & ->). now rewrite length_map.
Qed.

Lemma gsl_scores_range (W : block_weights) (values : mat) :
  Forall (fun s => 0 < s < 1) (gsl_scores W values).
Proof.
  destruct (gsl_scores_eq W values) as (z & Lz & ->).
  apply Forall_forall. intros s Hs. apply in_map_iff in Hs.
  destruct Hs as (x & <- & _). apply sigmoid_range.
Qed.

Lemma gat_attention_vis (W : block_weights) (batch : nat) (queries : vec)
    (values : mat) (num_units num_heads k field : nat) (has_residual : bool)
    (r : vec * vec) :
  gat_attention W batch queries values num_units num_heads k field
    has_residual = Returns r ->
  graph_structure_selector (gsl_scores W values) k = Returns (snd r).
Proof.
  unfold gat_attention.
  destruct (tf_split _ num_heads num_heads) as [A_| |]; simpl; try discriminate.
  destruct (tf_split _ num_units num_heads) as [H_| |]; simpl; try discriminate.
  destruct (graph_structure_selector _ k) as [S| |]; simpl; try discriminate.
  destruct (squeeze_keeps_batch_and_fields batch (length values)); simpl;
    try discriminate.
  now intros [= <-].
Qed.

(** What a returning call of [gat_attention] has computed: the two splits,
    the selector's row, and the new state as the normalized, rectified sum
    of the value rows weighted by [attention_weights] of that row. *)
Lemma gat_attention_inv (W : block_weights) (batch : nat) (queries : vec)
    (values : mat) (num_units num_heads k field : nat) (has_residual : bool)
    (r : vec * vec) :
  gat_attention W batch queries values num_units num_heads k field
    has_residual = Returns r ->
  exists A_ H_ : list mat,
    tf_split (map (dense (att_kernel W) (Some (att_bias W)) relu num_heads)
                  values) num_heads num_heads = Returns A_ /\
    tf_split (map (dense (w_kernel W field) None linear num_units) values)
      num_units num_heads = Returns H_ /\
    graph_structure_selector (gsl_scores W values) k = Returns (snd r) /\
    squeeze_keeps_batch_and_fields batch (length values) = true /\
    fst r =
      normalize (ln_gamma W field) (ln_beta W field) epsilon
        (map relu
           (let outputs :=
              concat (map reduce_sum_rows
                          (zip_with bmul (attention_weights (snd r) A_) H_)) in
            if has_residual
            then zip_with Rplus outputs
                   (dense (res_kernel W field) (Some (res_bias W field)) relu
                          num_units queries)
            else outputs)).
Proof.
  unfold gat_attention.
  destruct (tf_split _ num_heads num_heads) as [A_| |]; simpl;
    try discriminate.
  destruct (tf_split _ num_units num_heads) as [H_| |]; simpl;
    try discriminate.
  destruct (graph_structure_selector _ k) as [S| |]; simpl; try discriminate.
  destruct (squeeze_keeps_batch_and_fields batch (length values)); simpl;
    try discriminate.
  intros [= <-]. exists A_, H_. cbn [fst snd]. repeat split.
Qed.

(** C1. The visibility row of a query field keeps exactly the fields whose
    sigmoid score is at least the [k]-th largest score [kth]: an entry of the
    row is the raw score when the score is at least [kth] and exactly 0
    otherwise; [kth] is a score with at least [k] scores at or above it and
    fewer than [k] strictly above; so the row has at least [k] non-zero
    entries, and more than [k] only when several scores tie at [kth].  The
    row is the one [gat_attention] returns as [vis]. *)
Theorem selector_keeps_top_k (W : block_weights) (values : mat) (k : nat) :
  (1 <= k <= length values)%nat ->
  exists (kth : R) (vis : vec),
    graph_structure_selector (gsl_scores W values) k = Returns vis /\
    (forall batch queries num_units num_heads field has_residual r,
       gat_attention W batch queries values num_units num_heads k field
         has_residual = Returns r -> snd r = vis) /\
    In kth (gsl_scores W values) /\
    (k <= count_if (fun s => Rgeb s kth) (gsl_scores W values))%nat /\
    (count_if (fun s => Rltb kth s) (gsl_scores W values) < k)%nat /\
    vis = map (fun s => if Rgeb s kth then s else 0) (gsl_scores W values) /\
    Forall (fun s => 0 < s < 1) (gsl_scores W values) /\
    count_nonzero vis = count_if (fun s => Rgeb s kth) (gsl_scores W values) /\
    (k <= count_nonzero vis)%nat /\
    ((k < count_nonzero vis)%nat ->
     (2 <= count_if (fun s => Reqb s kth) (gsl_scores W values))%nat).
Proof.
  intros Hk. set (S := gsl_scores W values).
  assert (HS : (1 <= k <= length S)%nat)
    by (unfold S; rewrite gsl_scores_length; exact Hk).
  destruct (top_k_cutoff S k HS) as (t & Etop & Emin & Hin & Hge & Hgt).
  pose proof (gsl_scores_range W values) as Hrange. fold S in Hrange.
  assert (Hsel : graph_structure_selector S k =
                 Returns (map (fun s => if Rgeb s t then s else 0) S)).
  { unfold graph_structure_selector. rewrite Etop. cbn [bind].
    rewrite Emin. now rewrite masked_row. }
  assert (Hcount : count_nonzero (map (fun s => if Rgeb s t then s else 0) S)
                   = count_if (fun s => Rgeb s t) S).
  { apply count_nonzero_masked_row.
    eapply Forall_impl; [|exact Hrange]. simpl. intros s Hs. lra. }
  exists t, (map (fun s => if Rgeb s t then s else 0) S).
  repeat split; auto.
  - intros batch queries num_units num_heads field has_residual r Hr.
    apply gat_attention_vis in Hr. fold S in Hr. rewrite Hsel in Hr.
    now injection Hr.
  - rewrite Hcount. exact Hge.
  - rewrite Hcount, count_ge_split. lia.
Qed.

Lemma selector_keeps_top_k_witness :
  exists vis : vec,
    graph_structure_selector (gsl_scores zero_block two_fields) 1 =
    Returns vis /\ (1 <= count_nonzero vis)%nat.
Proof.
  destruct (selector_keeps_top_k zero_block two_fields 1) as (kth & vis & H).
  - simpl. lia.
  - exists vis. split; [apply H|apply H].
Defined.

(** ** Masking by multiplication, then softmax *)

Lemma dense_length (kernel : nat -> nat -> R) (bias : option (nat -> R))
    (act : R -> R) (units : nat) (x : vec) :
  length (dense kernel bias act units x) = units.
Proof. unfold dense. now rewrite length_map, length_seq. Qed.

Lemma slice_one (row : vec) (p : nat) :
  (p < length row)%nat -> slice row p (p + 1) = [nth p row 0].
Proof.
  intros H. unfold slice. replace (p + 1 - p)%nat with 1%nat by lia.
  revert p H. induction row as [|x row IH]; intros p H; simpl in H; [lia|].
  destruct p as [|p]; [reflexivity|]. simpl. apply IH. lia.
Qed.

Lemma tf_split_heads (A : mat) (num_heads : nat) :
  (0 < num_heads)%nat ->
  Forall (fun row => length row = num_heads) A ->
  tf_split A num_heads num_heads =
  Returns (map (fun p => expand_dims (column A p)) (seq 0 num_heads)).
Proof.
  intros Hh HA. unfold tf_split.
  rewrite Nat.Div0.mod_same, Nat.div_same by lia.
  destruct (Nat.eqb_spec num_heads 0) as [E|_]; [lia|]. simpl.
  apply (f_equal Returns). apply map_ext_in. intros p Hp. apply in_seq in Hp.
  unfold expand_dims, column. rewrite map_map.
  apply map_ext_in. intros row Hrow.
  rewrite Forall_forall in HA. specialize (HA row Hrow).
  rewrite !Nat.mul_1_r. apply slice_one. lia.
Qed.

Lemma bmul_expand_dims (S a : vec) :
  length S = length a ->
  bmul (expand_dims S) (expand_dims a) = expand_dims (zip_with Rmult S a).
Proof.
  assert (Z : forall S a : vec,
             zip_with bmul_row (expand_dims S) (expand_dims a) =
             expand_dims (zip_with Rmult S a)).
  { induction S0 as [|s S0 IH]; intros [|x a0]; simpl; auto.
    now rewrite IH. }
  intros H. destruct S as [|s [|s' S]], a as [|x [|x' a]];
    try discriminate H; try reflexivity.
  change (bmul (expand_dims (s :: s' :: S)) (expand_dims (x :: x' :: a)))
    with (zip_with bmul_row (expand_dims (s :: s' :: S))
            (expand_dims (x :: x' :: a))).
  apply Z.
Qed.

Lemma column_expand_dims (v : vec) : column (expand_dims v) 0 = v.
Proof.
  unfold column, expand_dims. rewrite map_map. simpl. apply map_id.
Qed.

Lemma softmax_rows_columns (m : mat) (v : vec) :
  map (fun row => imap (fun c x => exp x / sum (map exp (column m c))) row)
      (expand_dims v) =
  map (fun x => [exp x / sum (map exp (column m 0))]) v.
Proof.
  unfold expand_dims. rewrite map_map. apply map_ext. intros x. reflexivity.
Qed.

Lemma softmax_rows_expand_dims (v : vec) :
  softmax_rows (expand_dims v) =
  expand_dims (map (fun x => exp x / sum (map exp v)) v).
Proof.
  unfold softmax_rows. rewrite softmax_rows_columns, column_expand_dims.
  unfold expand_dims. now rewrite map_map.
Qed.

Lemma nth_expand_dims (v : vec) (f : nat) :
  (f < length v)%nat -> nth f (expand_dims v) [] = [nth f v 0].
Proof.
  intros H. unfold expand_dims.
  rewrite (nth_indep _ [] ((fun s : R => [s]) 0)) by now rewrite length_map.
  apply (map_nth (fun s : R => [s])).
Qed.

Lemma nth_zip_with_mult (a b : vec) (f : nat) :
  (f < length a)%nat -> (f < length b)%nat ->
  nth f (zip_with Rmult a b) 0 = nth f a 0 * nth f b 0.
Proof.
  revert b f. induction a as [|x a IH]; intros [|y b] [|f] Ha Hb;
    simpl in *; try lia; auto.
  apply IH; lia.
Qed.

Lemma sum_exp_pos (v : vec) : v <> [] -> 0 < sum (map exp v).
Proof.
  assert (H : forall v, 0 <= sum (map exp v)).
  { induction v0 as [|x v0 IH]; [simpl; lra|].
    cbn [map]. change (0 <= exp x + sum (map exp v0)).
    pose proof (exp_pos x). lra. }
  destruct v as [|x v]; [easy|]. intros _.
  cbn [map]. change (0 < exp x + sum (map exp v)).
  pose proof (exp_pos x). specialize (H v). lra.
Qed.

Lemma selector_length (S vis : vec) (k : nat) :
  graph_structure_selector S k = Returns vis -> length vis = length S.
Proof.
  unfold graph_structure_selector.
  destruct (top_k S k) as [values| |]; simpl; try discriminate.
  intros [= <-]. rewrite zip_with_length, length_map. apply Nat.min_id.
Qed.

Lemma nth_map_seq {B : Type} (F : nat -> B) (n i : nat) (d : B) :
  (i < n)%nat -> nth i (map F (seq 0 n)) d = F i.
Proof.
  intros H.
  rewrite (nth_indep _ d (F 0%nat)) by now rewrite length_map, length_seq.
  rewrite (map_nth F). now rewrite seq_nth.
Qed.

Lemma nth_map_real (g : R -> R) (v : vec) (f : nat) :
  (f < length v)%nat -> nth f (map g v) 0 = g (nth f v 0).
Proof.
  intros H. rewrite (nth_indep _ 0 (g 0)) by now rewrite length_map.
  apply (map_nth g).
Qed.

Lemma selector_returns (S : vec) (k : nat) :
  (1 <= k <= length S)%nat ->
  exists vis, graph_structure_selector S k = Returns vis.
Proof.
  intros H. destruct (top_k_cutoff S k H) as (t & E & _).
  unfold graph_structure_selector. rewrite E. cbn [bind]. eauto.
Qed.

(** ** Embeddings *)

(** C3, the multi-value field at a concrete batch.  With two samples and
    embedding size 2, line 194 of the movielens variant divides column [c]
    of every sample's summed genre embedding by the value sum of SAMPLE [c]:
    the genre vector of sample 0 comes out as [1; 1/2], where the weighted
    mean of the specification is [1; 1].  With embedding size 3 the same
    batch is refused as a shape error. *)
Lemma movielens_genre_division_wrong_axis :
  (exists e,
     movielens_embeddings genre_cfg genre_weights genre_feat_index
       genre_feat_value genre_index genre_value = Returns e /\
     nth 1 (nth 0 e []) [] = [1; 1 / 2]) /\
  genre_vector_spec (feature_embeddings genre_weights)
    (nth 0 genre_index []) (nth 0 genre_value []) = [1; 1] /\
  movielens_embeddings genre_cfg3 genre_weights3 genre_feat_index
    genre_feat_value genre_index genre_value = Raises InvalidArgumentError.
Proof.
  split; [|split].
  - eexists. split; [reflexivity|].
    cbn. repeat f_equal; field.
  - cbv [genre_vector_spec genre_weights genre_index genre_value
         feature_embeddings nth zip_with map reduce_sum_rows width hd
         length seq column sum fold_right].
    repeat f_equal; field.
  - reflexivity.
Qed.

(** ** Shapes along the block stack *)

Lemma mapM_inv {A B : Type} (f : A -> outcome B) (l : list A) (bs : list B) :
  mapM f l = Returns bs -> Forall2 (fun a b => f a = Returns b) l bs.
Proof.
  revert bs. induction l as [|a l IH]; intros bs; simpl.
  - intros [= <-]. constructor.
  - destruct (f a) as [b| |] eqn:E; simpl; try discriminate.
    destruct (mapM f l) as [bs'| |]; simpl; try discriminate.
    intros [= <-]. constructor; auto.
Qed.

Lemma mapM_returns {A B : Type} (f : A -> outcome B) (l : list A) :
  (forall a, In a l -> exists b, f a = Returns b) ->
  exists bs, mapM f l = Returns bs.
Proof.
  induction l as [|a l IH]; intros H; simpl; [eauto|].
  destruct (H a) as (b & ->); [now left|].
  destruct IH as (bs & ->); [intros a' Ha'; apply H; now right|].
  simpl. eauto.
Qed.

Lemma mapM_ext_in {A B : Type} (f g : A -> outcome B) (l : list A) :
  (forall a, In a l -> f a = g a) -> mapM f l = mapM g l.
Proof.
  induction l as [|a l IH]; intros H; simpl; [reflexivity|].
  rewrite (H a) by now left.
  rewrite IH; [reflexivity|]. intros a' Ha'. apply H. now right.
Qed.

Lemma mapM_pure {A B : Type} (g : A -> B) (l : list A) :
  mapM (fun a => Returns (g a)) l = Returns (map g l).
Proof.
  induction l as [|a l IH]; simpl; [reflexivity|]. now rewrite IH.
Qed.

Lemma Forall2_length_eq {A B : Type} (P : A -> B -> Prop) (l : list A)
    (l' : list B) :
  Forall2 P l l' -> length l = length l'.
Proof. induction 1; simpl; auto. Qed.

Lemma zip_with_map_seq {A B C : Type} (f : A -> B -> C) (g : nat -> A)
    (h : nat -> B) (s n : nat) :
  zip_with f (map g (seq s n)) (map h (seq s n)) =
  map (fun p => f (g p) (h p)) (seq s n).
Proof.
  revert s. induction n as [|n IH]; intros s; simpl; [reflexivity|].
  now rewrite IH.
Qed.

Lemma concat_length_const {A : Type} (w : nat) (ls : list (list A)) :
  Forall (fun l => length l = w) ls -> length (concat ls) = (length ls * w)%nat.
Proof.
  induction 1 as [|l ls Hl Hls IH]; simpl; [reflexivity|].
  rewrite length_app, Hl, IH. reflexivity.
Qed.

Lemma reduce_sum_rows_length (m : mat) : length (reduce_sum_rows m) = width m.
Proof. unfold reduce_sum_rows. now rewrite length_map, length_seq. Qed.

Lemma reduce_mean_rows_length (m : mat) : length (reduce_mean_rows m) = width m.
Proof. unfold reduce_mean_rows. now rewrite length_map, length_seq. Qed.

Lemma normalize_length (gamma beta : nat -> R) (eps : R) (inputs : vec) :
  length (normalize gamma beta eps inputs) = length inputs.
Proof.
  unfold normalize, normalized. rewrite imap_length.
  destruct (moments inputs). apply length_map.
Qed.

(** The weighted values of one head: the weights form a column. *)
Lemma width_bmul_column (wv : vec) (Hp : mat) (r1 : vec) (rest : mat) :
  length wv = length Hp -> Hp = r1 :: rest ->
  width (bmul (expand_dims wv) Hp) = length r1.
Proof.
  intros L ->. destruct wv as [|x [|x' wv]]; simpl in L; try discriminate.
  - destruct rest; [|discriminate]. unfold width. simpl. apply length_map.
  - destruct rest as [|r2 rest]; [discriminate|].
    unfold width. simpl. apply length_map.
Qed.

Lemma tf_split_inv (t : mat) (size num : nat) (pieces : list mat) :
  tf_split t size num = Returns pieces ->
  (0 < num)%nat /\ (size = num * (size / num))%nat /\
  pieces = map (fun p => map (fun row =>
                   slice row (p * (size / num)) ((p + 1) * (size / num))) t)
               (seq 0 num).
Proof.
  unfold tf_split.
  destruct (Nat.eqb_spec num 0) as [E|E]; simpl; [discriminate|].
  destruct (Nat.eqb_spec (size mod num) 0) as [M|M]; simpl; [|discriminate].
  intros [= <-]. repeat split; [lia|].
  pose proof (Nat.div_mod_eq size num). lia.
Qed.

Lemma attention_weights_columns (vis : vec) (A : mat) (num_heads : nat) :
  length vis = length A ->
  attention_weights vis
    (map (fun p => expand_dims (column A p)) (seq 0 num_heads)) =
  map (fun p =>
         expand_dims
           (map (fun x => exp x /
                          sum (map exp (zip_with Rmult vis (column A p))))
                (zip_with Rmult vis (column A p))))
      (seq 0 num_heads).
Proof.
  intros L. unfold attention_weights, masked_logits. rewrite !map_map.
  apply map_ext. intros p.
  rewrite bmul_expand_dims by (unfold column; now rewrite length_map).
  apply softmax_rows_expand_dims.
Qed.

Lemma gat_attention_shape (W : block_weights) (batch : nat) (queries : vec)
    (values : mat) (num_units num_heads k field : nat) (has_residual : bool)
    (r : vec * vec) :
  gat_attention W batch queries values num_units num_heads k field
    has_residual = Returns r ->
  values <> [] ->
  length (fst r) = num_units /\ length (snd r) = length values.
Proof.
  unfold gat_attention.
  set (A := map (dense (att_kernel W) (Some (att_bias W)) relu num_heads) values).
  set (H := map (dense (w_kernel W field) None linear num_units) values).
  destruct (tf_split A num_heads num_heads) as [A_| |] eqn:EA; simpl;
    try discriminate.
  destruct (tf_split H num_units num_heads) as [H_| |] eqn:EH; simpl;
    try discriminate.
  destruct (graph_structure_selector (gsl_scores W values) k) as [vis| |]
    eqn:ES; simpl; try discriminate.
  destruct (squeeze_keeps_batch_and_fields batch (length values)); simpl;
    try discriminate.
  intros [= <-] Hne. cbn [fst snd].
  assert (Lvis : length vis = length values).
  { rewrite (selector_length _ _ _ ES). apply gsl_scores_length. }
  split; [|exact Lvis].
  destruct (tf_split_inv _ _ _ _ EA) as (Hh & _ & _).
  destruct (tf_split_inv _ _ _ _ EH) as (_ & Hdiv & ->).
  rewrite tf_split_heads in EA; [|exact Hh|].
  2:{ apply Forall_forall. intros row Hrow. apply in_map_iff in Hrow.
      destruct Hrow as (x & <- & _). apply dense_length. }
  injection EA as <-.
  rewrite attention_weights_columns by (unfold A; now rewrite length_map).
  rewrite zip_with_map_seq, map_map.
  set (w := (num_units / num_heads)%nat) in *.
  assert (Lc : length (concat
                 (map (fun p =>
                    reduce_sum_rows
                      (bmul
                         (expand_dims
                            (map (fun x => exp x /
                               sum (map exp (zip_with Rmult vis (column A p))))
                               (zip_with Rmult vis (column A p))))
                         (map (fun row => slice row (p * w) ((p + 1) * w)) H)))
                    (seq 0 num_heads))) = num_units).
  { rewrite (concat_length_const w).
    - rewrite length_map, length_seq. lia.
    - apply Forall_forall. intros l Hl. apply in_map_iff in Hl.
      destruct Hl as (p & <- & Hp). apply in_seq in Hp.
      rewrite reduce_sum_rows_length.
      destruct values as [|v1 vs]; [easy|].
      unfold H. cbn [map].
      erewrite width_bmul_column; [| |reflexivity].
      + rewrite slice_length, dense_length. nia.
      + rewrite length_map, zip_with_length, Lvis. unfold column, A.
        simpl. rewrite !length_map. lia. }
  rewrite normalize_length, length_map.
  destruct has_residual; [|exact Lc].
  rewrite zip_with_length, Lc, dense_length. apply Nat.min_id.
Qed.

Lemma gat_attention_returns (W : block_weights) (batch : nat) (queries : vec)
    (values : mat) (num_units num_heads k field : nat) (has_residual : bool) :
  (0 < num_heads)%nat -> (num_units mod num_heads = 0)%nat ->
  (k <= length values)%nat ->
  batch <> 1%nat -> length values <> 1%nat ->
  exists r,
    gat_attention W batch queries values num_units num_heads k field
      has_residual = Returns r.
Proof.
  intros Hh Hdiv Hk Hb Hf. unfold gat_attention.
  assert (S1 : forall t size, (size mod num_heads = 0)%nat ->
                 exists pieces, tf_split t size num_heads = Returns pieces).
  { intros t size Hm. unfold tf_split.
    destruct (Nat.eqb_spec num_heads 0) as [E|_]; [lia|].
    rewrite Hm. simpl. eauto. }
  destruct (S1 (map (dense (att_kernel W) (Some (att_bias W)) relu num_heads)
                    values) num_heads) as (A_ & ->);
    [apply Nat.Div0.mod_same|].
  destruct (S1 (map (dense (w_kernel W field) None linear num_units) values)
               num_units Hdiv) as (H_ & ->).
  cbn [bind].
  assert (E : exists vis,
            graph_structure_selector (gsl_scores W values) k = Returns vis).
  { unfold graph_structure_selector, top_k. rewrite gsl_scores_length.
    destruct (Nat.leb_spec k (length values)); [|lia]. cbn [bind]. eauto. }
  destruct E as (vis & ->). cbn [bind].
  unfold squeeze_keeps_batch_and_fields.
  destruct (Nat.eqb_spec batch 1) as [E|_]; [easy|].
  destruct (Nat.eqb_spec (length values) 1) as [E|_]; [easy|].
  simpl. eauto.
Qed.

(** ** Masking by multiplication: the state [gat_attention] returns *)

Lemma sigmoid_increasing (x y : R) : x < y -> sigmoid x < sigmoid y.
Proof.
  intros H. unfold sigmoid.
  pose proof (exp_pos (- x)) as Hx. pose proof (exp_pos (- y)) as Hy.
  assert (E : exp (- y) < exp (- x)) by (apply exp_increasing; lra).
  unfold Rdiv. rewrite !Rmult_1_l. apply Rinv_lt_contravar; [nra|lra].
Qed.

(** The scores of [mask_block] on [two_fields], and the selector's row for
    [k = 1]: the first field, of the smaller score, is masked. *)
Lemma mask_block_scores :
  gsl_scores mask_block two_fields = [sigmoid 1; sigmoid 3].
Proof.
  unfold gsl_scores, tf_squeeze, two_fields, dense, dot, imap.
  cbn [map seq length zip_with mask_block gsl_1_kernel gsl_1_bias
       gsl_2_kernel gsl_2_bias nth Nat.add Nat.eqb sum fold_right].
  assert (E1 : relu (1 * 1 + (2 * 0 + 0) + 0) = 1)
    by (unfold relu; rewrite Rmax_left; lra).
  assert (E3 : relu (3 * 1 + (4 * 0 + 0) + 0) = 3)
    by (unfold relu; rewrite Rmax_left; lra).
  rewrite E1, E3. f_equal; [f_equal; ring|]. f_equal. f_equal. ring.
Qed.

Lemma mask_block_selector :
  graph_structure_selector (gsl_scores mask_block two_fields) 1 =
  Returns [0; sigmoid 3].
Proof.
  rewrite mask_block_scores.
  pose proof (sigmoid_increasing 1 3 ltac:(lra)) as Hlt.
  assert (G : Rgeb (sigmoid 1) (sigmoid 3) = false) by now apply Rgeb_false.
  assert (G' : Rgeb (sigmoid 3) (sigmoid 3) = true) by (apply Rgeb_true; lra).
  unfold graph_structure_selector, top_k.
  cbn [length Nat.leb sort_desc fold_right insert_desc].
  rewrite G. cbn [insert_desc firstn bind reduce_min].
  rewrite masked_row. cbn [map]. now rewrite G, G'.
Qed.

(** C2. The mask multiplies the logits.  In every call of [gat_attention]
    that returns, the new state is computed from the softmax of the masked
    logits [S * A_], [S] being the selector's row the call returns as [vis];
    a field that row zeroes enters the softmax of every head with logit
    exactly 0 (not minus infinity), and its attention weight is [exp 0] over
    the softmax normalizer of that head, which is strictly positive. *)
Theorem masked_fields_keep_weight (W : block_weights) (batch : nat)
    (queries : vec) (values : mat) (num_units num_heads k field : nat)
    (has_residual : bool) (r : vec * vec) :
  gat_attention W batch queries values num_units num_heads k field
    has_residual = Returns r ->
  let A := map (dense (att_kernel W) (Some (att_bias W)) relu num_heads)
               values in
  let H := map (dense (w_kernel W field) None linear num_units) values in
  let Q_res := dense (res_kernel W field) (Some (res_bias W field)) relu
                 num_units queries in
  let vis := snd r in
  exists A_ H_ : list mat,
    tf_split A num_heads num_heads = Returns A_ /\
    tf_split H num_units num_heads = Returns H_ /\
    graph_structure_selector (gsl_scores W values) k = Returns vis /\
    fst r =
      normalize (ln_gamma W field) (ln_beta W field) epsilon
        (map relu
           (let outputs :=
              concat (map reduce_sum_rows
                          (zip_with bmul (attention_weights vis A_) H_)) in
            if has_residual then zip_with Rplus outputs Q_res
            else outputs)) /\
    attention_weights vis A_ = map softmax_rows (masked_logits vis A_) /\
    forall hd f : nat,
      (hd < num_heads)%nat -> (f < length values)%nat -> nth f vis 0 = 0 ->
      let Z := sum (map exp (zip_with Rmult vis (column A hd))) in
      nth f (nth hd (masked_logits vis A_) []) [] = [0] /\
      nth f (nth hd (attention_weights vis A_) []) [] = [exp 0 / Z] /\
      0 < exp 0 / Z.
Proof.
  intros Hr A H Q_res vis.
  destruct (gat_attention_inv _ _ _ _ _ _ _ _ _ _ Hr)
    as (A_ & H_ & EA & EH & Hsel & _ & Efst).
  fold A in EA. fold H in EH. fold vis in Hsel, Efst. fold Q_res in Efst.
  exists A_, H_.
  split; [exact EA|]. split; [exact EH|]. split; [exact Hsel|].
  split; [exact Efst|]. split; [reflexivity|].
  destruct (tf_split_inv _ _ _ _ EA) as (Hh & _ & _).
  assert (HA : Forall (fun row => length row = num_heads) A).
  { apply Forall_forall. intros row Hrow. apply in_map_iff in Hrow.
    destruct Hrow as (x & <- & _). apply dense_length. }
  rewrite (tf_split_heads A num_heads Hh HA) in EA. injection EA as <-.
  assert (Lvis : length vis = length values).
  { rewrite (selector_length _ _ _ Hsel). apply gsl_scores_length. }
  assert (LA : forall hd, length (column A hd) = length values).
  { intros hd. unfold column, A. now rewrite !length_map. }
  intros hd f Hhd Hf Hzero Z.
  set (L := zip_with Rmult vis (column A hd)).
  assert (LL : length L = length values).
  { unfold L. rewrite zip_with_length, Lvis, LA. apply Nat.min_id. }
  assert (E0 : nth f L 0 = 0).
  { unfold L. rewrite nth_zip_with_mult by (rewrite ?Lvis, ?LA; lia).
    rewrite Hzero. ring. }
  assert (HZ : 0 < Z).
  { apply sum_exp_pos. intros E. fold L in E. rewrite E in LL.
    simpl in LL. lia. }
  unfold attention_weights, masked_logits. rewrite !map_map.
  rewrite !(nth_map_seq _ num_heads hd) by exact Hhd.
  rewrite bmul_expand_dims by (rewrite Lvis, LA; reflexivity).
  fold L. repeat split.
  - rewrite nth_expand_dims by lia. now rewrite E0.
  - rewrite softmax_rows_expand_dims.
    rewrite nth_expand_dims by (rewrite length_map; lia).
    rewrite nth_map_real by lia. now rewrite E0.
  - apply Rdiv_lt_0_compat; [apply exp_pos|exact HZ].
Qed.

Lemma masked_fields_keep_weight_witness :
  exists (r : vec * vec) (A_ : list mat),
    gat_attention mask_block 2 [1; 2] two_fields 2 1 1 0 true = Returns r /\
    nth 0 (snd r) 0 = 0 /\
    nth 0 (nth 0 (masked_logits (snd r) A_) []) [] = [0] /\
    0 < exp 0 /
        sum (map exp
               (zip_with Rmult (snd r)
                  (column (map (dense (att_kernel mask_block)
                                      (Some (att_bias mask_block)) relu 1)
                               two_fields) 0))).
Proof.
  destruct (gat_attention_returns mask_block 2 [1; 2] two_fields 2 1 1 0 true)
    as (r & Hr); [lia|reflexivity|simpl; lia|discriminate|discriminate|].
  destruct (masked_fields_keep_weight mask_block 2 [1; 2] two_fields 2 1 1 0
              true r Hr) as (A_ & H_ & _ & _ & Hsel & _ & _ & Hm).
  assert (Hvis : nth 0 (snd r) 0 = 0).
  { rewrite mask_block_selector in Hsel. injection Hsel as <-. reflexivity. }
  destruct (Hm 0%nat 0%nat ltac:(lia) ltac:(simpl; lia) Hvis)
    as (Hlogit & _ & Hpos).
  exists r, A_. split; [exact Hr|]. split; [exact Hvis|].
  split; [exact Hlogit|exact Hpos].
Defined.

Lemma field_step_shape (cfg : config) (W : weights) (batch i : nat) (h : mat)
    (j : nat) (r : vec * vec) :
  field_step cfg W batch i h j = Returns r ->
  exists u, nth_error (block_shape cfg) i = Some u /\
            length (fst r) = u /\ length (snd r) = length h.
Proof.
  unfold field_step, tf_row, py_index.
  destruct (nth_error h j) as [state|] eqn:Ej; simpl; [|discriminate].
  destruct (nth_error (block_shape cfg) i) as [u|]; simpl; [|discriminate].
  destruct (nth_error (ks cfg) i) as [k|]; simpl; [|discriminate].
  intros Hr. exists u. split; [reflexivity|].
  assert (Hne : h <> []) by (intros ->; destruct j; discriminate).
  apply gat_attention_shape in Hr.
  - destruct Hr as [H1 H2]. split; [exact H1|].
    rewrite H2. unfold bmul. apply length_map.
  - unfold bmul. destruct h; [easy|discriminate].
Qed.

Lemma field_step_returns (cfg : config) (W : weights) (batch i : nat)
    (h : mat) (j u k : nat) :
  (j < length h)%nat ->
  nth_error (block_shape cfg) i = Some u ->
  nth_error (ks cfg) i = Some k ->
  (0 < heads cfg)%nat -> (u mod heads cfg = 0)%nat -> (k <= length h)%nat ->
  batch <> 1%nat -> length h <> 1%nat ->
  exists r, field_step cfg W batch i h j = Returns r.
Proof.
  intros Hj Hu Hk Hh Hdiv Hkl Hb Hf. unfold field_step, tf_row, py_index.
  destruct (nth_error h j) as [state|] eqn:Ej.
  - cbn [bind]. rewrite Hu, Hk. cbn [bind].
    apply gat_attention_returns; auto;
      unfold bmul; now rewrite length_map.
  - apply nth_error_None in Ej. lia.
Qed.

Lemma zip_with_app_shape (F u u' : nat) (h h' : mat) :
  has_shape F u h -> has_shape F u' h' ->
  has_shape F (u + u') (zip_with (@app R) h h').
Proof.
  intros [L H] [L' H']. split.
  - rewrite zip_with_length. unfold mat, vec in *. lia.
  - clear L L'. revert h' H'.
    induction H as [|r h Hr Hh IH]; intros h' H'; [constructor|].
    destruct H' as [|r' h' Hr' Hh']; [constructor|]. simpl.
    constructor; [rewrite length_app; lia|now apply IH].
Qed.

Lemma fold_zip_app_shape (F : nat) (us : list nat) (hs : list mat) :
  Forall2 (has_shape F) us hs ->
  forall u0 h0, has_shape F u0 h0 ->
  has_shape F (u0 + list_sum us) (fold_left (zip_with (@app R)) hs h0).
Proof.
  induction 1 as [|u h us hs Hu Hus IH]; intros u0 h0 H0; simpl.
  - now rewrite Nat.add_0_r.
  - rewrite Nat.add_assoc. apply IH. now apply zip_with_app_shape.
Qed.

Lemma has_shape_width (F u : nat) (h : mat) :
  (0 < F)%nat -> has_shape F u h -> width h = u.
Proof.
  intros HF [L H]. destruct H as [|r h Hr _]; [simpl in L; lia|exact Hr].
Qed.

Lemma Forall2_seq_nth_error {A : Type} (l us : list A) (n s : nat) :
  Forall2 (fun i u => nth_error l i = Some u) (seq s n) us ->
  us = firstn n (skipn s l).
Proof.
  revert s us. induction n as [|n IH]; intros s us H; simpl in H.
  - inversion H. reflexivity.
  - inversion H as [|i u idx us' Hi Hrest]; subst.
    apply IH in Hrest. subst us'.
    clear H IH. revert s Hi. induction l as [|x l IHl]; intros s Hi.
    + destruct s; discriminate.
    + destruct s as [|s]; simpl in *.
      * now injection Hi as ->.
      * now apply IHl.
Qed.

Lemma field_loop_shape (cfg : config) (W : weights) (batch i : nat) (h : mat)
    (sv : list (vec * vec)) :
  mapM (field_step cfg W batch i h) (seq 0 (field_size cfg)) = Returns sv ->
  sv <> [] ->
  exists u, nth_error (block_shape cfg) i = Some u /\
            has_shape (field_size cfg) u (map fst sv).
Proof.
  intros HM Hne. apply mapM_inv in HM.
  pose proof (Forall2_length_eq _ _ _ HM) as HL. rewrite length_seq in HL.
  destruct sv as [|r0 sv]; [easy|].
  assert (H0 : exists u, nth_error (block_shape cfg) i = Some u).
  { inversion HM as [|j r js rs Hj _]; subst.
    apply field_step_shape in Hj. destruct Hj as (u & Hu & _). eauto. }
  destruct H0 as (u & Hu). exists u. split; [exact Hu|]. split.
  - now rewrite length_map.
  - apply Forall_forall. intros row Hrow. apply in_map_iff in Hrow.
    destruct Hrow as (r & <- & Hr).
    assert (Hall : Forall (fun r => length (fst r) = u) (r0 :: sv)).
    { clear Hr HL Hne. revert HM. generalize (seq 0 (field_size cfg)).
      generalize (r0 :: sv). intros rs js HM.
      induction HM as [|j r' js rs Hj _ IH]; constructor; [|exact IH].
      apply field_step_shape in Hj. destruct Hj as (u' & Hu' & Hlen & _).
      rewrite Hu in Hu'. injection Hu' as <-. exact Hlen. }
    rewrite Forall_forall in Hall. now apply Hall.
Qed.

Lemma block_loop_shape (cfg : config) (W : weights) (batch : nat)
    (layers : list nat) :
  forall (h : mat) (hl vl hl' vl' : list mat),
    block_loop cfg W batch layers h hl vl = Returns (hl', vl') ->
    exists (us : list nat) (hs : list mat),
      hl' = hl ++ hs /\
      Forall2 (fun i u => nth_error (block_shape cfg) i = Some u) layers us /\
      Forall2 (has_shape (field_size cfg)) us hs /\
      (layers <> [] -> (0 < field_size cfg)%nat).
Proof.
  induction layers as [|i layers IH]; intros h hl vl hl' vl' H; simpl in H.
  - injection H as <- <-. exists [], []. rewrite app_nil_r.
    repeat split; try constructor. easy.
  - destruct (mapM (field_step cfg W batch i h) (seq 0 (field_size cfg)))
      as [sv| |] eqn:EM; simpl in H; try discriminate.
    destruct sv as [|r0 sv]; [discriminate|].
    cbn [map tf_concat_rows bind] in H.
    destruct (field_loop_shape cfg W batch i h (r0 :: sv) EM)
      as (u & Hu & Hshape);
      [easy|].
    apply IH in H. destruct H as (us & hs & -> & HF & HS & _).
    exists (u :: us), (map fst (r0 :: sv) :: hs).
    rewrite <- app_assoc. repeat split; try (constructor; assumption).
    intros _. destruct Hshape as [L _]. rewrite length_map in L.
    simpl in L. lia.
Qed.

Lemma run_flat_width (cfg : config) (W : weights) (batch : nat) (e : mat)
    (r : list mat * vec) :
  run_flat cfg W batch e = Returns r ->
  length (snd r) = list_sum (firstn (blocks cfg) (block_shape cfg)).
Proof.
  unfold run_flat.
  destruct (block_loop cfg W batch (seq 0 (blocks cfg)) e [] [])
    as [[hl vl]| |]
    eqn:EB; simpl; try discriminate.
  destruct hl as [|h0 rest]; simpl; [discriminate|].
  intros [= <-]. cbn [snd]. rewrite reduce_mean_rows_length.
  apply block_loop_shape in EB.
  destruct EB as (us & hs & E & HF & HS & Hpos). simpl in E. subst hs.
  apply Forall2_seq_nth_error in HF. simpl in HF. rewrite <- HF.
  inversion HS as [|u0 h0' us' rest' H0 Hrest]; subst.
  apply (has_shape_width (field_size cfg)).
  - apply Hpos. destruct (blocks cfg); [discriminate|easy].
  - simpl. now apply fold_zip_app_shape.
Qed.

(** ** The graph returns on well-formed input *)

Lemma bmul_length (a b : mat) :
  length a = length b -> length (bmul a b) = length a.
Proof.
  intros L. unfold bmul.
  destruct a as [|r [|r' a]]; destruct b as [|s [|s' b]];
    simpl in *; try discriminate; try reflexivity.
  rewrite zip_with_length. lia.
Qed.

Lemma embeddings_returns (cfg : config) (W : weights) (feat_index : list nat)
    (feat_value : vec) :
  well_formed_sample cfg W feat_index feat_value ->
  exists e, embeddings cfg W feat_index feat_value = Returns e /\
            length e = field_size cfg.
Proof.
  intros (Li & Lv & Hin). unfold embeddings, embedding_lookup.
  destruct (mapM_returns
              (fun i => match nth_error (feature_embeddings W) i with
                        | Some row => Returns row
                        | None => Raises InvalidArgumentError
                        end) feat_index) as (rows & Erows).
  { intros i Hi. rewrite Forall_forall in Hin. specialize (Hin i Hi).
    destruct (nth_error (feature_embeddings W) i) eqn:E; [eauto|].
    apply nth_error_None in E. lia. }
  rewrite Erows. cbn [bind].
  pose proof (Forall2_length_eq _ _ _ (mapM_inv _ _ _ Erows)) as Lr.
  unfold tf_reshape_col. rewrite Lv, Nat.eqb_refl. cbn [bind].
  assert (Lc : length rows = length (expand_dims feat_value)).
  { unfold expand_dims. rewrite length_map. lia. }
  unfold tf_multiply. rewrite Lc, Nat.eqb_refl. simpl.
  eexists. split; [reflexivity|]. rewrite bmul_length by exact Lc. lia.
Qed.

Lemma block_loop_returns (cfg : config) (W : weights) (batch : nat)
    (layers : list nat) :
  valid_config cfg -> batch <> 1%nat -> field_size cfg <> 1%nat ->
  Forall (fun i => (i < blocks cfg)%nat) layers ->
  forall (h : mat) (hl vl : list mat),
    length h = field_size cfg ->
    exists r, block_loop cfg W batch layers h hl vl = Returns r.
Proof.
  intros (HF & HB & HH & Lb & Lk & Hdiv & Hks) Hbatch Hfields Hlayers.
  induction Hlayers as [|i layers Hi _ IH]; intros h hl vl Lh; simpl;
    [eauto|].
  destruct (nth_error (block_shape cfg) i) as [u|] eqn:Eu.
  2:{ apply nth_error_None in Eu. lia. }
  destruct (nth_error (ks cfg) i) as [k|] eqn:Ek.
  2:{ apply nth_error_None in Ek. lia. }
  assert (Hu : (u mod heads cfg = 0)%nat).
  { rewrite Forall_forall in Hdiv. apply Hdiv. eapply nth_error_In; eauto. }
  assert (Hk : (k <= field_size cfg)%nat).
  { rewrite Forall_forall in Hks. apply Hks. eapply nth_error_In; eauto. }
  destruct (mapM_returns (field_step cfg W batch i h) (seq 0 (field_size cfg)))
    as (sv & Esv).
  { intros j Hj. apply in_seq in Hj.
    apply (field_step_returns cfg W batch i h j u k); auto; lia. }
  rewrite Esv. cbn [bind].
  pose proof (Forall2_length_eq _ _ _ (mapM_inv _ _ _ Esv)) as Ls.
  rewrite length_seq in Ls.
  destruct sv as [|r0 sv]; [simpl in Ls; lia|].
  cbn [map tf_concat_rows bind]. apply IH.
  change (length (map fst (r0 :: sv)) = field_size cfg).
  now rewrite length_map.
Qed.

Lemma run_flat_returns (cfg : config) (W : weights) (batch : nat) (e : mat) :
  valid_config cfg -> batch <> 1%nat -> field_size cfg <> 1%nat ->
  length e = field_size cfg ->
  exists r, run_flat cfg W batch e = Returns r /\
            length (snd r) = list_sum (block_shape cfg).
Proof.
  intros Hcfg Hbatch Hfields Le. unfold run_flat.
  destruct (block_loop_returns cfg W batch (seq 0 (blocks cfg)) Hcfg Hbatch
              Hfields) with
    (h := e) (hl := @nil mat) (vl := @nil mat) as ([hl vl] & EB); auto.
  { apply Forall_forall. intros i Hi. apply in_seq in Hi. lia. }
  assert (Hrun : exists r, run_flat cfg W batch e = Returns r).
  { unfold run_flat. rewrite EB. cbn [bind].
    apply block_loop_shape in EB.
    destruct EB as (us & hs & E & HF2 & HS & _). simpl in E. subst hs.
    destruct hl as [|h0 rest].
    - apply Forall2_length_eq in HF2, HS. rewrite length_seq in HF2.
      destruct Hcfg as (_ & HB & _). simpl in HS. lia.
    - simpl. eauto. }
  destruct Hrun as (r & Hr). unfold run_flat in Hr. rewrite Hr.
  exists r. split; [reflexivity|].
  fold (run_flat cfg W batch e) in Hr. rewrite (run_flat_width _ _ _ _ _ Hr).
  destruct Hcfg as (_ & _ & _ & Lb & _). rewrite <- Lb.
  now rewrite firstn_all.
Qed.

Lemma run_graph_returns (cfg : config) (W : weights) (batch : nat)
    (feat_index : list nat) (feat_value : vec) :
  valid_config cfg -> batch <> 1%nat -> field_size cfg <> 1%nat ->
  length (prediction W) = input_size cfg ->
  well_formed_sample cfg W feat_index feat_value ->
  exists r, run_graph cfg W batch feat_index feat_value = Returns r.
Proof.
  intros Hcfg Hbatch Hfields Lp Hs. unfold run_graph, run_logit.
  destruct (embeddings_returns cfg W feat_index feat_value Hs) as (e & -> & Le).
  cbn [bind].
  destruct (run_flat_returns cfg W batch e Hcfg Hbatch Hfields Le)
    as ([vl fl] & -> & Lf).
  cbn [bind snd] in *. unfold tf_matmul_col.
  rewrite Lf, Lp. unfold input_size. rewrite Nat.eqb_refl. cbn [bind]. eauto.
Qed.

(** ** The pooled vector and the prediction head *)

Lemma run_graph_inv (cfg : config) (W : weights) (batch : nat)
    (feat_index : list nat) (feat_value : vec) (r : graph_run) :
  run_graph cfg W batch feat_index feat_value = Returns r ->
  exists vl o,
    run_logit cfg W batch feat_index feat_value = Returns (vl, flat r, o) /\
    out r = match loss_type cfg with logloss => sigmoid o | mse => o end.
Proof.
  unfold run_graph.
  destruct (run_logit cfg W batch feat_index feat_value) as [[[vl fl] o]| |];
    simpl; try discriminate.
  intros [= <-]. simpl. eauto.
Qed.

Lemma run_logit_flat (cfg : config) (W : weights) (batch : nat)
    (feat_index : list nat) (feat_value : vec) (vl : list mat) (fl : vec)
    (o : R) :
  run_logit cfg W batch feat_index feat_value = Returns (vl, fl, o) ->
  exists e, run_flat cfg W batch e = Returns (vl, fl).
Proof.
  unfold run_logit.
  destruct (embeddings cfg W feat_index feat_value) as [e| |]; simpl;
    try discriminate.
  destruct (run_flat cfg W batch e) as [[vl' fl']| |] eqn:Ef; simpl;
    try discriminate.
  destruct (tf_matmul_col fl' (prediction W)) as [o'| |]; simpl;
    try discriminate.
  intros [= <- <- _]. eauto.
Qed.

(** C8. With [len(block_shape) == blocks], the vector fed to the prediction
    head (the layers' outputs concatenated, then mean-pooled over the fields)
    has width [sum(block_shape)], the number of rows [_initialize_weights]
    gives the ["prediction"] matrix; this holds for every run of the graph
    that reaches the pooled vector. *)
Theorem flat_width_is_input_size (cfg : config) (W : weights) :
  length (block_shape cfg) = blocks cfg ->
  (forall feature_size rnd_embedding rnd_blocks rnd_prediction rnd_bias
          rnd_dense,
     length (prediction (_initialize_weights cfg feature_size rnd_embedding
                           rnd_blocks rnd_prediction rnd_bias rnd_dense)) =
     list_sum (block_shape cfg)) /\
  (forall batch e r, run_flat cfg W batch e = Returns r ->
                     length (snd r) = list_sum (block_shape cfg)) /\
  (forall batch feat_index feat_value r,
     run_graph cfg W batch feat_index feat_value = Returns r ->
     length (flat r) = list_sum (block_shape cfg)).
Proof.
  intros Lb.
  assert (Hflat : forall batch e r, run_flat cfg W batch e = Returns r ->
                    length (snd r) = list_sum (block_shape cfg)).
  { intros batch e r Hr. rewrite (run_flat_width _ _ _ _ _ Hr), <- Lb.
    now rewrite firstn_all. }
  split; [|split].
  - intros. unfold _initialize_weights. cbn [prediction].
    now rewrite length_map, length_seq.
  - exact Hflat.
  - intros batch fi fv r Hr. apply run_graph_inv in Hr.
    destruct Hr as (vl & o & Hl & _). apply run_logit_flat in Hl.
    destruct Hl as (e & He). apply (Hflat batch e _ He).
Qed.

Lemma genre_cfg_valid : valid_config genre_cfg.
Proof.
  unfold valid_config, genre_cfg. simpl.
  repeat split; try lia; repeat constructor.
Qed.

Lemma genre_sample_well_formed :
  well_formed_sample genre_cfg genre_weights [0; 0]%nat [1; 1].
Proof.
  unfold well_formed_sample. simpl. repeat split; repeat constructor.
Qed.

Lemma flat_width_is_input_size_witness :
  exists r,
    run_graph genre_cfg genre_weights 4 [0; 0]%nat [1; 1] = Returns r /\
    length (flat r) = list_sum (block_shape genre_cfg).
Proof.
  destruct (run_graph_returns genre_cfg genre_weights 4 [0; 0]%nat [1; 1])
    as (r & Hr).
  - exact genre_cfg_valid.
  - discriminate.
  - discriminate.
  - reflexivity.
  - exact genre_sample_well_formed.
  - exists r. split; [exact Hr|].
    apply (proj2 (proj2 (flat_width_is_input_size genre_cfg genre_weights
                           eq_refl)) _ _ _ _ Hr).
Defined.

(** ** [predict] on the model graph *)

Lemma Forall2_slice {A B : Type} (P : A -> B -> Prop) (l : list A)
    (l' : list B) (a b : nat) :
  Forall2 P l l' -> Forall2 P (slice l a b) (slice l' a b).
Proof.
  intros H. unfold slice. generalize (b - a)%nat as n. revert a.
  induction H as [|x y l l' Hxy Hl IH]; intros a n.
  - rewrite !skipn_nil, !firstn_nil. constructor.
  - destruct a as [|a]; [|apply IH]. simpl.
    destruct n as [|n]; [constructor|]. simpl. constructor; [exact Hxy|].
    specialize (IH 0%nat n). exact IH.
Qed.

Lemma zip_with_Forall {A B : Type} (f : A -> B -> R) (P : A -> B -> Prop)
    (Q : R -> Prop) (l : list A) (l' : list B) :
  (forall a b, P a b -> Q (f a b)) ->
  Forall2 P l l' -> Forall Q (zip_with f l l').
Proof.
  intros HPQ. induction 1; simpl; constructor; auto.
Qed.

(** *** The value of a sample does not depend on the size of its batch,
    as long as the batch has two samples or more *)

Lemma field_step_batch (cfg : config) (W : weights) (b b' i : nat) (h : mat)
    (j : nat) :
  b <> 1%nat -> b' <> 1%nat ->
  field_step cfg W b i h j = field_step cfg W b' i h j.
Proof.
  intros Hb Hb'. unfold field_step, gat_attention,
    squeeze_keeps_batch_and_fields.
  destruct (Nat.eqb_spec b 1) as [E|_]; [easy|].
  destruct (Nat.eqb_spec b' 1) as [E|_]; [easy|]. reflexivity.
Qed.

Lemma block_loop_batch (cfg : config) (W : weights) (b b' : nat)
    (layers : list nat) :
  b <> 1%nat -> b' <> 1%nat ->
  forall h hl vl,
    block_loop cfg W b layers h hl vl = block_loop cfg W b' layers h hl vl.
Proof.
  intros Hb Hb'. induction layers as [|i layers IH]; intros h hl vl;
    [reflexivity|].
  cbn [block_loop].
  rewrite (mapM_ext_in (field_step cfg W b i h) (field_step cfg W b' i h))
    by (intros j _; now apply field_step_batch).
  destruct (mapM (field_step cfg W b' i h) (seq 0 (field_size cfg)))
    as [sv| |]; simpl; auto.
  destruct (tf_concat_rows (map fst sv)) as [h'| |]; simpl; auto.
  destruct (tf_concat_rows (map snd sv)) as [v| |]; simpl; auto.
Qed.

Lemma run_graph_batch (cfg : config) (W : weights) (b b' : nat)
    (fi : list nat) (fv : vec) :
  b <> 1%nat -> b' <> 1%nat ->
  run_graph cfg W b fi fv = run_graph cfg W b' fi fv.
Proof.
  intros Hb Hb'. unfold run_graph, run_logit, run_flat.
  destruct (embeddings cfg W fi fv) as [e| |]; simpl; auto.
  now rewrite (block_loop_batch cfg W b b').
Qed.

Lemma out_of_returns (cfg : config) (W : weights) (b : nat) (fi : list nat)
    (fv : vec) (r : graph_run) :
  b <> 1%nat ->
  run_graph cfg W b fi fv = Returns r -> out_of cfg W fi fv = out r.
Proof.
  intros Hb Hr. unfold out_of.
  rewrite (run_graph_batch cfg W 2 b) by (auto; discriminate).
  now rewrite Hr.
Qed.

Lemma sess_run_out_samples (cfg : config) (W : weights) (b : nat)
    (bi : list (list nat)) (bv : list vec) :
  valid_config cfg -> field_size cfg <> 1%nat ->
  length (prediction W) = input_size cfg -> b <> 1%nat ->
  Forall2 (well_formed_sample cfg W) bi bv ->
  mapM (fun s => r <- run_graph cfg W b (fst s) (snd s) ;; Returns (out r))
       (combine bi bv) =
  Returns (zip_with (out_of cfg W) bi bv).
Proof.
  intros Hcfg Hf Lp Hb H.
  induction H as [|fi fv bi bv Hs Hrest IH]; [reflexivity|].
  cbn [combine mapM zip_with fst snd].
  destruct (run_graph_returns cfg W b fi fv Hcfg Hb Hf Lp Hs) as (r & Hr).
  rewrite Hr, (out_of_returns _ _ _ _ _ _ Hb Hr). cbn [bind].
  rewrite IH. reflexivity.
Qed.

Lemma sess_run_out_well_formed (cfg : config) (W : weights)
    (bi : list (list nat)) (bv : list vec) :
  valid_config cfg -> field_size cfg <> 1%nat ->
  length (prediction W) = input_size cfg -> length bi <> 1%nat ->
  Forall2 (well_formed_sample cfg W) bi bv ->
  sess_run_out cfg W bi bv = Returns (zip_with (out_of cfg W) bi bv).
Proof.
  intros Hcfg Hf Lp Hb H. unfold sess_run_out.
  rewrite (Forall2_length_eq _ _ _ H), Nat.eqb_refl.
  rewrite <- (Forall2_length_eq _ _ _ H).
  now apply sess_run_out_samples.
Qed.

Lemma out_of_probability (cfg : config) (W : weights) (fi : list nat)
    (fv : vec) :
  loss_type cfg = logloss ->
  (exists r, run_graph cfg W 2 fi fv = Returns r) ->
  0 < out_of cfg W fi fv < 1.
Proof.
  intros Hl (r & Hr).
  rewrite (out_of_returns _ _ 2 _ _ _ ltac:(discriminate) Hr).
  apply run_graph_inv in Hr. destruct Hr as (vl & o & _ & ->).
  rewrite Hl. apply sigmoid_range.
Qed.

Lemma fed_batch_length (bs n j : nat) :
  (2 <= bs)%nat -> (n mod bs <> 1)%nat -> (j * bs < n)%nat ->
  (Nat.min ((j + 1) * bs) n - j * bs <> 1)%nat.
Proof.
  intros Hbs Hmod Hj.
  destruct (Nat.le_gt_cases ((j + 1) * bs) n) as [Hle|Hgt].
  - rewrite Nat.min_l by exact Hle. lia.
  - rewrite Nat.min_r by lia. intros E. apply Hmod.
    symmetry. apply (Nat.mod_unique n bs j 1); lia.
Qed.

Lemma run_logit_bias_block (cfg : config) (W : weights) (batch : nat) (b : R)
    (layers : list nat) :
  forall h hl vl,
    block_loop cfg (with_prediction_bias W b) batch layers h hl vl =
    block_loop cfg W batch layers h hl vl.
Proof.
  induction layers as [|i layers IH]; intros h hl vl; [reflexivity|].
  cbn [block_loop].
  change (field_step cfg (with_prediction_bias W b) batch i h)
    with (field_step cfg W batch i h).
  destruct (mapM (field_step cfg W batch i h) (seq 0 (field_size cfg)))
    as [sv| |]; simpl; auto.
  destruct (tf_concat_rows (map fst sv)) as [h'| |]; simpl; auto.
  destruct (tf_concat_rows (map snd sv)) as [v| |]; simpl; auto.
Qed.

Lemma run_logit_bias (cfg : config) (W : weights) (batch : nat)
    (fi : list nat) (fv : vec) (vl : list mat) (fl : vec) (o b : R) :
  run_logit cfg W batch fi fv = Returns (vl, fl, o) ->
  run_logit cfg (with_prediction_bias W b) batch fi fv =
  Returns (vl, fl, o - prediction_bias W + b).
Proof.
  unfold run_logit.
  change (embeddings cfg (with_prediction_bias W b) fi fv)
    with (embeddings cfg W fi fv).
  destruct (embeddings cfg W fi fv) as [e| |]; simpl; try discriminate.
  unfold run_flat. rewrite run_logit_bias_block.
  destruct (block_loop cfg W batch (seq 0 (blocks cfg)) e [] [])
    as [[hl vl']| |]; simpl; try discriminate.
  destruct (tf_concat_last hl) as [y| |]; simpl; try discriminate.
  destruct (tf_matmul_col (reduce_mean_rows y) (prediction W)) as [o'| |];
    simpl; try discriminate.
  destruct (deep_layers cfg); intros [= <- <- <-]; do 2 f_equal; ring.
Qed.

(** C9 on the model graph: four well-formed samples in two batches of
    two. *)
Lemma predict_length_preserving_witness :
  exists p,
    predict 2 (sess_run_out genre_cfg genre_weights)
      [[0; 0]; [0; 0]; [0; 0]; [0; 0]]%nat [[1; 1]; [1; 1]; [1; 1]; [1; 1]] =
    Returns (NdArray p) /\
    length p = 4%nat.
Proof.
  set (o := out_of genre_cfg genre_weights [0; 0]%nat [1; 1]).
  destruct (proj1 (proj2 (proj2
              (predict_length_preserving (list nat) vec 2
                 (sess_run_out genre_cfg genre_weights)
                 [[0; 0]; [0; 0]; [0; 0]; [0; 0]]%nat
                 [[1; 1]; [1; 1]; [1; 1]; [1; 1]])))
              ltac:(lia) ltac:(discriminate) (fun _ => [o; o]))
    as [Hp Hl].
  - intros j Hj. cbv zeta.
    assert (B : sess_run_out genre_cfg genre_weights [[0; 0]; [0; 0]]%nat
                  [[1; 1]; [1; 1]] = Returns [o; o]).
    { rewrite sess_run_out_well_formed; [reflexivity| | | | |].
      - exact genre_cfg_valid.
      - discriminate.
      - reflexivity.
      - discriminate.
      - repeat constructor. }
    destruct j as [|[|j]]; [| |simpl in Hj; lia];
      (split; [exact B|reflexivity]).
  - eexists. split; [exact Hp|exact Hl].
Defined.

(** C9 as stated fails: on a non-empty list [predict] returns [None] when
    [batch_size] is 0, and it returns nothing at all when the last batch
    holds a single sample (four samples, [batch_size = 3]). *)
Lemma predict_length_preserving_counterexample :
  predict 0 (sess_run_out genre_cfg genre_weights)
    [[0; 0]; [0; 0]]%nat [[1; 1]; [1; 1]] = Returns PyNone /\
  predict 3 (sess_run_out genre_cfg genre_weights)
    [[0; 0]; [0; 0]; [0; 0]; [0; 0]]%nat [[1; 1]; [1; 1]; [1; 1]; [1; 1]] =
  Raises InvalidArgumentError.
Proof. split; reflexivity. Qed.

(** The sigmoid and the raw output, where every fed batch has at least two
    samples.  On a non-empty list of well-formed samples (valid
    configuration with two fields or more, [batch_size >= 2] and a number
    of samples that leaves no batch of a single sample) [predict] returns
    one value per sample, in input order, for both loss types: the value of
    a sample is the sigmoid of its logit with [loss_type == "logloss"], and
    the logit itself with [loss_type == "mse"].  With ["logloss"] every value
    lies strictly between 0 and 1; with ["mse"] the output is unbounded: any
    real value is the output for a suitable value of the variable
    ["prediction_bias"]. *)
Theorem predict_probabilities (cfg : config) (W : weights) (batch_size : nat)
    (Xi : list (list nat)) (Xv : list vec) :
  valid_config cfg -> field_size cfg <> 1%nat ->
  length (prediction W) = input_size cfg ->
  (2 <= batch_size)%nat -> (length Xi mod batch_size <> 1)%nat -> Xi <> [] ->
  Forall2 (well_formed_sample cfg W) Xi Xv ->
  (exists p,
     predict batch_size (sess_run_out cfg W) Xi Xv = Returns (NdArray p) /\
     p = zip_with (out_of cfg W) Xi Xv /\
     length p = length Xi) /\
  Forall2 (fun fi fv =>
             exists vl fl o,
               run_logit cfg W 2 fi fv = Returns (vl, fl, o) /\
               out_of cfg W fi fv = match loss_type cfg with
                                    | logloss => sigmoid o
                                    | mse => o
                                    end) Xi Xv /\
  (loss_type cfg = logloss ->
   (forall batch fi fv r, run_graph cfg W batch fi fv = Returns r ->
      exists vl o, run_logit cfg W batch fi fv = Returns (vl, flat r, o) /\
                   out r = sigmoid o) /\
   Forall (fun x => 0 < x < 1) (zip_with (out_of cfg W) Xi Xv)) /\
  (loss_type cfg = mse ->
   (forall batch fi fv r, run_graph cfg W batch fi fv = Returns r ->
      exists vl o, run_logit cfg W batch fi fv = Returns (vl, flat r, o) /\
                   out r = o) /\
   (forall batch fi fv r (t : R), run_graph cfg W batch fi fv = Returns r ->
      exists b r',
        run_graph cfg (with_prediction_bias W b) batch fi fv = Returns r' /\
        out r' = t)).
Proof.
  intros Hcfg Hf Lp Hbs Hmod Hne Hwf.
  pose proof (Forall2_length_eq _ _ _ Hwf) as Len.
  split; [|split; [|split]].
  - exists (zip_with (out_of cfg W) Xi Xv). repeat split.
    + apply predict_in_order; auto; [lia|].
      intros j Hj a b. apply sess_run_out_well_formed; auto.
      * rewrite slice_length. subst a b.
        pose proof (fed_batch_length batch_size (length Xi) j Hbs Hmod Hj).
        lia.
      * now apply Forall2_slice.
    + rewrite zip_with_length. lia.
  - eapply Forall2_impl; [|exact Hwf]. intros fi fv Hs.
    destruct (run_graph_returns cfg W 2 fi fv Hcfg ltac:(discriminate) Hf Lp
                Hs) as (r & Hr).
    rewrite (out_of_returns _ _ 2 _ _ _ ltac:(discriminate) Hr).
    apply run_graph_inv in Hr. destruct Hr as (vl & o & Ho & Eo).
    exists vl, (flat r), o. split; [exact Ho|exact Eo].
  - intros Hl. split.
    + intros batch fi fv r Hr. apply run_graph_inv in Hr.
      rewrite Hl in Hr. exact Hr.
    + apply (zip_with_Forall _ (well_formed_sample cfg W)); [|exact Hwf].
      intros fi fv Hs. apply out_of_probability; [exact Hl|].
      apply run_graph_returns; auto.
  - intros Hl. split.
    + intros batch fi fv r Hr. apply run_graph_inv in Hr.
      rewrite Hl in Hr. exact Hr.
    + intros batch fi fv r t Hr. apply run_graph_inv in Hr.
      destruct Hr as (vl & o & Ho & _).
      exists (t - (o - prediction_bias W)).
      apply (run_logit_bias _ _ _ _ _ _ _ _ (t - (o - prediction_bias W)))
        in Ho.
      unfold run_graph. rewrite Ho. cbn [bind].
      change (loss_type cfg) with (loss_type cfg). rewrite Hl.
      eexists. split; [reflexivity|]. cbn [out]. ring.
Qed.

Lemma predict_probabilities_witness :
  (exists p,
     predict 2 (sess_run_out genre_cfg genre_weights)
       [[0; 0]; [0; 0]; [0; 0]; [0; 0]]%nat [[1; 1]; [1; 1]; [1; 1]; [1; 1]] =
     Returns (NdArray p) /\
     length p = 4%nat /\ Forall (fun x => 0 < x < 1) p) /\
  (exists p,
     predict 2 (sess_run_out genre_cfg_mse genre_weights)
       [[0; 0]; [0; 0]; [0; 0]; [0; 0]]%nat [[1; 1]; [1; 1]; [1; 1]; [1; 1]] =
     Returns (NdArray p) /\
     length p = 4%nat).
Proof.
  split.
  - destruct (predict_probabilities genre_cfg genre_weights 2
                [[0; 0]; [0; 0]; [0; 0]; [0; 0]]%nat
                [[1; 1]; [1; 1]; [1; 1]; [1; 1]])
      as ((p & Hp & Ep & Lp) & _ & Hlog & _).
    + exact genre_cfg_valid.
    + discriminate.
    + reflexivity.
    + lia.
    + discriminate.
    + discriminate.
    + repeat constructor.
    + exists p. split; [exact Hp|]. split; [exact Lp|].
      rewrite Ep. apply (Hlog eq_refl).
  - destruct (predict_probabilities genre_cfg_mse genre_weights 2
                [[0; 0]; [0; 0]; [0; 0]; [0; 0]]%nat
                [[1; 1]; [1; 1]; [1; 1]; [1; 1]])
      as ((p & Hp & _ & Lp) & _).
    + unfold valid_config, genre_cfg_mse. simpl.
      repeat split; try lia; repeat constructor.
    + discriminate.
    + reflexivity.
    + lia.
    + discriminate.
    + discriminate.
    + repeat constructor.
    + exists p. split; [exact Hp|exact Lp].
Defined.

(** *** A batch of a single sample *)

Lemma gat_attention_single_sample (W : block_weights) (queries : vec)
    (values : mat) (num_units num_heads k field : nat) (has_residual : bool)
    (r : vec * vec) :
  gat_attention W 1 queries values num_units num_heads k field has_residual
  <> Returns r.
Proof.
  unfold gat_attention.
  destruct (tf_split _ num_heads num_heads) as [A_| |]; simpl; try discriminate.
  destruct (tf_split _ num_units num_heads) as [H_| |]; simpl; try discriminate.
  destruct (graph_structure_selector _ k) as [S| |]; simpl; discriminate.
Qed.

Lemma field_step_single_sample (cfg : config) (W : weights) (i : nat)
    (h : mat) (j : nat) (r : vec * vec) :
  field_step cfg W 1 i h j <> Returns r.
Proof.
  unfold field_step.
  destruct (tf_row h j) as [state| |]; simpl; try discriminate.
  destruct (py_index (block_shape cfg) i) as [u| |]; simpl; try discriminate.
  destruct (py_index (ks cfg) i) as [k| |]; simpl; try discriminate.
  apply gat_attention_single_sample.
Qed.

Lemma block_loop_single_sample (cfg : config) (W : weights) (i : nat)
    (layers : list nat) (h : mat) (hl vl : list mat)
    (r : list mat * list mat) :
  block_loop cfg W 1 (i :: layers) h hl vl <> Returns r.
Proof.
  cbn [block_loop].
  destruct (field_size cfg) as [|F]; [simpl; discriminate|].
  cbn [seq mapM].
  destruct (field_step cfg W 1 i h 0) as [r0| |] eqn:E; simpl;
    try discriminate.
  exfalso. exact (field_step_single_sample _ _ _ _ _ _ E).
Qed.

Lemma run_graph_single_sample (cfg : config) (W : weights) (fi : list nat)
    (fv : vec) (r : graph_run) :
  run_graph cfg W 1 fi fv <> Returns r.
Proof.
  unfold run_graph, run_logit, run_flat.
  destruct (embeddings cfg W fi fv) as [e| |]; simpl; try discriminate.
  destruct (blocks cfg) as [|B]; [simpl; discriminate|].
  cbn [seq].
  destruct (block_loop cfg W 1 (0%nat :: seq 1 B) e [] []) as [hv| |] eqn:E;
    simpl; try discriminate.
  exfalso. exact (block_loop_single_sample _ _ _ _ _ _ _ _ E).
Qed.

Lemma predict_single_sample (cfg : config) (W : weights) (batch_size : nat)
    (xi : list nat) (xv : vec) (r : pyarray) :
  (0 < batch_size)%nat ->
  predict batch_size (sess_run_out cfg W) [xi] [xv] <> Returns r.
Proof.
  intros Hbs. unfold predict, get_batch. cbn [length repeat].
  replace (if ((0 + 1) * batch_size <? 1)%nat then ((0 + 1) * batch_size)%nat
           else 1%nat) with 1%nat
    by (destruct (Nat.ltb_spec ((0 + 1) * batch_size) 1); lia).
  cbn [predict_loop slice Nat.mul Nat.sub skipn firstn length Nat.ltb Nat.leb
       map].
  unfold sess_run_out. cbn [length Nat.eqb combine mapM fst snd].
  destruct (run_graph cfg W 1 xi xv) as [g| |] eqn:E; simpl;
    try discriminate.
  exfalso. exact (run_graph_single_sample _ _ _ _ _ E).
Qed.

(** C6 at a concrete input.  [predict] on a single well-formed sample, and
    on three samples with [batch_size = 2] (whose second batch holds one
    sample), raises: [tf.squeeze(S)] also drops the batch axis of a batch of
    one sample, and [tf.tile(S, [num_heads, 1, 1])] refuses the result.  No
    configuration lets [predict] return on a single sample. *)
Theorem predict_single_sample_raises :
  predict 2 (sess_run_out genre_cfg genre_weights) [[0; 0]%nat] [[1; 1]] =
  Raises InvalidArgumentError /\
  predict 2 (sess_run_out genre_cfg genre_weights)
    [[0; 0]; [0; 0]; [0; 0]]%nat [[1; 1]; [1; 1]; [1; 1]] =
  Raises InvalidArgumentError /\
  (forall cfg W batch_size xi xv r,
     (0 < batch_size)%nat ->
     predict batch_size (sess_run_out cfg W) [xi] [xv] <> Returns r).
Proof.
  split; [|split].
  - reflexivity.
  - reflexivity.
  - intros. now apply predict_single_sample.
Qed.

(** ** Further properties *)

(** *** The embedding of a single-value field *)

Lemma bmul_row_scalar (row : vec) (v : R) :
  bmul_row row [v] = map (fun x => x * v) row.
Proof. destruct row as [|x [|x' row]]; reflexivity. Qed.

Lemma bmul_rows_column (rows : mat) (fv : vec) :
  length rows = length fv ->
  bmul rows (expand_dims fv) =
  zip_with (fun row v => map (fun x => x * v) row) rows fv.
Proof.
  assert (Z : forall rows fv,
             zip_with bmul_row rows (expand_dims fv) =
             zip_with (fun row v => map (fun x => x * v) row) rows fv).
  { induction rows0 as [|r rows0 IH]; intros [|v fv0]; simpl; auto.
    now rewrite IH, bmul_row_scalar. }
  intros L. destruct rows as [|r [|r' rows]], fv as [|v [|v' fv]];
    try discriminate L; try reflexivity.
  - simpl. now rewrite bmul_row_scalar.
  - change (bmul (r :: r' :: rows) (expand_dims (v :: v' :: fv)))
      with (zip_with bmul_row (r :: r' :: rows) (expand_dims (v :: v' :: fv))).
    apply Z.
Qed.

Lemma nth_zip_with_rows (rows : mat) (fv : vec) (m : nat) :
  (m < length rows)%nat -> (m < length fv)%nat ->
  nth m (zip_with (fun row v => map (fun x => x * v) row) rows fv) [] =
  map (fun x => x * nth m fv 0) (nth m rows []).
Proof.
  revert fv m. induction rows as [|r rows IH]; intros [|v fv] [|m] Hr Hf;
    simpl in *; try lia; auto.
  apply IH; lia.
Qed.

(** The embedding fed into the block stack, before dropout: for every field
    [m] of a sample, the row of the embedding table at [feat_index[m]]
    scaled elementwise by [feat_value[m]]. *)
Theorem embeddings_scaled_lookup (cfg : config) (W : weights)
    (feat_index : list nat) (feat_value : vec) (e : mat) (m : nat) :
  embeddings cfg W feat_index feat_value = Returns e ->
  length feat_index = field_size cfg -> (m < field_size cfg)%nat ->
  exists row,
    nth_error (feature_embeddings W) (nth m feat_index 0%nat) = Some row /\
    nth m e [] = map (fun x => x * nth m feat_value 0) row.
Proof.
  unfold embeddings, embedding_lookup. intros H Li Hm.
  destruct (mapM _ feat_index) as [rows| |] eqn:Erows; simpl in H;
    try discriminate.
  unfold tf_reshape_col in H.
  destruct (Nat.eqb_spec (length feat_value) (field_size cfg)) as [Lv|];
    simpl in H; [|discriminate].
  apply mapM_inv in Erows.
  pose proof (Forall2_length_eq _ _ _ Erows) as Lr.
  unfold tf_multiply in H.
  assert (Lc : length rows = length (expand_dims feat_value)).
  { unfold expand_dims. rewrite length_map. lia. }
  rewrite Lc, Nat.eqb_refl in H. simpl in H. injection H as <-.
  rewrite bmul_rows_column by lia.
  rewrite nth_zip_with_rows by lia.
  exists (nth m rows []). split; [|reflexivity].
  clear Lc Lv. revert m Hm. rewrite <- Li. clear Li Lr.
  induction Erows as [|i row fi rows Hi _ IH]; intros m Hm; simpl in Hm;
    [lia|].
  destruct m as [|m]; simpl.
  - destruct (nth_error (feature_embeddings W) i); [|discriminate].
    now injection Hi as ->.
  - apply IH. lia.
Qed.

Lemma embeddings_scaled_lookup_witness :
  exists row,
    nth_error (feature_embeddings genre_weights) (nth 1 [0; 0]%nat 0%nat) =
    Some row /\
    exists e, embeddings genre_cfg genre_weights [0; 0]%nat [1; 1] = Returns e /\
              nth 1 e [] = map (fun x => x * nth 1 [1; 1] 0) row.
Proof.
  destruct (embeddings_returns genre_cfg genre_weights [0; 0]%nat [1; 1]
              genre_sample_well_formed) as (e & He & _).
  destruct (embeddings_scaled_lookup genre_cfg genre_weights [0; 0]%nat
              [1; 1] e 1 He) as (row & Hrow & Hnth).
  - reflexivity.
  - simpl. lia.
  - exists row. split; [exact Hrow|]. exists e. split; [exact He|exact Hnth].
Defined.

(** *** The attention weights of a head sum to one *)

Lemma sum_softmax (v : vec) :
  v <> [] -> sum (map (fun x => exp x / sum (map exp v)) v) = 1.
Proof.
  intros Hne. pose proof (sum_exp_pos v Hne) as HZ.
  replace (map (fun x => exp x / sum (map exp v)) v)
    with (map (fun y => y * / sum (map exp v)) (map exp v))
    by (rewrite map_map; reflexivity).
  rewrite sum_map_scale. field. lra.
Qed.

Lemma tf_squeeze_expand_dims (v : vec) : tf_squeeze (expand_dims v) = v.
Proof.
  unfold tf_squeeze, expand_dims. rewrite map_map. simpl. apply map_id.
Qed.

(** For every head, the attention weights over the fields (the softmax of
    the masked logits) sum to 1. *)
Theorem attention_weights_sum_to_one (W : block_weights) (values : mat)
    (k num_heads : nat) (vis : vec) :
  (0 < num_heads)%nat -> values <> [] ->
  graph_structure_selector (gsl_scores W values) k = Returns vis ->
  let A := map (dense (att_kernel W) (Some (att_bias W)) relu num_heads)
               values in
  exists A_ : list mat,
    tf_split A num_heads num_heads = Returns A_ /\
    forall hd : nat,
      (hd < num_heads)%nat ->
      sum (tf_squeeze (nth hd (attention_weights vis A_) [])) = 1.
Proof.
  intros Hh Hne Hsel A.
  assert (HA : Forall (fun row => length row = num_heads) A).
  { apply Forall_forall. intros row Hrow. apply in_map_iff in Hrow.
    destruct Hrow as (x & <- & _). apply dense_length. }
  assert (Lvis : length vis = length A).
  { rewrite (selector_length _ _ _ Hsel), gsl_scores_length.
    unfold A. now rewrite length_map. }
  eexists. split; [now apply tf_split_heads|].
  intros hd Hhd. rewrite attention_weights_columns by exact Lvis.
  rewrite nth_map_seq by exact Hhd.
  rewrite tf_squeeze_expand_dims. apply sum_softmax.
  intros E. apply (f_equal (@length R)) in E.
  rewrite zip_with_length, Lvis in E. unfold column, A in E.
  rewrite !length_map in E. simpl in E.
  destruct values; [easy|simpl in E; lia].
Qed.

Lemma attention_weights_sum_to_one_witness :
  exists (vis : vec) (A_ : list mat),
    graph_structure_selector (gsl_scores zero_block two_fields) 1 =
    Returns vis /\
    sum (tf_squeeze (nth 0 (attention_weights vis A_) [])) = 1.
Proof.
  destruct (selector_returns (gsl_scores zero_block two_fields) 1) as (vis & E).
  - rewrite gsl_scores_length. simpl. lia.
  - destruct (attention_weights_sum_to_one zero_block two_fields 1 1 vis)
      as (A_ & HA & Hsum).
    + lia.
    + discriminate.
    + exact E.
    + exists vis, A_. split; [exact E|]. apply Hsum. lia.
Defined.

(** *** The loop of [predict] terminates *)

Lemma predict_loop_fuel {SI SV : Type} (bs : nat)
    (run_out : list SI -> list SV -> outcome (list R))
    (Xi : list SI) (Xv : list SV) (fuel i : nat) (y_pred : pyarray) :
  (forall bi bv, run_out bi bv <> OutOfFuel) ->
  (length Xi - i * bs < fuel)%nat ->
  predict_loop bs run_out fuel Xi Xv (repeat 1%nat (length Xi)) i
    (get_batch Xi Xv (repeat 1%nat (length Xi)) bs i) y_pred <> OutOfFuel.
Proof.
  intros Hrun. revert i y_pred.
  induction fuel as [|fuel IH]; intros i y_pred Hfuel; [lia|].
  rewrite get_batch_eq. cbn [predict_loop].
  destruct (batch_length bs Xi i) as [L1 L2]. rewrite L1.
  destruct (Nat.ltb_spec 0 (Nat.min ((i + 1) * bs) (length Xi) - i * bs))
    as [Hne|He]; [|discriminate].
  destruct (run_out _ _) as [o| |] eqn:Eo; cbn [bind]; try discriminate;
    [|now apply Hrun in Eo].
  assert (Hnext : (length Xi - (i + 1) * bs < fuel)%nat) by lia.
  unfold np_reshape.
  destruct (Nat.eqb_spec i 0) as [->|Hi].
  - destruct (length o =? _)%nat; cbn [bind]; [|discriminate].
    now apply IH.
  - destruct (length o =? _)%nat; cbn [bind]; [|discriminate].
    destruct y_pred as [|acc]; cbn [np_concatenate bind]; [discriminate|].
    now apply IH.
Qed.

(** [predict] never exhausts the fuel of its loop, [S (len(Xi))] rounds,
    whatever the batch size and the input: the model of the [while] loop
    loses no behaviour of the source. *)
Theorem predict_terminates (SI SV : Type) (batch_size : nat)
    (run_out : list SI -> list SV -> outcome (list R))
    (Xi : list SI) (Xv : list SV) :
  (forall bi bv, run_out bi bv <> OutOfFuel) ->
  predict batch_size run_out Xi Xv <> OutOfFuel.
Proof.
  intros Hrun. unfold predict. apply predict_loop_fuel; [exact Hrun|lia].
Qed.

Lemma predict_terminates_witness :
  predict 2 half_run [1; 2; 3]%nat [4; 5; 6]%nat <> OutOfFuel.
Proof.
  apply (predict_terminates nat nat 2 half_run).
  intros bi bv. discriminate.
Defined.

(** * Further properties of the code *)

(** ** Early stopping: the other branch, and the bookkeeping of [fit_once] *)

Lemma training_termination_true_iff (l : list R) :
  training_termination true l = true <->
  exists pre a b c d e,
    l = pre ++ [a; b; c; d; e] /\ pre <> [] /\
    b < a /\ c < b /\ d < c /\ e < d.
Proof.
  unfold training_termination. split.
  - destruct (Nat.ltb_spec 5 (length l)) as [L|L]; [|discriminate].
    destruct (last_five l) as (pre & a & b & c & d & e & E); [lia|].
    subst l. rewrite !neg_index_app by (simpl; lia). simpl.
    intros H.
    destruct (Rltb e d) eqn:H1, (Rltb d c) eqn:H2, (Rltb c b) eqn:H3,
      (Rltb b a) eqn:H4; simpl in H; try discriminate.
    apply Rltb_true in H1, H2, H3, H4.
    exists pre, a, b, c, d, e. repeat split; auto.
    intros ->. simpl in L. lia.
  - intros (pre & a & b & c & d & e & -> & Hpre & H1 & H2 & H3 & H4).
    assert (L : (5 < length (pre ++ [a; b; c; d; e]))%nat).
    { rewrite length_app. simpl. destruct pre; [easy|simpl; lia]. }
    apply Nat.ltb_lt in L. rewrite L.
    rewrite !neg_index_app by (simpl; lia). simpl.
    apply Rltb_true in H1, H2, H3, H4. now rewrite H1, H2, H3, H4.
Qed.

(** With [greater_is_better] set, [training_termination] answers [True]
    exactly when more than five values are recorded and the last five are
    strictly decreasing.  In both modes it needs six recorded values: on
    five values or fewer it answers [False] whatever they are, so five
    strictly worsening validations in a row do not yet stop the training. *)
Theorem training_termination_needs_six_values :
  (forall l : list R,
     training_termination true l = true <->
     (5 < length l)%nat /\
     exists pre a b c d e,
       l = pre ++ [a; b; c; d; e] /\ b < a /\ c < b /\ d < c /\ e < d) /\
  (forall (gib : bool) (l : list R),
     (length l <= 5)%nat -> training_termination gib l = false) /\
  training_termination false [1; 2; 3; 4; 5] = false /\
  training_termination false [0; 1; 2; 3; 4; 5] = true.
Proof.
  split; [|split; [|split]].
  - intros l. rewrite training_termination_true_iff. split.
    + intros (pre & a & b & c & d & e & -> & Hpre & H).
      split.
      * rewrite length_app. simpl. destruct pre; [easy|simpl; lia].
      * now exists pre, a, b, c, d, e.
    + intros (L & pre & a & b & c & d & e & -> & H).
      exists pre, a, b, c, d, e. repeat split; try tauto.
      intros ->. simpl in L. lia.
  - intros gib l L. unfold training_termination.
    destruct (Nat.ltb_spec 5 (length l)); [lia|reflexivity].
  - reflexivity.
  - apply training_termination_false_iff.
    exists [0], 1, 2, 3, 4, 5. repeat split; try lra. discriminate.
Qed.

Lemma training_termination_needs_six_values_witness :
  training_termination true [9; 8; 7] = false.
Proof.
  apply (proj1 (proj2 training_termination_needs_six_values) true [9; 8; 7]).
  simpl. lia.
Defined.

(** [fit_once] appends exactly one entry to the training lists, and one to
    the validation lists when a validation set is given (none otherwise), so
    lists of equal length stay of equal length.  [best_loss] never grows:
    with [is_save] it becomes the smaller of its old value and the new
    validation loss; without [is_save], or without a validation set, it
    keeps its value, whatever the validation loss.  An exception of
    [evaluate] leaves no result. *)
Theorem fit_once_bookkeeping (D : Type) (ev : D -> outcome (R * R))
    (is_save gib : bool) (st : fit_state) (train : D) (valid : option D)
    (es : bool) (st' : fit_state) (flag : bool) :
  fit_once ev is_save gib st train valid es = Returns (st', flag) ->
  (exists tr, ev train = Returns tr /\
              train_result st' = train_result st ++ [fst tr] /\
              train_loss st' = train_loss st ++ [snd tr]) /\
  match valid with
  | Some v =>
      exists vr, ev v = Returns vr /\
                 valid_result st' = valid_result st ++ [fst vr] /\
                 valid_loss st' = valid_loss st ++ [snd vr] /\
                 best_loss st' = if is_save
                                 then Rmin (best_loss st) (snd vr)
                                 else best_loss st
  | None =>
      valid_result st' = valid_result st /\
      valid_loss st' = valid_loss st /\
      best_loss st' = best_loss st
  end /\
  best_loss st' <= best_loss st /\
  (length (train_result st) = length (train_loss st) ->
   length (train_result st') = length (train_loss st')) /\
  (length (valid_result st) = length (valid_loss st) ->
   length (valid_result st') = length (valid_loss st')).
Proof.
  unfold fit_once. destruct (ev train) as [tr| |]; simpl; try discriminate.
  destruct valid as [v|]; simpl.
  - destruct (ev v) as [vr| |]; simpl; try discriminate.
    intros H.
    assert (E : st' =
              {| train_result := train_result st ++ [fst tr];
                 train_loss := train_loss st ++ [snd tr];
                 valid_result := valid_result st ++ [fst vr];
                 valid_loss := valid_loss st ++ [snd vr];
                 best_loss := if Rltb (snd vr) (best_loss st) && is_save
                              then snd vr else best_loss st |}).
    { destruct (es && _) in H; now injection H. }
    clear H. subst st'. cbn [train_result train_loss valid_result valid_loss
                              best_loss].
    assert (B : (if Rltb (snd vr) (best_loss st) && is_save
                 then snd vr else best_loss st) =
                (if is_save then Rmin (best_loss st) (snd vr)
                 else best_loss st) /\
                (if Rltb (snd vr) (best_loss st) && is_save
                 then snd vr else best_loss st) <= best_loss st).
    { unfold Rltb, Rmin.
      destruct (Rlt_dec (snd vr) (best_loss st)), is_save,
        (Rle_dec (best_loss st) (snd vr)); simpl; split; lra. }
    destruct B as [B1 B2].
    split; [|split; [|split; [|split]]].
    + exists tr. auto.
    + exists vr. auto.
    + exact B2.
    + rewrite !length_app. simpl. lia.
    + rewrite !length_app. simpl. lia.
  - intros [= <- <-]. simpl.
    split; [|split; [|split; [|split]]]; auto; try lra.
    + exists tr. auto.
    + rewrite !length_app. simpl. lia.
Qed.

Lemma fit_once_bookkeeping_witness :
  best_loss trend_state' <= best_loss trend_state.
Proof.
  apply (fit_once_bookkeeping unit (fun _ => Returns (0, 5)) false false
           trend_state tt (Some tt) true trend_state' false).
  assert (T : training_termination false [0; 1; 2; 3; 4; 5] = true).
  { apply training_termination_false_iff.
    exists [0], 1, 2, 3, 4, 5. repeat split; try lra. discriminate. }
  unfold fit_once. simpl. rewrite T. simpl. unfold trend_state'.
  repeat f_equal.
  unfold Rltb. destruct (Rlt_dec 5 1); [lra|reflexivity].
Defined.

(** ** Batches *)

Lemma concat_slices {A : Type} (l : list A) (bs n k : nat) :
  concat (map (fun i => slice l (i * bs) (Nat.min ((i + 1) * bs) n))
              (seq 0 k)) =
  firstn (Nat.min (k * bs) n) l.
Proof.
  induction k as [|k IH]; [reflexivity|].
  rewrite seq_S, map_app, concat_app, IH. cbn [map concat Nat.add].
  rewrite app_nil_r.
  assert (E : ((k + 1) * bs = S k * bs)%nat) by (f_equal; lia).
  rewrite E. clear E.
  assert (M : (S k * bs = bs + k * bs)%nat) by reflexivity.
  set (m := (S k * bs)%nat) in *. clearbody m.
  destruct (Nat.le_gt_cases (k * bs) n) as [H|H].
  - rewrite (Nat.min_l (k * bs) n) by exact H.
    symmetry. apply firstn_slice. lia.
  - rewrite (Nat.min_r (k * bs) n) by lia.
    rewrite (Nat.min_r m n) by lia.
    unfold slice. replace (n - k * bs)%nat with 0%nat by lia.
    simpl. now rewrite app_nil_r.
Qed.

Lemma get_batch_slices {SI SV Y : Type} (Xi : list SI) (Xv : list SV)
    (y : list Y) (bs i : nat) :
  get_batch Xi Xv y bs i =
  (slice Xi (i * bs) (Nat.min ((i + 1) * bs) (length y)),
   slice Xv (i * bs) (Nat.min ((i + 1) * bs) (length y)),
   map (fun y_ => [y_]) (slice y (i * bs) (Nat.min ((i + 1) * bs) (length y)))).
Proof.
  unfold get_batch.
  destruct (Nat.ltb_spec ((i + 1) * bs) (length y)) as [H|H].
  - now rewrite Nat.min_l by lia.
  - now rewrite Nat.min_r by lia.
Qed.

Lemma ceil_div_covers (n bs : nat) :
  (0 < bs)%nat -> (n <= (n + bs - 1) / bs * bs)%nat.
Proof.
  intros H. pose proof (Nat.div_mod_eq (n + bs - 1) bs) as E.
  pose proof (Nat.mod_upper_bound (n + bs - 1) bs ltac:(lia)) as U. nia.
Qed.

(** [get_batch] cuts the data into consecutive batches: with a positive
    batch size and three lists of the same length, the batches of index 0 to
    [ceil(n / batch_size) - 1] concatenate to the three lists (the labels
    wrapped one per row), no batch is longer than [batch_size], and every
    later index gives three empty lists. *)
Theorem get_batch_partitions (SI SV Y : Type) (Xi : list SI) (Xv : list SV)
    (y : list Y) (batch_size : nat) :
  (0 < batch_size)%nat -> length Xi = length y -> length Xv = length y ->
  let k := ((length y + batch_size - 1) / batch_size)%nat in
  concat (map (fun i => fst (fst (get_batch Xi Xv y batch_size i)))
              (seq 0 k)) = Xi /\
  concat (map (fun i => snd (fst (get_batch Xi Xv y batch_size i)))
              (seq 0 k)) = Xv /\
  concat (map (fun i => snd (get_batch Xi Xv y batch_size i)) (seq 0 k)) =
    map (fun y_ => [y_]) y /\
  (forall i, (length (fst (fst (get_batch Xi Xv y batch_size i)))
              <= batch_size)%nat) /\
  (forall i, (k <= i)%nat -> get_batch Xi Xv y batch_size i = ([], [], [])).
Proof.
  intros Hbs Li Lv k.
  pose proof (ceil_div_covers (length y) batch_size Hbs) as Hk. fold k in Hk.
  assert (P : forall (A : Type) (l : list A), length l = length y ->
            concat (map (fun i => slice l (i * batch_size)
                                   (Nat.min ((i + 1) * batch_size) (length y)))
                        (seq 0 k)) = l).
  { intros A l Ll. rewrite concat_slices, Nat.min_r by lia.
    apply firstn_all2. lia. }
  split; [|split; [|split; [|split]]].
  - erewrite map_ext; [apply (P _ Xi Li)|].
    intros i. now rewrite get_batch_slices.
  - erewrite map_ext; [apply (P _ Xv Lv)|].
    intros i. now rewrite get_batch_slices.
  - transitivity
      (map (fun y_ : Y => [y_])
           (concat (map (fun i => slice y (i * batch_size)
                                   (Nat.min ((i + 1) * batch_size) (length y)))
                        (seq 0 k)))).
    + rewrite concat_map, map_map. f_equal. apply map_ext. intros i.
      now rewrite get_batch_slices.
    + now rewrite (P _ y eq_refl).
  - intros i. rewrite get_batch_slices. cbn [fst]. rewrite slice_length. lia.
  - intros i Hi. rewrite get_batch_slices.
    assert (Z : forall (A : Type) (l : list A), length l = length y ->
              slice l (i * batch_size)
                (Nat.min ((i + 1) * batch_size) (length y)) = []).
    { intros A l Ll. apply length_zero_iff_nil. rewrite slice_length. nia. }
    now rewrite (Z _ Xi Li), (Z _ Xv Lv), (Z _ y eq_refl).
Qed.

Lemma get_batch_partitions_witness :
  concat (map (fun i => fst (fst (get_batch [1; 2; 3]%nat [4; 5; 6]%nat
                                    [7; 8; 9]%nat 2 i)))
              (seq 0 ((3 + 2 - 1) / 2))) = [1; 2; 3]%nat.
Proof.
  apply (get_batch_partitions nat nat nat [1; 2; 3]%nat [4; 5; 6]%nat
           [7; 8; 9]%nat 2); (lia || reflexivity).
Defined.

(** The training loop of [fit_once] feeds only full batches: with a positive
    batch size and three lists of the same length [n] it takes
    [n // batch_size] steps, every fed batch holds exactly [batch_size]
    samples, together they are the first [(n // batch_size) * batch_size]
    samples in order, and the last [n mod batch_size] samples of the
    (shuffled) data get no training step in this epoch, none at all when
    [batch_size > n].  A batch size of 0 is a [ZeroDivisionError]. *)
Theorem training_batches_are_full (SI SV Y : Type) (Xi : list SI)
    (Xv : list SV) (y : list Y) (batch_size : nat) :
  length Xi = length y -> length Xv = length y ->
  (batch_size = 0%nat -> training_batches Xi Xv y batch_size = None) /\
  ((0 < batch_size)%nat ->
   exists batches,
     training_batches Xi Xv y batch_size = Some batches /\
     length batches = (length y / batch_size)%nat /\
     Forall (fun b => length (fst (fst b)) = batch_size /\
                      length (snd (fst b)) = batch_size /\
                      length (snd b) = batch_size) batches /\
     concat (map (fun b => fst (fst b)) batches) =
       firstn (length y / batch_size * batch_size) Xi /\
     (length y - length (concat (map (fun b => fst (fst b)) batches)) =
      length y mod batch_size)%nat /\
     ((length y < batch_size)%nat -> batches = [])).
Proof.
  intros Li Lv. unfold training_batches, total_batch. split.
  - intros ->. reflexivity.
  - intros Hbs. destruct (Nat.eqb_spec batch_size 0) as [E|_]; [lia|].
    eexists. split; [reflexivity|].
    pose proof (Nat.div_mod_eq (length y) batch_size) as DM.
    pose proof (Nat.mod_upper_bound (length y) batch_size ltac:(lia)) as U.
    assert (C : concat (map (fun b : list SI * list SV * list (list Y) =>
                               fst (fst b))
                          (map (get_batch Xi Xv y batch_size)
                               (seq 0 (length y / batch_size)))) =
                firstn (length y / batch_size * batch_size) Xi).
    { rewrite map_map.
      rewrite (map_ext _ (fun i => slice Xi (i * batch_size)
                                     (Nat.min ((i + 1) * batch_size) (length y))))
        by (intros i; now rewrite get_batch_slices).
      rewrite concat_slices. f_equal. nia. }
    split; [now rewrite length_map, length_seq|].
    split; [|split; [exact C|split]].
    + apply Forall_forall. intros b Hb. apply in_map_iff in Hb.
      destruct Hb as (i & <- & Hi). apply in_seq in Hi.
      rewrite get_batch_slices. cbn [fst snd].
      rewrite length_map, !slice_length. nia.
    + rewrite C, length_firstn. nia.
    + intros Hlt. rewrite Nat.div_small by exact Hlt. reflexivity.
Qed.

Lemma training_batches_are_full_witness :
  exists batches,
    training_batches [1; 2; 3]%nat [4; 5; 6]%nat [7; 8; 9]%nat 2 =
    Some batches /\ length batches = (3 / 2)%nat.
Proof.
  destruct (proj2 (training_batches_are_full nat nat nat [1; 2; 3]%nat
                     [4; 5; 6]%nat [7; 8; 9]%nat 2 eq_refl eq_refl))
    as (batches & H1 & H2 & _); [lia|].
  exists batches. split; assumption.
Defined.

(** ** [shuffle_in_unison_scary] *)

Lemma list_set_length {A : Type} (l : list A) (i : nat) (v : A) :
  length (list_set l i v) = length l.
Proof.
  revert i. induction l as [|a l IH]; intros [|i]; simpl; auto.
Qed.

Lemma list_set_map {A B : Type} (f : A -> B) (l : list A) (i : nat) (v : A) :
  list_set (map f l) i (f v) = map f (list_set l i v).
Proof.
  revert i. induction l as [|a l IH]; intros [|i]; simpl; auto.
  now rewrite IH.
Qed.

Lemma swap_map {A B : Type} (f : A -> B) (l : list A) (i j : nat) :
  swap (map f l) i j = map f (swap l i j).
Proof.
  unfold swap. rewrite !nth_error_map.
  destruct (nth_error l i) as [xi|]; simpl; [|reflexivity].
  destruct (nth_error l j) as [xj|]; simpl; [|reflexivity].
  now rewrite !list_set_map.
Qed.

Lemma swap_cons {A : Type} (a : A) (l : list A) (i j : nat) :
  swap (a :: l) (S i) (S j) = a :: swap l i j.
Proof.
  unfold swap. simpl.
  destruct (nth_error l i) as [xi|]; [|reflexivity].
  destruct (nth_error l j) as [xj|]; reflexivity.
Qed.

Lemma list_set_perm {A : Type} (l : list A) (j : nat) (a y : A) :
  nth_error l j = Some y -> Permutation (a :: l) (y :: list_set l j a).
Proof.
  revert j. induction l as [|b l IH]; intros [|j] H; simpl in *;
    try discriminate.
  - injection H as ->. apply perm_swap.
  - rewrite perm_swap. rewrite (IH j H). apply perm_swap.
Qed.

Lemma swap_perm {A : Type} (l : list A) (i j : nat) :
  Permutation (swap l i j) l.
Proof.
  revert i j. induction l as [|a l IH]; intros i j.
  - unfold swap. destruct i, j; reflexivity.
  - destruct i as [|i], j as [|j].
    + reflexivity.
    + unfold swap. simpl.
      destruct (nth_error l j) as [y|] eqn:E; [|reflexivity].
      simpl. symmetry. now apply list_set_perm.
    + unfold swap. simpl.
      destruct (nth_error l i) as [y|] eqn:E; [|reflexivity].
      simpl. symmetry. now apply list_set_perm.
    + rewrite swap_cons. now constructor.
Qed.

Lemma swap_length {A : Type} (l : list A) (i j : nat) :
  length (swap l i j) = length l.
Proof. apply Permutation_length, swap_perm. Qed.

Section ShuffleProps.

Variable rng : Type.
Variable random_interval : rng -> nat -> nat * rng.

Lemma shuffle_loop_map {A B : Type} (f : A -> B) (indices : list nat) :
  forall (st : rng) (x : list A),
    shuffle_loop rng random_interval st indices (map f x) =
    (map f (fst (shuffle_loop rng random_interval st indices x)),
     snd (shuffle_loop rng random_interval st indices x)).
Proof.
  induction indices as [|i indices IH]; intros st x; simpl; [reflexivity|].
  destruct (random_interval st i) as [j st']. rewrite swap_map. apply IH.
Qed.

Lemma shuffle_loop_perm {A : Type} (indices : list nat) :
  forall (st : rng) (x : list A),
    Permutation (fst (shuffle_loop rng random_interval st indices x)) x.
Proof.
  induction indices as [|i indices IH]; intros st x; simpl; [reflexivity|].
  destruct (random_interval st i) as [j st']. rewrite IH. apply swap_perm.
Qed.

Lemma np_random_shuffle_map {A B : Type} (f : A -> B) (st : rng)
    (x : list A) :
  np_random_shuffle rng random_interval st (map f x) =
  (map f (fst (np_random_shuffle rng random_interval st x)),
   snd (np_random_shuffle rng random_interval st x)).
Proof.
  unfold np_random_shuffle. rewrite length_map. apply shuffle_loop_map.
Qed.

Lemma map_fst_combine {A B : Type} (a : list A) (b : list B) :
  length a = length b -> map fst (combine a b) = a.
Proof.
  revert b. induction a as [|x a IH]; intros [|y b] H; simpl in *;
    try discriminate; auto.
  f_equal. apply IH. lia.
Qed.

Lemma map_snd_combine {A B : Type} (a : list A) (b : list B) :
  length a = length b -> map snd (combine a b) = b.
Proof.
  revert b. induction a as [|x a IH]; intros [|y b] H; simpl in *;
    try discriminate; auto.
  f_equal. apply IH. lia.
Qed.

Lemma combine_fst_snd {A B : Type} (l : list (A * B)) :
  combine (map fst l) (map snd l) = l.
Proof.
  induction l as [|[x y] l IH]; simpl; [reflexivity|]. now rewrite IH.
Qed.

Lemma np_random_shuffle_combine {A B : Type} (st : rng) (a : list A)
    (b : list B) :
  length a = length b ->
  combine (fst (np_random_shuffle rng random_interval st a))
          (fst (np_random_shuffle rng random_interval st b)) =
  fst (np_random_shuffle rng random_interval st (combine a b)).
Proof.
  intros L.
  rewrite <- (map_fst_combine a b L) at 1.
  rewrite <- (map_snd_combine a b L) at 2.
  rewrite !np_random_shuffle_map. cbn [fst]. apply combine_fst_snd.
Qed.

(** [shuffle_in_unison_scary] keeps three lists of the same length in
    unison: the rows [(a[i], b[i], c[i])] of the result are a permutation of
    the rows of the input (every sample keeps its values and its label), and
    each list keeps its length.  The generator ends in the state one shuffle
    of a list of that length leaves. *)
Theorem shuffle_in_unison_keeps_rows (A B C : Type) (st : rng) (a : list A)
    (b : list B) (c : list C) :
  length a = length b -> length b = length c ->
  let '(a', b', c', st') :=
    shuffle_in_unison_scary rng random_interval st a b c in
  Permutation (combine a' (combine b' c')) (combine a (combine b c)) /\
  combine a' (combine b' c') =
    fst (np_random_shuffle rng random_interval st (combine a (combine b c))) /\
  length a' = length a /\ length b' = length b /\ length c' = length c /\
  st' = snd (np_random_shuffle rng random_interval st a).
Proof.
  intros Lab Lbc. unfold shuffle_in_unison_scary.
  destruct (np_random_shuffle rng random_interval st a) as [a' sa] eqn:Ea.
  destruct (np_random_shuffle rng random_interval st b) as [b' sb] eqn:Eb.
  destruct (np_random_shuffle rng random_interval st c) as [c' sc] eqn:Ec.
  assert (Ha : a' = fst (np_random_shuffle rng random_interval st a))
    by now rewrite Ea.
  assert (Hb : b' = fst (np_random_shuffle rng random_interval st b))
    by now rewrite Eb.
  assert (Hc : c' = fst (np_random_shuffle rng random_interval st c))
    by now rewrite Ec.
  assert (E : combine a' (combine b' c') =
              fst (np_random_shuffle rng random_interval st
                     (combine a (combine b c)))).
  { rewrite Ha, Hb, Hc.
    rewrite (np_random_shuffle_combine st b c Lbc).
    apply np_random_shuffle_combine.
    rewrite length_combine. lia. }
  split; [|split; [exact E|]].
  - rewrite E. apply shuffle_loop_perm.
  - rewrite Ha, Hb, Hc.
    repeat split;
      try (apply Permutation_length; apply shuffle_loop_perm).
    rewrite <- (map_id a) in Ea. rewrite np_random_shuffle_map in Ea.
    rewrite <- (map_id c) in Ec. rewrite np_random_shuffle_map in Ec.
    injection Ea as _ Ea. injection Ec as _ Ec. subst sa sc.
    clear - Lab Lbc. unfold np_random_shuffle.
    assert (S : forall (X Y : Type) (indices : list nat) (s : rng)
                       (x : list X) (y : list Y),
                length x = length y ->
                snd (shuffle_loop rng random_interval s indices x) =
                snd (shuffle_loop rng random_interval s indices y)).
    { intros X Y indices. induction indices as [|i indices IH];
        intros s x y L; simpl; [reflexivity|].
      destruct (random_interval s i) as [j s']. apply IH.
      now rewrite !swap_length. }
    replace (length c) with (length a) by lia. apply S. lia.
Qed.

End ShuffleProps.

Lemma shuffle_in_unison_keeps_rows_witness :
  let ri := fun (st i : nat) => ((st + i) mod (i + 1), S st)%nat in
  let '(a', b', c', st') :=
    shuffle_in_unison_scary nat ri 0%nat [1; 2; 3]%nat [4; 5; 6]%nat
      [7; 8; 9]%nat in
  Permutation (combine a' (combine b' c'))
              (combine [1; 2; 3]%nat (combine [4; 5; 6]%nat [7; 8; 9]%nat)).
Proof.
  intros ri.
  pose proof (shuffle_in_unison_keeps_rows nat ri nat nat nat 0%nat
                [1; 2; 3]%nat [4; 5; 6]%nat [7; 8; 9]%nat eq_refl eq_refl)
    as H.
  destruct (shuffle_in_unison_scary nat ri 0%nat [1; 2; 3]%nat [4; 5; 6]%nat
              [7; 8; 9]%nat) as [[[a' b'] c'] st'].
  exact (proj1 H).
Defined.

(** ** [predict] and [evaluate] without a batch *)




(** ** [normalize]: shifts and bounds *)

Lemma sum_map_plus (c : R) (v : vec) :
  sum (map (fun x => x + c) v) = sum v + INR (length v) * c.
Proof.
  induction v as [|x v IH]; [simpl; ring|].
  cbn [map].
  change (x + c + sum (map (fun x => x + c) v) =
          x + sum v + INR (S (length v)) * c).
  rewrite IH, S_INR. ring.
Qed.

Lemma moments_shift (c : R) (v : vec) :
  v <> [] ->
  moments (map (fun x => x + c) v) = (fst (moments v) + c, snd (moments v)).
Proof.
  intros Hne. pose proof (INR_length_pos v Hne) as Hn.
  assert (M : reduce_mean (map (fun x => x + c) v) = reduce_mean v + c).
  { unfold reduce_mean. rewrite length_map, sum_map_plus. field. lra. }
  unfold moments. cbn [fst snd]. rewrite M. f_equal.
  rewrite map_map. unfold reduce_mean. rewrite !length_map. f_equal. f_equal.
  apply map_ext. intros x. ring.
Qed.

Lemma square_le_sum_squares (m x : R) (v : vec) :
  In x v -> (x - m) * (x - m) <= sum (map (fun x => (x - m) * (x - m)) v).
Proof.
  induction v as [|y v IH]; [easy|]. intros [-> | H]; cbn [map].
  - change ((x - m) * (x - m) <=
            (x - m) * (x - m) + sum (map (fun x => (x - m) * (x - m)) v)).
    pose proof (sum_squares_nonneg m v). lra.
  - change ((x - m) * (x - m) <=
            (y - m) * (y - m) + sum (map (fun x => (x - m) * (x - m)) v)).
    pose proof (Rle_0_sqr (y - m)) as Hy. unfold Rsqr in Hy.
    specialize (IH H). lra.
Qed.

(** Layer normalization forgets where its input sits and how large it is:
    adding one constant to every entry of the input does not change
    [normalized], and (with [epsilon > 0]) the square of every entry of
    [normalized] is below the number of entries, however large the input
    is. *)
Theorem normalized_shift_and_bound (eps c : R) (inputs : vec) :
  normalized eps (map (fun x => x + c) inputs) = normalized eps inputs /\
  (0 < eps ->
   Forall (fun z => z * z < INR (length inputs)) (normalized eps inputs)).
Proof.
  split.
  - destruct inputs as [|x0 v0] eqn:E; [reflexivity|]. rewrite <- E.
    assert (Hne : inputs <> []) by (rewrite E; discriminate).
    unfold normalized. rewrite (moments_shift c inputs Hne).
    destruct (moments inputs) as [mean variance]. cbn [fst snd].
    rewrite map_map. apply map_ext. intros x. unfold Rdiv. ring.
  - intros Heps. apply Forall_forall. intros z Hz.
    destruct inputs as [|x0 v0] eqn:E; [easy|]. rewrite <- E in *.
    assert (Hne : inputs <> []) by (rewrite E; discriminate).
    rewrite (normalized_eq eps Heps inputs Hne) in Hz.
    apply in_map_iff in Hz. destruct Hz as (x & <- & Hx).
    pose proof (INR_length_pos inputs Hne) as Hn.
    pose proof (variance_nonneg inputs Hne) as Hv.
    pose proof (sqrt_variance_pos eps Heps inputs Hne) as Hs.
    pose proof (square_le_sum_squares (fst (moments inputs)) x inputs Hx)
      as Hsq.
    set (mean := fst (moments inputs)) in *.
    set (variance := snd (moments inputs)) in *.
    assert (Hss : sqrt (variance + eps) * sqrt (variance + eps) =
                  variance + eps) by (apply sqrt_sqrt; lra).
    assert (Hvar : sum (map (fun x => (x - mean) * (x - mean)) inputs) =
                   INR (length inputs) * variance).
    { unfold variance, mean, moments. cbn [fst snd]. unfold reduce_mean.
      rewrite length_map. field. lra. }
    set (s := sqrt (variance + eps)) in *.
    replace ((x - mean) / s * ((x - mean) / s))
      with ((x - mean) * (x - mean) / (variance + eps))
      by (rewrite <- Hss; field; lra).
    apply Rmult_lt_reg_r with (variance + eps); [lra|].
    unfold Rdiv. rewrite Rmult_assoc, Rinv_l by lra.
    rewrite Hvar in Hsq. nra.
Qed.

Lemma normalized_shift_and_bound_witness :
  Forall (fun z => z * z < INR (length [1; 3])) (normalized epsilon [1; 3]).
Proof.
  apply (proj2 (normalized_shift_and_bound epsilon 0 [1; 3])).
  unfold epsilon. lra.
Defined.

(** ** When [gat_attention] fails *)

(** [gat_attention] yields a result exactly when the number of heads is
    positive and divides [num_units], [k] is at most the number of fields,
    and neither the fed batch nor the field axis has size 1 (so that
    [tf.squeeze] removes the last axis only).  In every other case the call
    raises: nothing is returned and nothing else goes wrong. *)
Theorem gat_attention_returns_iff (W : block_weights) (batch : nat)
    (queries : vec) (values : mat) (num_units num_heads k field : nat)
    (has_residual : bool) :
  ((exists r,
      gat_attention W batch queries values num_units num_heads k field
        has_residual = Returns r) <->
   (0 < num_heads)%nat /\ (num_units mod num_heads = 0)%nat /\
   (k <= length values)%nat /\ batch <> 1%nat /\ length values <> 1%nat) /\
  ((forall r,
      gat_attention W batch queries values num_units num_heads k field
        has_residual <> Returns r) ->
   exists e,
     gat_attention W batch queries values num_units num_heads k field
       has_residual = Raises e).
Proof.
  split; [split|].
  - intros (r & Hr). unfold gat_attention in Hr.
    unfold tf_split in Hr at 1.
    destruct (Nat.eqb_spec num_heads 0) as [E0|N0];
      [cbn [orb bind] in Hr; discriminate|].
    rewrite Nat.Div0.mod_same in Hr. cbn [Nat.eqb negb orb bind] in Hr.
    unfold tf_split in Hr at 1.
    destruct (Nat.eqb_spec num_heads 0) as [E0|_]; [easy|].
    destruct (Nat.eqb_spec (num_units mod num_heads) 0) as [Hd|Hd];
      [|cbn [negb orb bind] in Hr; discriminate].
    cbn [negb orb bind] in Hr.
    unfold graph_structure_selector, top_k in Hr.
    rewrite gsl_scores_length in Hr.
    destruct (Nat.leb_spec k (length values)) as [Hk|Hk];
      [|cbn [bind] in Hr; discriminate].
    cbn [bind] in Hr. unfold squeeze_keeps_batch_and_fields in Hr.
    destruct (Nat.eqb_spec batch 1) as [Eb|Nb];
      [cbn [negb andb] in Hr; discriminate|].
    destruct (Nat.eqb_spec (length values) 1) as [Ef|Nf];
      [cbn [negb andb] in Hr; discriminate|].
    repeat split; auto. lia.
  - intros (Hh & Hd & Hk & Hb & Hf). now apply gat_attention_returns.
  - intros Hno. unfold gat_attention in *.
    destruct (tf_split _ num_heads num_heads) as [A_|e|] eqn:EA;
      cbn [bind] in *; [|eauto|].
    + destruct (tf_split _ num_units num_heads) as [H_|e|] eqn:EH;
        cbn [bind] in *; [|eauto|].
      * destruct (graph_structure_selector _ k) as [S|e|] eqn:ES;
          cbn [bind] in *; [|eauto|].
        -- destruct (negb (squeeze_keeps_batch_and_fields batch
                             (length values))); [eauto|].
           exfalso. eapply Hno. reflexivity.
        -- unfold graph_structure_selector, top_k in ES.
           destruct (k <=? _)%nat; discriminate.
      * unfold tf_split in EH.
        destruct ((num_heads =? 0)%nat || _); discriminate.
    + unfold tf_split in EA.
      destruct ((num_heads =? 0)%nat || _); discriminate.
Qed.

Lemma gat_attention_returns_iff_witness :
  exists e,
    gat_attention zero_block 1 [1; 2] two_fields 2 1 1 0 true = Raises e.
Proof.
  apply (proj2 (gat_attention_returns_iff zero_block 1 [1; 2] two_fields
                  2 1 1 0 true)).
  intros r. discriminate.
Defined.

(** ** The visibility tensor [v_list] of the whole stack *)

Lemma masked_scores_range (g : R -> bool) (S : vec) :
  Forall (fun s => 0 < s < 1) S ->
  Forall (fun x => 0 <= x < 1)
         (zip_with Rmult S (map (fun s => cast_float (g s)) S)).
Proof.
  induction 1 as [|s S Hs _ IH]; cbn [map zip_with]; constructor;
    [|exact IH].
  destruct (g s); simpl; lra.
Qed.

Lemma selector_row (scores vis : vec) (k : nat) :
  Forall (fun s => 0 < s < 1) scores ->
  graph_structure_selector scores k = Returns vis ->
  length vis = length scores /\ Forall (fun x => 0 <= x < 1) vis /\
  (k <= count_nonzero vis)%nat.
Proof.
  intros HS H. split; [now apply selector_length in H|]. split.
  - unfold graph_structure_selector in H.
    destruct (top_k scores k) as [values| |]; cbn [bind] in H;
      try discriminate.
    injection H as <-. now apply masked_scores_range.
  - destruct (Nat.eq_dec k 0) as [->|Hk0]; [lia|].
    assert (Hk : (1 <= k <= length scores)%nat).
    { unfold graph_structure_selector, top_k in H.
      destruct (Nat.leb_spec k (length scores)); [lia|discriminate]. }
    destruct (top_k_cutoff scores k Hk) as (t & Etop & Emin & _ & Hge & _).
    unfold graph_structure_selector in H. rewrite Etop in H.
    cbn [bind] in H. rewrite Emin, masked_row in H. injection H as <-.
    rewrite count_nonzero_masked_row; [exact Hge|].
    eapply Forall_impl; [|exact HS]. simpl. intros s Hs. lra.
Qed.

Lemma field_step_vis (cfg : config) (W : weights) (batch i : nat) (h : mat)
    (j : nat) (r : vec * vec) :
  field_step cfg W batch i h j = Returns r ->
  exists k, nth_error (ks cfg) i = Some k /\
            length (snd r) = length h /\
            Forall (fun x => 0 <= x < 1) (snd r) /\
            (k <= count_nonzero (snd r))%nat.
Proof.
  unfold field_step, tf_row, py_index.
  destruct (nth_error h j) as [state|]; cbn [bind]; [|discriminate].
  destruct (nth_error (block_shape cfg) i) as [u|]; cbn [bind];
    [|discriminate].
  destruct (nth_error (ks cfg) i) as [k|]; cbn [bind]; [|discriminate].
  intros Hr. apply gat_attention_vis in Hr.
  apply selector_row in Hr; [|apply gsl_scores_range].
  rewrite gsl_scores_length in Hr.
  assert (L : length (bmul [state] h) = length h)
    by (unfold bmul; apply length_map).
  rewrite L in Hr. exists k. split; [reflexivity|exact Hr].
Qed.

Lemma block_loop_vis (cfg : config) (W : weights) (batch : nat)
    (layers : list nat) :
  forall (h : mat) (hl vl hl' vl' : list mat),
    block_loop cfg W batch layers h hl vl = Returns (hl', vl') ->
    length h = field_size cfg ->
    exists vs, vl' = vl ++ vs /\ Forall2 (vis_block cfg) layers vs.
Proof.
  induction layers as [|i layers IH]; intros h hl vl hl' vl' H Lh;
    simpl in H.
  - injection H as <- <-. exists []. rewrite app_nil_r. split; constructor.
  - destruct (mapM (field_step cfg W batch i h) (seq 0 (field_size cfg)))
      as [sv| |] eqn:EM; cbn [bind] in H; try discriminate.
    destruct sv as [|r0 sv]; [discriminate|].
    cbn [map tf_concat_rows bind] in H.
    apply mapM_inv in EM.
    pose proof (Forall2_length_eq _ _ _ EM) as Ls. rewrite length_seq in Ls.
    apply IH in H; [|cbn [length]; rewrite length_map; simpl in Ls; lia].
    destruct H as (vs & -> & HF).
    exists ((snd r0 :: map snd sv) :: vs). rewrite <- app_assoc.
    split; [reflexivity|]. constructor; [|exact HF].
    assert (Hall : Forall (fun r : vec * vec =>
                     exists k, nth_error (ks cfg) i = Some k /\
                       length (snd r) = length h /\
                       Forall (fun x => 0 <= x < 1) (snd r) /\
                       (k <= count_nonzero (snd r))%nat) (r0 :: sv)).
    { clear - EM. revert EM. generalize (seq 0 (field_size cfg)).
      generalize (r0 :: sv). intros rs js HM.
      induction HM as [|j r js rs Hj _ IHM]; constructor; [|exact IHM].
      now apply field_step_vis in Hj. }
    change (snd r0 :: map snd sv) with (map snd (r0 :: sv)).
    inversion Hall as [|r0' sv' (k & Hk & _) _]; subst.
    exists k. split; [exact Hk|].
    unfold has_shape. rewrite length_map.
    repeat split; [now rewrite <- Ls| | |]; apply Forall_forall;
      intros row Hrow; apply in_map_iff in Hrow;
      destruct Hrow as (r & <- & Hr); rewrite Forall_forall in Hall;
      destruct (Hall r Hr) as (k' & Hk' & Hlen & Hrange & Hcount).
    + now rewrite Hlen.
    + exact Hrange.
    + rewrite Hk in Hk'. injection Hk' as <-. exact Hcount.
Qed.

Lemma Forall2_seq_nth {B : Type} (P : nat -> B -> Prop) (l : list B) :
  forall (s n i : nat) (b : B),
    Forall2 P (seq s n) l -> nth_error l i = Some b -> P (s + i)%nat b.
Proof.
  induction l as [|x l IH]; intros s n i b H Hi; [destruct i; discriminate|].
  destruct n as [|n]; [inversion H|]. simpl in H.
  inversion H as [|? ? ? ? Hx Hl]; subst.
  destruct i as [|i]; simpl in Hi.
  - injection Hi as <-. now rewrite Nat.add_0_r.
  - replace (s + S i)%nat with (S s + i)%nat by lia. eapply IH; eauto.
Qed.

Lemma embeddings_length (cfg : config) (W : weights) (feat_index : list nat)
    (feat_value : vec) (e : mat) :
  embeddings cfg W feat_index feat_value = Returns e ->
  length feat_index = field_size cfg -> length e = field_size cfg.
Proof.
  unfold embeddings, embedding_lookup. intros H L.
  destruct (mapM _ feat_index) as [rows| |] eqn:ER; cbn [bind] in H;
    try discriminate.
  apply mapM_inv, Forall2_length_eq in ER.
  unfold tf_reshape_col in H.
  destruct (Nat.eqb_spec (length feat_value) (field_size cfg)) as [Lv|];
    cbn [bind] in H; [|discriminate].
  unfold tf_multiply in H.
  destruct ((length rows =? _)%nat || _ || _); [|discriminate].
  injection H as <-. rewrite bmul_length.
  - lia.
  - unfold expand_dims. rewrite length_map. lia.
Qed.

(** The visibility tensor a run yields for a sample with [field_size]
    indices has the shape [[blocks, field_size, field_size]] that
    [visualize] reshapes it to; every entry lies in [[0, 1)], and every row
    of block [i] (the fields visible to one query field) has at least
    [ks[i]] non-zero entries. *)
Theorem v_list_shape_and_sparsity (cfg : config) (W : weights) (batch : nat)
    (feat_index : list nat) (feat_value : vec) (r : graph_run) :
  length feat_index = field_size cfg ->
  run_graph cfg W batch feat_index feat_value = Returns r ->
  length (v_list r) = blocks cfg /\
  forall i v, nth_error (v_list r) i = Some v ->
    exists k, nth_error (ks cfg) i = Some k /\
              has_shape (field_size cfg) (field_size cfg) v /\
              Forall (Forall (fun x => 0 <= x < 1)) v /\
              Forall (fun row => (k <= count_nonzero row)%nat) v.
Proof.
  intros Li Hr. unfold run_graph, run_logit in Hr.
  destruct (embeddings cfg W feat_index feat_value) as [e| |] eqn:Ee;
    cbn [bind] in Hr; try discriminate.
  pose proof (embeddings_length _ _ _ _ _ Ee Li) as Le.
  unfold run_flat in Hr.
  destruct (block_loop cfg W batch (seq 0 (blocks cfg)) e [] [])
    as [[hl vl]| |] eqn:EB; cbn [bind] in Hr; try discriminate.
  destruct (tf_concat_last hl) as [y_deep| |]; cbn [bind] in Hr;
    try discriminate.
  destruct (tf_matmul_col _ (prediction W)) as [o| |]; cbn [bind] in Hr;
    try discriminate.
  injection Hr as <-. cbn [v_list].
  destruct (block_loop_vis _ _ _ _ _ _ _ _ _ EB Le) as (vs & -> & HF).
  cbn [app]. split.
  - apply Forall2_length_eq in HF. now rewrite length_seq in HF.
  - intros i v Hv. apply (Forall2_seq_nth _ _ _ _ _ _ HF Hv).
Qed.

Lemma v_list_shape_and_sparsity_witness :
  exists r,
    run_graph genre_cfg genre_weights 4 [0; 0]%nat [1; 1] = Returns r /\
    length (v_list r) = blocks genre_cfg.
Proof.
  destruct (run_graph_returns genre_cfg genre_weights 4 [0; 0]%nat [1; 1])
    as (r & Hr).
  - exact genre_cfg_valid.
  - discriminate.
  - discriminate.
  - reflexivity.
  - exact genre_sample_well_formed.
  - exists r. split; [exact Hr|].
    apply (v_list_shape_and_sparsity genre_cfg genre_weights 4 [0; 0]%nat
             [1; 1] r eq_refl Hr).
Defined.

(** ** [visualize] *)

Lemma mapM_seq_shift {B : Type} (f : nat -> outcome B) (n : nat) :
  forall s, mapM f (seq (S s) n) = mapM (fun i => f (S i)) (seq s n).
Proof.
  induction n as [|n IH]; intros s; simpl; [reflexivity|].
  now rewrite IH.
Qed.

Lemma record_batch_zip {SI SV : Type} (f : SI -> SV -> R)
    (g : SI -> SV -> list mat) (bi : list SI) :
  forall (bv : list SV),
    length bv = length bi ->
    record_batch (length bi) bi bv (repeat [1%nat] (length bi))
      (zip_with f bi bv) (zip_with g bi bv) =
    Returns (zip_with (fun xi xv =>
                         Build_vis_record xi xv [1%nat] (f xi xv) (g xi xv))
                      bi bv).
Proof.
  unfold record_batch.
  induction bi as [|x bi IH]; intros [|y bv] L; simpl in L; try discriminate;
    [reflexivity|].
  cbn [length seq repeat zip_with mapM].
  unfold py_index at 1 2 3 4 5. cbn [nth_error bind].
  rewrite mapM_seq_shift.
  erewrite mapM_ext_in; [rewrite (IH bv) by lia; reflexivity|].
  intros i _. reflexivity.
Qed.

Lemma slice_repeat {A : Type} (x : A) (n a b : nat) :
  slice (repeat x n) a b = repeat x (Nat.min (b - a) (n - a)).
Proof.
  unfold slice.
  assert (Sk : forall m k, skipn k (repeat x m) = repeat x (m - k)).
  { induction m as [|m IHm]; intros [|k]; simpl; auto. }
  assert (Fi : forall m k, firstn k (repeat x m) = repeat x (Nat.min k m)).
  { induction m as [|m IHm]; intros [|k]; simpl; auto. now rewrite IHm. }
  now rewrite Sk, Fi.
Qed.

Lemma flatten_vis_length (w : nat) (batch_vis : list (list mat)) :
  Forall (fun s => length (concat (map (@concat R) s)) = w) batch_vis ->
  length (flatten_vis batch_vis) = (length batch_vis * w)%nat.
Proof.
  intros H. unfold flatten_vis. rewrite (concat_length_const w).
  - now rewrite length_map.
  - apply Forall_forall. intros l Hl. apply in_map_iff in Hl.
    destruct Hl as (s & <- & Hs). rewrite Forall_forall in H. now apply H.
Qed.

Section VisualizeProps.

Context {SI SV : Type}.
Variables bs blocks F : nat.
Variable run_out_vis : list SI -> list SV -> outcome (list R * list (list mat)).
Variable Xi : list SI.
Variable Xv : list SV.
Variable f : SI -> SV -> R.
Variable g : SI -> SV -> list mat.

Let mk (xi : SI) (xv : SV) : vis_record SI SV :=
  Build_vis_record xi xv [1%nat] (f xi xv) (g xi xv).

Lemma zip_with_vis_size (li : list SI) (lv : list SV) :
  (forall xi xv,
     length (concat (map (@concat R) (g xi xv))) = (blocks * F * F)%nat) ->
  Forall (fun s => length (concat (map (@concat R) s)) = (blocks * F * F)%nat)
         (zip_with g li lv).
Proof.
  intros Hsize. revert lv.
  induction li as [|x li IH]; intros [|y lv]; simpl; constructor; auto.
Qed.

Lemma visualize_loop_in_order (fuel i : nat) (y_pred vis : pyarray) :
  (0 < bs)%nat -> length Xv = length Xi ->
  (forall xi xv,
     length (concat (map (@concat R) (g xi xv))) = (blocks * F * F)%nat) ->
  (forall bi bv,
     run_out_vis bi bv = Returns (zip_with f bi bv, zip_with g bi bv)) ->
  (length Xi - i * bs < fuel)%nat ->
  i = 0%nat \/ (exists a b, y_pred = NdArray a /\ vis = NdArray b) ->
  visualize_loop bs blocks F run_out_vis fuel Xi Xv
    (repeat 1%nat (length Xi)) i
    (get_batch Xi Xv (repeat 1%nat (length Xi)) bs i) y_pred vis
    (zip_with mk (firstn (i * bs) Xi) (firstn (i * bs) Xv)) =
  Returns (zip_with mk Xi Xv).
Proof.
  intros Hbs Hv Hsize Hrun. revert i y_pred vis.
  induction fuel as [|fuel IH]; intros i y_pred vis Hfuel Hinv; [lia|].
  rewrite get_batch_eq. cbn [visualize_loop].
  destruct (batch_length bs Xi i) as [L1 L2]. rewrite L1, L2.
  set (stop := Nat.min ((i + 1) * bs) (length Xi)) in *.
  assert (Hstop : stop = Nat.min ((i + 1) * bs) (length Xi)) by reflexivity.
  set (bi := slice Xi (i * bs) stop) in *.
  set (bv := slice Xv (i * bs) stop) in *.
  assert (Lv : length bv = (stop - i * bs)%nat).
  { unfold bv. rewrite slice_length, Hv. lia. }
  destruct (Nat.ltb_spec 0 (stop - i * bs)) as [Hne|He].
  - rewrite Hrun. cbn [bind]. unfold np_reshape, np_reshape_vis.
    rewrite zip_with_length, L1, Lv, Nat.min_id, Nat.eqb_refl.
    rewrite (flatten_vis_length (blocks * F * F))
      by now apply zip_with_vis_size.
    rewrite zip_with_length, L1, Lv, Nat.min_id.
    replace ((stop - i * bs) * blocks * F * F)%nat
      with ((stop - i * bs) * (blocks * F * F))%nat by lia.
    rewrite Nat.eqb_refl.
    assert (Hrec : record_batch (stop - i * bs) bi bv
                     (map (fun y_ : nat => [y_])
                        (slice (repeat 1%nat (length Xi)) (i * bs) stop))
                     (zip_with f bi bv) (zip_with g bi bv) =
                   Returns (zip_with mk bi bv)).
    { rewrite slice_repeat, map_repeat.
      replace (Nat.min (stop - i * bs) (length Xi - i * bs))
        with (stop - i * bs)%nat by lia.
      rewrite <- L1 at 1 2. apply record_batch_zip. now rewrite Lv, L1. }
    assert (Hnext : (length Xi - (i + 1) * bs < fuel)%nat) by lia.
    assert (Hpre : zip_with mk (firstn ((i + 1) * bs) Xi)
                     (firstn ((i + 1) * bs) Xv) =
                   zip_with mk (firstn (i * bs) Xi) (firstn (i * bs) Xv) ++
                   zip_with mk bi bv).
    { rewrite <- zip_with_app by (rewrite !length_firstn; lia).
      unfold bi, bv. rewrite <- !firstn_slice by lia.
      replace (firstn stop Xi) with (firstn ((i + 1) * bs) Xi)
        by (rewrite Hstop; now rewrite firstn_min_length).
      replace (firstn stop Xv) with (firstn ((i + 1) * bs) Xv)
        by (rewrite Hstop, <- Hv; now rewrite firstn_min_length).
      reflexivity. }
    destruct (Nat.eqb_spec i 0) as [->|Hi].
    + cbn [bind]. rewrite Hrec. cbn [bind fst snd].
      rewrite <- Hpre. apply IH; [exact Hnext|]. right. eauto.
    + destruct Hinv as [-> | (a & b & -> & ->)]; [easy|].
      cbn [bind np_concatenate]. rewrite Hrec. cbn [bind fst snd].
      rewrite <- Hpre. apply IH; [exact Hnext|]. right. eauto.
  - rewrite !firstn_all2; [reflexivity| |]; lia.
Qed.

End VisualizeProps.

(** [visualize] returns one record per sample, in input order, whatever the
    batch size: the sample's indices and values, the label [[1]], the
    sample's output and its visibility tensor.  The label is the dummy one:
    the argument [y] is not read, so two calls that differ in [y] only give
    the same list.  On an empty input the list is empty.  What [np.save]
    raises is raised by [visualize]. *)
Theorem visualize_records (SI SV Y : Type) (batch_size blocks field_size : nat)
    (run_out_vis : list SI -> list SV -> outcome (list R * list (list mat)))
    (np_save : list (vis_record SI SV) -> outcome unit)
    (f : SI -> SV -> R) (g : SI -> SV -> list mat)
    (Xi : list SI) (Xv : list SV) (y : list Y) :
  (0 < batch_size)%nat -> length Xv = length Xi ->
  (forall xi xv,
     length (concat (map (@concat R) (g xi xv))) =
     (blocks * field_size * field_size)%nat) ->
  (forall bi bv,
     run_out_vis bi bv = Returns (zip_with f bi bv, zip_with g bi bv)) ->
  let records :=
    zip_with (fun xi xv => Build_vis_record xi xv [1%nat] (f xi xv) (g xi xv))
             Xi Xv in
  length records = length Xi /\
  (np_save records = Returns tt ->
   visualize batch_size blocks field_size run_out_vis np_save Xi Xv y =
   Returns records) /\
  (forall e, np_save records = Raises e ->
   visualize batch_size blocks field_size run_out_vis np_save Xi Xv y =
   Raises e) /\
  (forall (Y' : Type) (y' : list Y'),
     visualize batch_size blocks field_size run_out_vis np_save Xi Xv y' =
     visualize batch_size blocks field_size run_out_vis np_save Xi Xv y).
Proof.
  intros Hbs Hv Hsize Hrun records.
  assert (Hloop :
    visualize_loop batch_size blocks field_size run_out_vis
      (S (length Xi)) Xi Xv (repeat 1%nat (length Xi)) 0
      (get_batch Xi Xv (repeat 1%nat (length Xi)) batch_size 0)
      PyNone PyNone [] = Returns records).
  { apply (visualize_loop_in_order batch_size blocks field_size run_out_vis
             Xi Xv f g (S (length Xi)) 0 PyNone PyNone); auto. lia. }
  split; [|split; [|split]].
  - unfold records. rewrite zip_with_length, Hv. apply Nat.min_id.
  - intros Hs. unfold visualize. rewrite Hloop. cbn [bind]. now rewrite Hs.
  - intros e Hs. unfold visualize. rewrite Hloop. cbn [bind]. now rewrite Hs.
  - intros Y' y'. reflexivity.
Qed.

Lemma visualize_records_witness :
  visualize 2 1 1 (fun bi bv => Returns (zip_with half bi bv,
                                         zip_with (fun _ _ => [[[0]]]) bi bv))
    (fun _ => Returns tt) [1; 2; 3]%nat [4; 5; 6]%nat [0; 0; 1] =
  Returns (zip_with (fun xi xv => Build_vis_record xi xv [1%nat] (half xi xv)
                                    [[[0]]])
                    [1; 2; 3]%nat [4; 5; 6]%nat).
Proof.
  apply (proj1 (proj2 (visualize_records nat nat R 2 1 1
                         (fun bi bv => Returns (zip_with half bi bv,
                            zip_with (fun _ _ => [[[0]]]) bi bv))
                         (fun _ => Returns tt) half (fun _ _ => [[[0]]])
                         [1; 2; 3]%nat [4; 5; 6]%nat [0; 0; 1]
                         ltac:(lia) eq_refl (fun _ _ => eq_refl)
                         (fun _ _ => eq_refl)))).
  reflexivity.
Defined.

(** ** The side network: the shapes of [_initialize_weights] fit
    [_init_graph] *)

Lemma glorot_none (a b : nat) :
  glorot a b = None <-> (a + b = 0)%nat.
Proof.
  unfold glorot. destruct (Nat.eqb_spec (a + b) 0); split; intros H;
    try discriminate; auto. lia.
Qed.

Lemma init_layers_zero_division (z_layer z_bias : nat -> nat -> nat -> R)
    (sizes : list nat) :
  forall i prev,
    (init_layers z_layer z_bias i prev sizes = RaisesZeroDivisionError <->
     zero_pair prev sizes = true) /\
    init_layers z_layer z_bias i prev sizes <> RaisesIndexError.
Proof.
  induction sizes as [|size sizes IH]; intros i prev; cbn [init_layers zero_pair].
  - split; [split|]; discriminate.
  - unfold glorot. destruct (Nat.eqb_spec (prev + size) 0) as [E|N].
    + split; [split; auto|discriminate].
    + cbn [orb]. destruct (IH (S i) size) as [Hz Hi].
      destruct (init_layers z_layer z_bias (S i) size sizes) as [rest| |].
      * split; [|discriminate]. rewrite <- Hz. split; discriminate.
      * now contradiction Hi.
      * split; [|discriminate]. rewrite <- Hz. split; auto.
Qed.

Lemma tf_add_row_length (y : vec) (bias : tensor2) :
  length y = ncols bias ->
  exists y', tf_add_row y bias = Returns y' /\ length y' = ncols bias.
Proof.
  intros L. unfold tf_add_row. rewrite length_map, length_seq, L.
  rewrite Nat.eqb_refl. eexists. split; [reflexivity|].
  rewrite zip_with_length, length_map, length_seq. lia.
Qed.

Lemma last_default {A : Type} (l : list A) (a b : A) :
  l <> [] -> last l a = last l b.
Proof.
  induction l as [|x l IH]; [easy|]. intros _.
  destruct l as [|x' l]; [reflexivity|]. apply IH. discriminate.
Qed.

Lemma init_layers_chain (z_layer z_bias : nat -> nat -> nat -> R)
    (sizes : list nat) :
  forall i prev stack,
    init_layers z_layer z_bias i prev sizes = Built stack ->
    length stack = length sizes /\
    forall y, length y = prev ->
      exists y', dense_stack stack y = Returns y' /\
                 length y' = last sizes prev.
Proof.
  induction sizes as [|size sizes IH]; intros i prev stack H;
    cbn [init_layers] in H.
  - injection H as <-. split; [reflexivity|]. intros y Ly. exists y.
    split; [reflexivity|exact Ly].
  - destruct (glorot prev size) as [scale|]; [|discriminate].
    destruct (init_layers z_layer z_bias (S i) size sizes) as [rest| |] eqn:E;
      try discriminate.
    injection H as <-. destruct (IH _ _ _ E) as [Lr Hr].
    split; [simpl; now rewrite Lr|].
    intros y Ly. cbn [dense_stack]. unfold tf_matmul_row.
    cbn [np_random_normal nrows ncols]. rewrite Ly, Nat.eqb_refl.
    cbn [bind].
    destruct (tf_add_row_length
                (map (fun j => sum (imap (fun i0 yi =>
                        yi * entry (np_random_normal scale (z_layer i) prev
                                      size) i0 j) y)) (seq 0 size))
                (np_random_normal scale (z_bias i) 1 size))
      as (y1 & E1 & L1); [now rewrite length_map, length_seq|].
    cbn [np_random_normal ncols entry] in E1, L1 |- *.
    rewrite E1. cbn [bind].
    destruct (Hr (map relu y1)) as (y' & Ey & Ly');
      [now rewrite length_map|].
    exists y'. split; [exact Ey|].
    rewrite Ly'. destruct sizes as [|size' sizes]; [reflexivity|].
    change (last (size :: size' :: sizes) prev)
      with (last (size' :: sizes) prev).
    apply last_default. discriminate.
Qed.

(** The deep side network.  [_initialize_weights] fails with an
    [IndexError] when [deep_layers] is the empty list, and with a
    [ZeroDivisionError] exactly when two neighbours of the chain
    [field_size * embedding_size, deep_layers[0], deep_layers[1], ...] are
    both 0; it creates nothing when [deep_layers] is [None].  In every other
    case it creates one layer per entry of [deep_layers], and the shapes fit:
    for every sample whose embeddings have shape
    [[field_size, embedding_size]], every [tf.matmul] and [tf.add] of
    [y_dense] is well-shaped and [y_dense] is one number. *)
Theorem deep_network_shapes_fit (cfg : config)
    (z_layer z_bias : nat -> nat -> nat -> R) (z_prediction : nat -> nat -> R)
    (z_prediction_bias : R) :
  let init := _initialize_deep_weights cfg z_layer z_bias z_prediction
                z_prediction_bias in
  let layer0_size := (field_size cfg * embedding_size cfg)%nat in
  (deep_layers cfg = None -> init = Built None) /\
  (deep_layers cfg = Some [] -> init = RaisesIndexError) /\
  (forall sizes, deep_layers cfg = Some sizes -> sizes <> [] ->
     (init = RaisesZeroDivisionError <-> zero_pair layer0_size sizes = true) /\
     init <> RaisesIndexError /\ init <> Built None /\
     forall dw, init = Built (Some dw) ->
       length (deep_stack dw) = length sizes /\
       forall e, has_shape (field_size cfg) (embedding_size cfg) e ->
         exists v, y_dense cfg dw e = Returns v).
Proof.
  intros init layer0_size. unfold init, _initialize_deep_weights.
  split; [intros ->; reflexivity|]. split; [intros ->; reflexivity|].
  intros sizes -> Hne. destruct sizes as [|size0 sizes]; [easy|].
  fold layer0_size.
  destruct (init_layers_zero_division z_layer z_bias (size0 :: sizes) 0
              layer0_size) as [Hz Hi].
  pose proof (init_layers_chain z_layer z_bias (size0 :: sizes) 0
                layer0_size) as Hc.
  destruct (init_layers z_layer z_bias 0 layer0_size (size0 :: sizes))
    as [stack| |].
  - assert (G : glorot (last (size0 :: sizes) 0%nat) 1 <> None)
      by (rewrite glorot_none; lia).
    destruct (glorot (last (size0 :: sizes) 0%nat) 1) as [scale|]; [|easy].
    split; [rewrite <- Hz; split; discriminate|].
    split; [discriminate|]. split; [discriminate|].
    intros dw [= <-]. cbn [deep_stack].
    destruct (Hc stack eq_refl) as [Ls Hrun]. split; [exact Ls|].
    intros e [Le He]. unfold y_dense.
    assert (Lc : length (concat e) = layer0_size).
    { rewrite (concat_length_const (embedding_size cfg)) by exact He.
      unfold layer0_size. rewrite <- Le. reflexivity. }
    fold layer0_size. rewrite Lc, Nat.eqb_refl. cbn [negb deep_stack].
    destruct (Hrun (concat e) Lc) as (y' & -> & Ly'). cbn [bind].
    unfold tf_matmul_row. cbn [prediction_dense np_random_normal nrows].
    rewrite Ly', (last_default _ layer0_size 0%nat) by discriminate.
    rewrite Nat.eqb_refl. cbn [bind]. eauto.
  - now contradiction Hi.
  - split; [rewrite <- Hz; split; auto|].
    split; [discriminate|]. split; [discriminate|]. intros dw H.
    discriminate.
Qed.

Lemma deep_network_shapes_fit_witness :
  exists dw,
    _initialize_deep_weights deep_cfg (fun _ _ _ => 1) (fun _ _ _ => 0)
      (fun _ _ => 1) 0 = Built (Some dw) /\
    exists v, y_dense deep_cfg dw [[1; 2]; [3; 4]] = Returns v.
Proof.
  eexists. split; [reflexivity|].
  apply (proj2 (proj2 (proj2
           (proj2 (proj2 (deep_network_shapes_fit deep_cfg (fun _ _ _ => 1)
                            (fun _ _ _ => 0) (fun _ _ => 1) 0))
              [3; 1]%nat eq_refl ltac:(discriminate)))) _ eq_refl).
  split; [reflexivity|repeat constructor].
Defined.

(** ** The loss *)

Lemma cosh_pos (x : R) : 0 < cosh x.
Proof.
  unfold cosh. pose proof (exp_pos x). pose proof (exp_pos (- x)). lra.
Qed.

Lemma cosh_gt_1 (x : R) : x <> 0 -> 1 < cosh x.
Proof.
  intros H. unfold cosh.
  pose proof (exp_ineq1 x H).
  assert (H' : - x <> 0) by lra.
  pose proof (exp_ineq1 (- x) H'). lra.
Qed.

Lemma cosh_opp (x : R) : cosh (- x) = cosh x.
Proof. unfold cosh. rewrite Ropp_involutive. lra. Qed.

Lemma cosh_increasing (a b : R) : 0 <= a -> a < b -> cosh a < cosh b.
Proof.
  intros Ha Hab. unfold cosh. rewrite !exp_Ropp.
  assert (Hu : 1 <= exp a).
  { destruct Ha as [Ha| <-]; [|rewrite exp_0; lra].
    left. rewrite <- exp_0. now apply exp_increasing. }
  assert (Huv : exp a < exp b) by now apply exp_increasing.
  set (u := exp a) in *. set (v := exp b) in *.
  assert (Hw : / u - / v = (v - u) * / (u * v)) by (field; lra).
  assert (Hw1 : / (u * v) < 1).
  { rewrite <- Rinv_1. apply Rinv_lt_contravar; nra. }
  assert (Hw0 : 0 < / (u * v)) by (apply Rinv_0_lt_compat; nra).
  nra.
Qed.

Lemma cosh_lt_cosh_1 (x : R) : -1 < x < 1 -> cosh x < cosh 1.
Proof.
  intros [H1 H2]. destruct (Rle_lt_dec 0 x) as [H|H].
  - now apply cosh_increasing.
  - rewrite <- cosh_opp. apply cosh_increasing; lra.
Qed.

Lemma log_cosh_eq (y_true y_pred : R) :
  log_cosh y_true y_pred = ln (cosh (y_pred - y_true)).
Proof.
  unfold log_cosh, softplus. set (x := y_pred - y_true).
  assert (E : cosh x = exp x * (1 + exp (- 2 * x)) / 2).
  { assert (P : exp x * exp (- 2 * x) = exp (- x))
      by (rewrite <- exp_plus; f_equal; ring).
    unfold cosh. rewrite <- P. field. }
  pose proof (exp_pos x) as Hx. pose proof (exp_pos (- 2 * x)) as H2.
  rewrite E. unfold Rdiv at 1. rewrite ln_mult; [|nra|lra].
  rewrite ln_mult by lra. rewrite ln_exp, ln_Rinv by lra. ring.
Qed.

Lemma sum_bounds (c : R) (l : list R) :
  l <> [] -> Forall (fun t => 0 < t < c) l ->
  0 < sum l < INR (length l) * c.
Proof.
  intros Hne H. induction H as [|t l Ht Hl IH]; [easy|].
  change (sum (t :: l)) with (t + sum l).
  change (length (t :: l)) with (S (length l)). rewrite S_INR.
  destruct l as [|t' l'].
  - simpl. lra.
  - assert (IH' : 0 < sum (t' :: l') < INR (length (t' :: l')) * c)
      by (apply IH; discriminate).
    lra.
Qed.

Lemma sum_squares_zero (t : list R) :
  0 <= sum (map (fun x => x * x) t) /\
  (sum (map (fun x => x * x) t) = 0 <-> Forall (fun x => x = 0) t).
Proof.
  induction t as [|x t [IH0 IH]].
  - simpl. split; [lra|]. split; [constructor|reflexivity].
  - cbn [map].
    change (sum (x * x :: map (fun x => x * x) t))
      with (x * x + sum (map (fun x => x * x) t)).
    pose proof (Rle_0_sqr x) as Hx. unfold Rsqr in Hx.
    split; [lra|]. split.
    + intros H. constructor; [nra|]. apply IH. lra.
    + intros H. inversion H as [|? ? Hx0 Ht]; subst.
      apply IH in Ht. rewrite Ht. ring.
Qed.

(** With [loss_type == "logloss"] the training loss is the log-cosh loss of
    the predictions, not the logarithmic loss: keras' formula equals
    [ln(cosh(out - label))] per sample, and for labels in [{0, 1}] and
    predictions strictly between 0 and 1 (as the sigmoid gives them) the
    loss of a non-empty batch lies strictly between 0 and [ln(cosh 1)],
    however wrong the predictions are. *)
Theorem logcosh_loss_bounds (label out : list R) :
  (forall y p, log_cosh y p = ln (cosh (p - y))) /\
  (label <> [] -> length label = length out ->
   Forall (fun y => y = 0 \/ y = 1) label ->
   Forall (fun p => 0 < p < 1) out ->
   0 < LogCosh label out < ln (cosh 1)).
Proof.
  split; [exact log_cosh_eq|].
  intros Hne L Hy Hp.
  assert (Hall : Forall (fun t => 0 < t < ln (cosh 1))
                        (zip_with log_cosh label out)).
  { clear Hne. revert out L Hp.
    induction Hy as [|y label Hy0 _ IH]; intros [|p out] L Hp;
      simpl in L; try discriminate; [constructor|].
    inversion Hp as [|? ? Hp0 Hp']; subst.
    cbn [zip_with]. constructor; [|apply IH; [lia|exact Hp']].
    rewrite log_cosh_eq.
    assert (Hd : p - y <> 0 /\ -1 < p - y < 1)
      by (destruct Hy0 as [-> | ->]; lra).
    destruct Hd as [Hd0 Hd1]. split.
    - rewrite <- ln_1. apply ln_increasing; [lra|now apply cosh_gt_1].
    - apply ln_increasing; [apply cosh_pos|now apply cosh_lt_cosh_1]. }
  assert (Hz : zip_with log_cosh label out <> []).
  { destruct label; [easy|]. destruct out; [discriminate|]. discriminate. }
  pose proof (sum_bounds _ _ Hz Hall) as [S0 S1].
  pose proof (INR_length_pos _ Hz) as Hn.
  unfold LogCosh, reduce_mean. split.
  - apply Rdiv_lt_0_compat; assumption.
  - apply Rmult_lt_reg_r with (INR (length (zip_with log_cosh label out)));
      [exact Hn|].
    unfold Rdiv. rewrite Rmult_assoc, Rinv_l by lra. lra.
Qed.

Lemma logcosh_loss_bounds_witness :
  0 < LogCosh [0; 1] [/ 2; / 2] < ln (cosh 1).
Proof.
  apply (proj2 (logcosh_loss_bounds [0; 1] [/ 2; / 2])).
  - discriminate.
  - reflexivity.
  - constructor; [now left|constructor; [now right|constructor]].
  - repeat constructor; lra.
Defined.

Lemma fold_regularizers (l2_reg : R) (stack : list (tensor2 * tensor2)) :
  0 <= l2_reg ->
  forall loss,
    loss <= fold_left (fun loss lb => loss + l2_regularizer l2_reg (fst lb))
                      stack loss.
Proof.
  intros Hr. induction stack as [|lb stack IH]; intros loss; simpl; [lra|].
  eapply Rle_trans; [|apply IH].
  unfold l2_regularizer, l2_loss.
  destruct (sum_squares_zero (tensor_entries (fst lb))) as [H0 _]. nra.
Qed.

(** With [loss_type == "mse"] the loss is half the SUM of the squared
    errors of the batch: it is never negative, and it is 0 exactly when
    every prediction equals its label.  The l2 term is added only when
    [l2_reg > 0] and a side network exists, and it covers the side
    network's layers only: without [deep_layers] the loss does not depend
    on [l2_reg]; with it the loss never gets smaller. *)
Theorem mse_loss_and_regularizer (cfg : config) (l2_reg : R)
    (dw : deep_weights) (label out : list R) :
  (loss_type cfg = mse -> length label = length out ->
   0 <= training_loss cfg 0 dw label out /\
   (training_loss cfg 0 dw label out = 0 <-> label = out)) /\
  (deep_layers cfg = None ->
   training_loss cfg l2_reg dw label out =
   training_loss cfg 0 dw label out) /\
  training_loss cfg 0 dw label out <= training_loss cfg l2_reg dw label out.
Proof.
  assert (H0 : Rltb 0 0 = false).
  { unfold Rltb. destruct (Rlt_dec 0 0); [lra|reflexivity]. }
  split; [|split].
  - intros Hm L. unfold training_loss. rewrite H0, Hm. unfold l2_loss.
    destruct (sum_squares_zero (zip_with Rminus label out)) as [Hs Hz].
    split; [lra|]. split.
    + intros H. assert (Hs0 : sum (map (fun x => x * x)
                                     (zip_with Rminus label out)) = 0) by lra.
      apply Hz in Hs0. clear - L Hs0. revert out L Hs0.
      induction label as [|y label IH]; intros [|p out] L Hs0;
        simpl in L; try discriminate; [reflexivity|].
      cbn [zip_with] in Hs0. inversion Hs0 as [|? ? Hd Hrest]; subst.
      f_equal; [lra|]. apply IH; [lia|exact Hrest].
    + intros <-. assert (Hs0 : sum (map (fun x => x * x)
                                      (zip_with Rminus label label)) = 0).
      { apply Hz. clear. induction label as [|y label IH]; simpl;
          constructor; [lra|exact IH]. }
      lra.
  - intros Hd. unfold training_loss. rewrite H0, Hd.
    destruct (Rltb 0 l2_reg); reflexivity.
  - unfold training_loss. rewrite H0.
    destruct (Rltb 0 l2_reg) eqn:Hr; [|lra].
    apply Rltb_true in Hr.
    destruct (deep_layers cfg); [|lra].
    apply fold_regularizers. lra.
Qed.

Lemma mse_loss_and_regularizer_witness :
  training_loss genre_cfg3 1
    {| deep_stack := []; prediction_dense := np_random_normal 1 half 1 1;
       prediction_bias_dense := 0 |} [1; 0] [1; 0] =
  training_loss genre_cfg3 0
    {| deep_stack := []; prediction_dense := np_random_normal 1 half 1 1;
       prediction_bias_dense := 0 |} [1; 0] [1; 0].
Proof.
  apply (proj1 (proj2 (mse_loss_and_regularizer genre_cfg3 1
                         {| deep_stack := [];
                            prediction_dense := np_random_normal 1 half 1 1;
                            prediction_bias_dense := 0 |} [1; 0] [1; 0]))).
  reflexivity.
Defined.

(** ** The selector at its extremes *)

Lemma zip_with_mult_zero (a : vec) (b : vec) :
  length a = length b ->
  zip_with Rmult (map (fun _ => 0) a) b = map (fun _ => 0) a.
Proof.
  revert b. induction a as [|x a IH]; intros [|y b] L; simpl in L;
    try discriminate; [reflexivity|].
  cbn [map zip_with]. rewrite IH by lia. f_equal. ring.
Qed.

Lemma zip_with_mult_zero_r (a : vec) :
  zip_with Rmult a (map (fun _ => 0) a) = map (fun _ => 0) a.
Proof.
  induction a as [|x a IH]; [reflexivity|].
  cbn [map zip_with]. rewrite IH. f_equal. ring.
Qed.

Lemma sum_exp_zeros {A : Type} (l : list A) :
  sum (map exp (map (fun _ => 0) l)) = INR (length l).
Proof.
  induction l as [|x l IH]; [reflexivity|].
  cbn [map].
  change (exp 0 + sum (map exp (map (fun _ => 0) l)) = INR (S (length l))).
  rewrite IH, S_INR, exp_0. ring.
Qed.

Lemma selector_none (scores : vec) :
  graph_structure_selector scores 0 = Returns (map (fun _ => 0) scores).
Proof.
  unfold graph_structure_selector, top_k. cbn [Nat.leb firstn bind].
  cbn [reduce_min greater_equal cast_float].
  now rewrite zip_with_mult_zero_r.
Qed.

Lemma selector_all (scores : vec) :
  graph_structure_selector scores (length scores) = Returns scores.
Proof.
  unfold graph_structure_selector, top_k.
  rewrite Nat.leb_refl. cbn [bind].
  pose proof (sort_desc_perm scores) as HP.
  rewrite firstn_all2 by (rewrite (Permutation_length HP); lia).
  destruct scores as [|s0 scores'] eqn:E; [reflexivity|]. rewrite <- E in *.
  destruct (reduce_min_spec (sort_desc scores)) as (t & -> & _ & Hall).
  { intros H0. rewrite H0 in HP. apply Permutation_nil in HP.
    rewrite E in HP. discriminate. }
  rewrite masked_row. apply (f_equal Returns).
  rewrite <- (map_id scores) at 2. apply map_ext_in. intros s Hs.
  assert (Hts : t <= s).
  { rewrite Forall_forall in Hall. apply Hall.
    apply (Permutation_in _ (Permutation_sym HP)). exact Hs. }
  apply Rgeb_true in Hts. now rewrite Hts.
Qed.

(** The attention weights of every head when the selector's row is all
    zeros: [1 / field_size] on each field. *)
Lemma attention_weights_uniform (scores : vec) (A : mat) (num_heads : nat) :
  length scores = length A ->
  attention_weights (map (fun _ => 0) scores)
    (map (fun p => expand_dims (column A p)) (seq 0 num_heads)) =
  map (fun _ => expand_dims (map (fun _ => 1 / INR (length scores)) scores))
      (seq 0 num_heads).
Proof.
  intros L. rewrite attention_weights_columns by now rewrite length_map.
  apply map_ext. intros p. f_equal.
  rewrite zip_with_mult_zero by (unfold column; now rewrite !length_map).
  now rewrite sum_exp_zeros, map_map, exp_0.
Qed.

Lemma sum_map_scale_l (c : R) (v : vec) :
  sum (map (fun x => c * x) v) = c * sum v.
Proof.
  induction v as [|x v IH]; [simpl; ring|].
  cbn [map]. change (c * x + sum (map (fun x => c * x) v) = c * (x + sum v)).
  rewrite IH. ring.
Qed.

(** The sum over the fields with one weight [1 / F] on each of the [F]
    fields is the mean over the fields. *)
Lemma uniform_weights_mean {A : Type} (l : list A) (Hp : mat) :
  length l = length Hp -> length Hp <> 1%nat ->
  reduce_sum_rows
    (bmul (expand_dims (map (fun _ => 1 / INR (length l)) l)) Hp) =
  reduce_mean_rows Hp.
Proof.
  intros L N1. set (c := 1 / INR (length l)).
  assert (Z : forall (l' : list A) (Hp' : mat),
             length l' = length Hp' ->
             zip_with bmul_row (expand_dims (map (fun _ => c) l')) Hp' =
             map (fun row => map (fun y => c * y) row) Hp').
  { intros l'. induction l' as [|a l' IH]; intros [|row Hp'] L';
      simpl in L'; try discriminate; [reflexivity|].
    cbn [map expand_dims zip_with bmul_row]. f_equal.
    apply IH. lia. }
  assert (B : bmul (expand_dims (map (fun _ => c) l)) Hp =
              map (fun row => map (fun y => c * y) row) Hp).
  { destruct l as [|a [|a' l]], Hp as [|row [|row' Hp]]; simpl in L;
      try discriminate; try (exfalso; apply N1; reflexivity);
      [reflexivity|].
    change (bmul (expand_dims (map (fun _ => c) (a :: a' :: l)))
              (row :: row' :: Hp))
      with (zip_with bmul_row
              (expand_dims (map (fun _ => c) (a :: a' :: l)))
              (row :: row' :: Hp)).
    apply Z. simpl. lia. }
  rewrite B. unfold reduce_sum_rows, reduce_mean_rows.
  assert (W : width (map (fun row => map (fun y => c * y) row) Hp) =
              width Hp).
  { unfold width. destruct Hp as [|row Hp]; [reflexivity|].
    simpl. apply length_map. }
  rewrite W. apply map_ext. intros col. unfold column. rewrite map_map.
  rewrite (map_ext (fun row => nth col (map (fun y => c * y) row) 0)
                   (fun row => c * nth col row 0)).
  - rewrite <- (map_map (fun row => nth col row 0) (fun x => c * x)).
    rewrite sum_map_scale_l. unfold c. rewrite L. unfold Rdiv. ring.
  - intros row.
    transitivity (nth col (map (fun y => c * y) row) (c * 0));
      [f_equal; ring|].
    apply (map_nth (fun y => c * y)).
Qed.

(** The two extremes of [k], on the state and the visibility row a call of
    [gat_attention] returns.  With [k = 0] no field is visible: the row is
    all zeros, every logit is masked to 0, every head weighs each field by
    [1 / field_size], and the new state is computed from the plain mean of
    the projected values over the fields, whatever the attention logits
    are.  With [k] the number of fields nothing is masked: the row is the
    sigmoid scores themselves, all of them non-zero. *)
Theorem selector_extremes (W : block_weights) (batch : nat) (queries : vec)
    (values : mat) (num_units num_heads field : nat) (has_residual : bool) :
  let scores := gsl_scores W values in
  let H := map (dense (w_kernel W field) None linear num_units) values in
  let Q_res := dense (res_kernel W field) (Some (res_bias W field)) relu
                 num_units queries in
  (forall r,
     gat_attention W batch queries values num_units num_heads 0 field
       has_residual = Returns r ->
     snd r = map (fun _ => 0) scores /\
     exists H_ : list mat,
       tf_split H num_units num_heads = Returns H_ /\
       fst r =
         normalize (ln_gamma W field) (ln_beta W field) epsilon
           (map relu
              (let outputs := concat (map reduce_mean_rows H_) in
               if has_residual then zip_with Rplus outputs Q_res
               else outputs))) /\
  (forall r,
     gat_attention W batch queries values num_units num_heads (length values)
       field has_residual = Returns r ->
     snd r = scores /\ Forall (fun s => 0 < s < 1) (snd r)).
Proof.
  intros scores H Q_res.
  assert (Ls : length scores = length values) by apply gsl_scores_length.
  split.
  - intros r Hr.
    destruct (gat_attention_inv _ _ _ _ _ _ _ _ _ _ Hr)
      as (A_ & H_ & EA & EH & Hsel & Hsq & Efst).
    fold scores in Hsel. fold H in EH. fold Q_res in Efst.
    rewrite selector_none in Hsel. injection Hsel as Hvis.
    split; [now symmetry|]. exists H_. split; [exact EH|].
    assert (EO : concat (map reduce_sum_rows
                           (zip_with bmul (attention_weights (snd r) A_) H_))
                 = concat (map reduce_mean_rows H_)).
    { rewrite <- Hvis. f_equal.
      destruct (tf_split_inv _ _ _ _ EA) as (Hh & _ & _).
      set (A := map (dense (att_kernel W) (Some (att_bias W)) relu
                           num_heads) values) in *.
      assert (HA : Forall (fun row => length row = num_heads) A).
      { apply Forall_forall. intros row Hrow. apply in_map_iff in Hrow.
        destruct Hrow as (x & <- & _). apply dense_length. }
      rewrite (tf_split_heads A num_heads Hh HA) in EA. injection EA as <-.
      rewrite attention_weights_uniform
        by (unfold A; now rewrite length_map).
      destruct (tf_split_inv _ _ _ _ EH) as (_ & _ & EH_).
      rewrite EH_, zip_with_map_seq, !map_map. apply map_ext. intros p.
      apply uniform_weights_mean.
      - unfold H. now rewrite !length_map.
      - unfold H. rewrite !length_map.
        unfold squeeze_keeps_batch_and_fields in Hsq.
        apply andb_prop in Hsq. destruct Hsq as [_ Hf].
        apply negb_true_iff in Hf. now apply Nat.eqb_neq in Hf. }
    rewrite Efst. cbv zeta. now rewrite EO.
  - intros r Hr. apply gat_attention_vis in Hr. fold scores in Hr.
    rewrite <- Ls, selector_all in Hr. injection Hr as Hvis.
    rewrite <- Hvis. split; [reflexivity|apply gsl_scores_range].
Qed.

Lemma selector_extremes_witness :
  exists r,
    gat_attention zero_block 2 [1; 2] two_fields 2 1 0 0 true = Returns r /\
    snd r = map (fun _ => 0) (gsl_scores zero_block two_fields).
Proof.
  destruct (gat_attention_returns zero_block 2 [1; 2] two_fields 2 1 0 0 true)
    as (r & Hr); [lia|reflexivity|simpl; lia|discriminate|discriminate|].
  exists r. split; [exact Hr|].
  apply (proj1 (selector_extremes zero_block 2 [1; 2] two_fields 2 1 0 true)
           r Hr).
Defined.

(** ** The loss of the movielens variant *)

Lemma mean_between (a b : R) (l : list R) :
  l <> [] -> Forall (fun t => a < t < b) l -> a < reduce_mean l < b.
Proof.
  intros Hne H. pose proof (INR_length_pos l Hne) as Hn.
  assert (S : INR (length l) * a < sum l < INR (length l) * b).
  { induction H as [|t l Ht Hl IH]; [easy|].
    change (sum (t :: l)) with (t + sum l).
    change (length (t :: l)) with (S (length l)). rewrite S_INR.
    destruct l as [|t' l'].
    - simpl. lra.
    - assert (IH' : INR (length (t' :: l')) * a < sum (t' :: l') <
                    INR (length (t' :: l')) * b).
      { apply IH; [discriminate|]. apply INR_length_pos. discriminate. }
      lra. }
  unfold reduce_mean. split.
  - apply Rmult_lt_reg_r with (INR (length l)); [exact Hn|].
    unfold Rdiv. rewrite Rmult_assoc, Rinv_l by lra. lra.
  - apply Rmult_lt_reg_r with (INR (length l)); [exact Hn|].
    unfold Rdiv. rewrite Rmult_assoc, Rinv_l by lra. lra.
Qed.

(** The training loss of the movielens variant is the logarithmic loss
    with [epsilon] added inside the logarithms.  For labels in [{0, 1}] and
    predictions strictly between 0 and 1 the loss of a non-empty batch lies
    strictly between [- ln(1 + epsilon)] and [- ln(epsilon)]: it is bounded
    however wrong the predictions are, and it is negative for a prediction
    close enough to its label. *)
Theorem movielens_log_loss_bounds (label out : list R) :
  (label <> [] -> length label = length out ->
   Forall (fun y => y = 0 \/ y = 1) label ->
   Forall (fun p => 0 < p < 1) out ->
   - ln (1 + log_loss_epsilon) < tf_losses_log_loss label out <
   - ln log_loss_epsilon) /\
  (exists p, 0 < p < 1 /\ tf_losses_log_loss [1] [p] < 0).
Proof.
  assert (He : 0 < log_loss_epsilon < 1) by (unfold log_loss_epsilon; lra).
  split.
  - intros Hne L Hy Hp. apply mean_between.
    { destruct label; [easy|]. destruct out; discriminate. }
    clear Hne. revert out L Hp.
    induction Hy as [|y label Hy0 _ IH]; intros [|p out] L Hp;
      simpl in L; try discriminate; [constructor|].
    inversion Hp as [|? ? Hp0 Hp']; subst.
    cbn [zip_with]. constructor; [|apply IH; [lia|exact Hp']].
    unfold log_loss_term.
    assert (B : forall q, 0 < q < 1 ->
              ln log_loss_epsilon < ln (q + log_loss_epsilon) <
              ln (1 + log_loss_epsilon)).
    { intros q Hq. split; apply ln_increasing; lra. }
    destruct Hy0 as [-> | ->].
    + pose proof (B (1 - p) ltac:(lra)) as Hb. lra.
    + pose proof (B p Hp0) as Hb. lra.
  - exists (1 - log_loss_epsilon / 2). split; [lra|].
    unfold tf_losses_log_loss, reduce_mean. cbn [zip_with length].
    unfold log_loss_term. simpl.
    assert (Hl : 0 < ln (1 - log_loss_epsilon / 2 + log_loss_epsilon)).
    { rewrite <- ln_1. apply ln_increasing; lra. }
    lra.
Qed.

Lemma movielens_log_loss_bounds_witness :
  - ln (1 + log_loss_epsilon) < tf_losses_log_loss [0; 1] [/ 2; / 2] <
  - ln log_loss_epsilon.
Proof.
  apply (proj1 (movielens_log_loss_bounds [0; 1] [/ 2; / 2])).
  - discriminate.
  - reflexivity.
  - constructor; [now left|constructor; [now right|constructor]].
  - repeat constructor; lra.
Defined.

(** ** The bookkeeping across calls of [fit_once] *)

Lemma training_termination_length (gib : bool) (l : list R) :
  training_termination gib l = true -> (5 < length l)%nat.
Proof.
  unfold training_termination.
  destruct (Nat.ltb_spec 5 (length l)); [easy|discriminate].
Qed.

Lemma fit_once_step {D : Type} (ev : D -> outcome (R * R))
    (is_save gib : bool) (st : fit_state) (train : D) (valid : option D)
    (es : bool) (st' : fit_state) (flag : bool) :
  fit_once ev is_save gib st train valid es = Returns (st', flag) ->
  length (train_result st') = S (length (train_result st)) /\
  length (train_loss st') = S (length (train_loss st)) /\
  (exists new,
     valid_loss st' = valid_loss st ++ new /\ (length new <= 1)%nat /\
     length (valid_result st') = (length (valid_result st) + length new)%nat /\
     (is_save = true -> Forall (fun l => best_loss st' <= l) new)) /\
  best_loss st' <= best_loss st /\
  (is_save = false -> best_loss st' = best_loss st) /\
  (flag = false -> (5 < length (valid_loss st'))%nat).
Proof.
  intros H. pose proof (fit_once_flag _ _ _ _ _ _ _ _ _ H) as Hflag.
  assert (Hstop : flag = false -> (5 < length (valid_loss st'))%nat).
  { intros ->. symmetry in Hflag. apply negb_false_iff in Hflag.
    apply andb_prop in Hflag. destruct Hflag as [_ Ht].
    now apply training_termination_length in Ht. }
  clear Hflag. revert H. unfold fit_once.
  destruct (ev train) as [tr| |]; simpl; try discriminate.
  destruct valid as [v|]; simpl.
  - destruct (ev v) as [vr| |]; simpl; try discriminate. intros H.
    assert (E : st' =
              {| train_result := train_result st ++ [fst tr];
                 train_loss := train_loss st ++ [snd tr];
                 valid_result := valid_result st ++ [fst vr];
                 valid_loss := valid_loss st ++ [snd vr];
                 best_loss := if Rltb (snd vr) (best_loss st) && is_save
                              then snd vr else best_loss st |}).
    { destruct (es && _) in H; now injection H. }
    clear H. subst st'.
    cbn [train_result train_loss valid_result valid_loss best_loss] in *.
    rewrite !length_app. cbn [length].
    repeat split; try lia; try exact Hstop.
    + exists [snd vr]. repeat split; auto.
      intros ->. constructor; [|constructor].
      unfold Rltb. destruct (Rlt_dec (snd vr) (best_loss st)); simpl; lra.
    + unfold Rltb.
      destruct (Rlt_dec (snd vr) (best_loss st)), is_save; simpl; lra.
    + intros ->. now rewrite andb_false_r.
    + intros Hf. specialize (Hstop Hf). now rewrite length_app in Hstop.
  - intros [= <- <-].
    cbn [train_result train_loss valid_result valid_loss best_loss] in *.
    rewrite !length_app. cbn [length].
    repeat split; try lia; try lra; try exact Hstop.
    exists []. rewrite app_nil_r. repeat split; auto.
Qed.

Lemma fit_calls_from {D : Type} (ev : D -> outcome (R * R))
    (is_save gib : bool) (calls : list (D * option D * bool)) :
  forall st0 st flags,
    fit_calls ev is_save gib st0 calls = Returns (st, flags) ->
    length (train_result st) =
      (length (train_result st0) + length calls)%nat /\
    length (train_loss st) = (length (train_loss st0) + length calls)%nat /\
    (exists new,
       valid_loss st = valid_loss st0 ++ new /\
       (length new <= length calls)%nat /\
       length (valid_result st) =
         (length (valid_result st0) + length new)%nat /\
       (is_save = true -> Forall (fun l => best_loss st <= l) new)) /\
    best_loss st <= best_loss st0 /\
    (is_save = false -> best_loss st = best_loss st0) /\
    length flags = length calls /\
    (forall j, nth j flags true = false ->
               (5 < length (valid_loss st0) + j + 1)%nat).
Proof.
  induction calls as [|[[train valid] es] calls IH]; intros st0 st flags H;
    cbn [fit_calls] in H.
  - injection H as <- <-. simpl. rewrite !Nat.add_0_r.
    repeat split; try lra.
    + exists []. rewrite app_nil_r. repeat split; auto.
    + intros [|j]; discriminate.
  - destruct (fit_once ev is_save gib st0 train valid es) as [[st1 flag]| |]
      eqn:E1; cbn [bind fst snd] in H; try discriminate.
    destruct (fit_calls ev is_save gib st1 calls) as [[st2 flags2]| |]
      eqn:E2; cbn [bind fst snd] in H; try discriminate.
    injection H as <- <-.
    apply fit_once_step in E1.
    destruct E1 as (T1 & T2 & (new1 & V1 & N1 & R1 & B1) & L1 & S1 & F1).
    apply IH in E2.
    destruct E2 as (T1' & T2' & (new2 & V2 & N2 & R2 & B2) & L2 & S2 & Fl
                    & F2).
    cbn [length].
    split; [lia|]. split; [lia|]. split; [|split; [lra|split; [|split]]].
    + exists (new1 ++ new2). rewrite V2, V1, <- app_assoc, length_app.
      repeat split; try lia.
      intros Hs. apply Forall_app. split; [|now apply B2].
      eapply Forall_impl; [|apply (B1 Hs)]. simpl. intros l Hl. lra.
    + intros Hs. rewrite (S2 Hs). now apply S1.
    + now rewrite Fl.
    + intros [|j] Hj; cbn [nth] in Hj.
      * specialize (F1 Hj). rewrite V1, length_app in F1. lia.
      * specialize (F2 j Hj). rewrite V1, length_app in F2. lia.
Qed.

(** On one model object, whatever the sequence of calls of [fit_once] that
    return: the training lists have one entry per call, the two validation
    lists keep the same length (at most one entry per call), [best_loss]
    never exceeds its initial 1.0 (so no checkpoint is written for a
    validation loss of 1.0 or more), with [is_save] it is at most every
    recorded validation loss and without [is_save] it stays 1.0; and none of
    the first five calls returns [False], whatever the losses are. *)
Theorem fit_calls_invariant (D : Type) (ev : D -> outcome (R * R))
    (is_save gib : bool) (calls : list (D * option D * bool))
    (st : fit_state) (flags : list bool) :
  fit_calls ev is_save gib initial_fit_state calls = Returns (st, flags) ->
  length (train_result st) = length calls /\
  length (train_loss st) = length calls /\
  length (valid_result st) = length (valid_loss st) /\
  (length (valid_loss st) <= length calls)%nat /\
  length flags = length calls /\
  best_loss st <= 1 /\
  (is_save = true -> Forall (fun l => best_loss st <= l) (valid_loss st)) /\
  (is_save = false -> best_loss st = 1) /\
  (forall j, (j < 5)%nat -> nth j flags true = true).
Proof.
  intros H. apply fit_calls_from in H.
  destruct H as (T1 & T2 & (new & V & N & R1 & B) & L & S1 & Fl & F).
  cbn [initial_fit_state train_result train_loss valid_result valid_loss
       best_loss length app Nat.add] in *.
  split; [exact T1|]. split; [exact T2|].
  split; [now rewrite R1, V|]. split; [now rewrite V|].
  split; [exact Fl|]. split; [exact L|].
  split; [intros Hs; rewrite V; now apply B|]. split; [exact S1|].
  intros j Hj. destruct (nth j flags true) eqn:E; [reflexivity|].
  apply F in E. lia.
Qed.

Lemma fit_calls_invariant_witness :
  exists st flags,
    fit_calls (fun _ : nat => Returns (0, / 2)) true false initial_fit_state
      [(0%nat, Some 1%nat, true); (0%nat, None, true)] =
    Returns (st, flags) /\
    best_loss st <= 1 /\ length (train_loss st) = 2%nat.
Proof.
  eexists. eexists. split; [reflexivity|].
  pose proof (fit_calls_invariant nat (fun _ : nat => Returns (0, / 2)) true
                false [(0%nat, Some 1%nat, true); (0%nat, None, true)]
                _ _ eq_refl) as H.
  split; [apply H|apply H].
Defined.

(** ** The genre field of the movielens variant on a whole batch *)

Lemma embedding_lookup_returns (table : mat) (idx : list nat) :
  Forall (fun i => (i < length table)%nat) idx ->
  embedding_lookup table idx = Returns (map (fun i => nth i table []) idx).
Proof.
  intros H. unfold embedding_lookup.
  rewrite <- mapM_pure. apply mapM_ext_in. intros i Hi.
  rewrite Forall_forall in H. specialize (H i Hi).
  destruct (nth_error table i) as [row|] eqn:E.
  - now rewrite (nth_error_nth _ _ _ E).
  - apply nth_error_None in E. lia.
Qed.

Lemma zip_with_map_l {A A' B C : Type} (f : A' -> B -> C) (g : A -> A')
    (a : list A) (b : list B) :
  zip_with f (map g a) b = zip_with (fun x y => f (g x) y) a b.
Proof.
  revert b. induction a as [|x a IH]; intros [|y b]; simpl; auto.
  now rewrite IH.
Qed.

Lemma zip_with_combine {A B C : Type} (f : A -> B -> C) (a : list A)
    (b : list B) :
  map (fun p => f (fst p) (snd p)) (combine a b) = zip_with f a b.
Proof.
  revert b. induction a as [|x a IH]; intros [|y b]; simpl; auto.
  now rewrite IH.
Qed.

Lemma genre_sums_return (cfg : config) (W : weights)
    (genre_index : list (list nat)) (genre_value : list vec) :
  Forall2 (well_formed_genre (feature_embeddings W)) genre_index genre_value ->
  embeddings_m cfg W genre_index genre_value =
  tf_divide_mat_vec
    (zip_with (genre_sum (feature_embeddings W)) genre_index genre_value)
    (embedding_size cfg) (map sum genre_value).
Proof.
  intros HF. unfold embeddings_m.
  set (table := feature_embeddings W) in *.
  assert (E1 : mapM (embedding_lookup table) genre_index =
               Returns (map (fun idx => map (fun i => nth i table []) idx)
                            genre_index)).
  { rewrite <- mapM_pure. apply mapM_ext_in. intros idx Hidx.
    apply embedding_lookup_returns.
    clear - HF Hidx. induction HF as [|i v gi gv Hw _ IH]; [easy|].
    destruct Hidx as [<- | Hin]; [apply Hw|now apply IH]. }
  assert (E2 : mapM (fun v => tf_reshape_col v 6) genre_value =
               Returns (map expand_dims genre_value)).
  { rewrite <- mapM_pure. apply mapM_ext_in. intros v Hv.
    unfold tf_reshape_col.
    assert (Lv : length v = 6%nat).
    { clear - HF Hv. induction HF as [|i v' gi gv Hw _ IH]; [easy|].
      destruct Hv as [<- | Hin]; [apply Hw|now apply IH]. }
    now rewrite Lv. }
  rewrite E1, E2. cbn [bind].
  pose proof (Forall2_length_eq _ _ _ HF) as L.
  rewrite !length_map, L, Nat.eqb_refl.
  assert (E3 : mapM (fun p => tf_multiply (fst p) (snd p))
                 (combine (map (fun idx => map (fun i => nth i table []) idx)
                               genre_index)
                          (map expand_dims genre_value)) =
               Returns (zip_with
                          (fun idx val =>
                             zip_with (fun i v =>
                                         map (fun e => e * v) (nth i table []))
                                      idx val)
                          genre_index genre_value)).
  { clear E1 E2 L. induction HF as [|idx val gi gv Hw _ IH]; [reflexivity|].
    cbn [map combine mapM fst snd zip_with]. rewrite IH.
    destruct Hw as (Li & Lv & _).
    unfold tf_multiply, expand_dims at 1. rewrite !length_map, Li, Lv.
    cbn [Nat.eqb orb bind].
    fold (expand_dims val).
    rewrite bmul_rows_column by (rewrite length_map; lia).
    now rewrite zip_with_map_l. }
  unfold mat, vec in *. rewrite E3. cbn [bind]. f_equal.
  clear. revert genre_value.
  induction genre_index as [|idx gi IH]; intros [|val gv]; simpl; auto.
  now rewrite IH.
Qed.

Lemma genre_sum_length (table : mat) (d : nat) (idx : list nat) (val : vec) :
  Forall (fun row => length row = d) table ->
  well_formed_genre table idx val ->
  length (genre_sum table idx val) = d.
Proof.
  intros Ht (Li & Lv & Hin). unfold genre_sum.
  rewrite reduce_sum_rows_length. unfold width.
  destruct idx as [|i idx]; [discriminate|].
  destruct val as [|v val]; [discriminate|].
  cbn [zip_with hd]. rewrite length_map.
  inversion Hin as [|? ? Hi _]; subst.
  rewrite Forall_forall in Ht. apply Ht. now apply nth_In.
Qed.

(** The genre embedding of the movielens variant is the weighted mean of the
    specification only for a fed batch of ONE sample.  For a batch of as many
    samples as the embedding has columns, entry [c] of every sample's
    weighted sum is divided by the value sum of sample [c].  For every other
    batch size (with more than one embedding column) line 194 is a shape
    error, and the embeddings of the batch are not computed at all. *)
Theorem movielens_genre_batch (cfg : config) (W : weights)
    (genre_index : list (list nat)) (genre_value : list vec) :
  let table := feature_embeddings W in
  Forall2 (well_formed_genre table) genre_index genre_value ->
  Forall (fun row => length row = embedding_size cfg) table ->
  (length genre_index = 1%nat ->
   embeddings_m cfg W genre_index genre_value =
   Returns (zip_with (genre_vector_spec table) genre_index genre_value)) /\
  (length genre_index = embedding_size cfg ->
   embeddings_m cfg W genre_index genre_value =
   Returns (zip_with (fun idx val =>
                        zip_with Rdiv (genre_sum table idx val)
                                 (map sum genre_value))
                     genre_index genre_value)) /\
  (length genre_index <> 1%nat ->
   length genre_index <> embedding_size cfg ->
   embedding_size cfg <> 1%nat ->
   embeddings_m cfg W genre_index genre_value = Raises InvalidArgumentError /\
   forall feat_index feat_value r,
     movielens_embeddings cfg W feat_index feat_value genre_index
       genre_value <> Returns r).
Proof.
  intros table HF Ht.
  pose proof (genre_sums_return cfg W genre_index genre_value HF) as E.
  fold table in E.
  pose proof (Forall2_length_eq _ _ _ HF) as L.
  split; [|split].
  - intros L1. rewrite E.
    destruct genre_index as [|idx [|idx' gi]]; try discriminate.
    destruct genre_value as [|val [|val' gv]]; try discriminate.
    inversion HF as [|? ? ? ? Hw _]; subst.
    pose proof (genre_sum_length table _ idx val Ht Hw) as Ls.
    cbn [zip_with map]. unfold tf_divide_mat_vec. cbn [length map].
    destruct (Nat.eqb_spec 1 (embedding_size cfg)) as [E1|N1].
    + apply (f_equal Returns). f_equal.
      unfold genre_vector_spec. fold (genre_sum table idx val).
      rewrite <- E1 in Ls.
      destruct (genre_sum table idx val) as [|x [|x' s]]; try discriminate.
      reflexivity.
    + cbn [Nat.eqb]. reflexivity.
  - intros Ld. rewrite E. unfold tf_divide_mat_vec.
    rewrite length_map, <- L, Ld, Nat.eqb_refl.
    apply (f_equal Returns).
    clear. generalize (map sum genre_value) as sums. intros sums.
    revert genre_value.
    induction genre_index as [|idx gi IH]; intros [|val gv]; simpl; auto.
    now rewrite IH.
  - intros N1 Nd Nd1.
    assert (R : embeddings_m cfg W genre_index genre_value =
                Raises InvalidArgumentError).
    { rewrite E. unfold tf_divide_mat_vec. rewrite length_map, <- L.
      destruct (Nat.eqb_spec (length genre_index) (embedding_size cfg));
        [easy|].
      destruct (Nat.eqb_spec (length genre_index) 1); [easy|].
      destruct (Nat.eqb_spec (embedding_size cfg) 1); [easy|]. reflexivity. }
    split; [exact R|].
    intros fi fv r. unfold movielens_embeddings.
    destruct (field_size cfg =? 0)%nat; [discriminate|].
    destruct (if (length fi =? length fv)%nat then _ else _) as [e| |];
      cbn [bind]; try discriminate.
    rewrite R. discriminate.
Qed.

Lemma movielens_genre_batch_witness :
  embeddings_m genre_cfg3 genre_weights3 genre_index genre_value =
  Raises InvalidArgumentError.
Proof.
  apply (movielens_genre_batch genre_cfg3 genre_weights3 genre_index
           genre_value).
  - repeat constructor.
  - repeat constructor.
  - discriminate.
  - discriminate.
  - discriminate.
Defined.

(** ** The ranges of the two results of [evaluate] *)

Lemma sum_between_le (a b : R) (l : list R) :
  Forall (fun t => a <= t <= b) l ->
  INR (length l) * a <= sum l <= INR (length l) * b.
Proof.
  induction 1 as [|t l Ht _ IH]; [simpl; lra|].
  change (sum (t :: l)) with (t + sum l).
  change (length (t :: l)) with (S (length l)). rewrite S_INR. lra.
Qed.

Lemma roc_auc_score_range (y_true y_score : list R) (a : R) :
  roc_auc_score y_true y_score = Returns a -> 0 <= a <= 1.
Proof.
  unfold roc_auc_score.
  destruct (negb (length y_true =? length y_score)%nat); [discriminate|].
  destruct (negb (length (np_unique y_true) =? 2)%nat); [discriminate|].
  set (pos := pos_label (np_unique y_true)).
  set (P := scores_of (fun y => Reqb y pos) y_true y_score).
  set (N := scores_of (fun y => negb (Reqb y pos)) y_true y_score).
  intros [= <-].
  assert (Hin : forall p,
            INR (length N) * 0 <=
            sum (map (fun n => if Rltb n p then 1
                               else if Reqb n p then 1 / 2 else 0) N) <=
            INR (length N) * 1).
  { intros p.
    pose proof (sum_between_le 0 1
                  (map (fun n => if Rltb n p then 1
                                 else if Reqb n p then 1 / 2 else 0) N)) as S.
    rewrite length_map in S. apply S. apply Forall_forall. intros t Ht.
    apply in_map_iff in Ht. destruct Ht as (n & <- & _).
    destruct (Rltb n p); [lra|]. destruct (Reqb n p); lra. }
  assert (Hout : INR (length P) * 0 <=
                 sum (map (fun p =>
                   sum (map (fun n => if Rltb n p then 1
                                      else if Reqb n p then 1 / 2 else 0) N))
                   P) <= INR (length P) * (INR (length N) * 1)).
  { pose proof (sum_between_le 0 (INR (length N) * 1)
                  (map (fun p =>
                     sum (map (fun n => if Rltb n p then 1
                                        else if Reqb n p then 1 / 2 else 0)
                              N)) P)) as S.
    rewrite length_map in S. apply S. apply Forall_forall. intros t Ht.
    apply in_map_iff in Ht. destruct Ht as (p & <- & _).
    specialize (Hin p). lra. }
  set (wins := sum (map _ P)) in *.
  pose proof (pos_INR (length P)) as HP.
  pose proof (pos_INR (length N)) as HN.
  destruct (Req_dec (INR (length P) * INR (length N)) 0) as [Z|NZ].
  - rewrite Z. assert (W0 : wins = 0) by nra. rewrite W0.
    unfold Rdiv. rewrite Rmult_0_l. lra.
  - assert (Hd : 0 < INR (length P) * INR (length N)) by nra.
    split.
    + apply Rmult_le_pos; [lra|]. left. now apply Rinv_0_lt_compat.
    + apply Rmult_le_reg_r with (INR (length P) * INR (length N));
        [exact Hd|].
      unfold Rdiv. rewrite Rmult_assoc, Rinv_l by lra. lra.
Qed.

Lemma ln_monotone (x y : R) : 0 < x -> x <= y -> ln x <= ln y.
Proof.
  intros Hx [H| ->]; [|lra]. left. now apply ln_increasing.
Qed.

Lemma log_loss_range (y_true y_pred : list R) (l : R) :
  Forall (fun q => clip_lo <= q <= clip_hi) y_pred ->
  log_loss y_true y_pred = Returns l ->
  - ln clip_hi <= l <= - ln clip_lo.
Proof.
  intros Hq. unfold log_loss.
  destruct (Nat.eqb_spec (length y_true) (length y_pred)) as [L|];
    [|discriminate].
  destruct (Nat.eqb_spec (length (np_unique y_true)) 2) as [U|];
    [|discriminate].
  cbn [negb]. set (pos := pos_label (np_unique y_true)). intros [= <-].
  assert (Hne : y_true <> []) by (intros ->; discriminate U).
  pose proof (INR_length_pos y_true Hne) as Hn.
  assert (Hall : Forall (fun t => ln clip_lo <= t <= ln clip_hi)
                   (zip_with (fun y p => if Reqb y pos then ln p
                                         else ln (1 - p)) y_true y_pred)).
  { clearbody pos. clear - Hq. revert y_true.
    induction Hq as [|q y_pred Hq0 _ IH]; intros [|y y_true];
      cbn [zip_with]; constructor; [|apply IH].
    assert (C : 0 < clip_lo /\ clip_hi = 1 - clip_lo)
      by (unfold clip_lo, clip_hi; lra).
    destruct C as [C0 C1].
    destruct (Reqb y pos); split; apply ln_monotone; lra. }
  pose proof (sum_between_le _ _ _ Hall) as S.
  assert (Lz : length (zip_with (fun y p => if Reqb y pos then ln p
                                            else ln (1 - p)) y_true y_pred) =
               length y_true)
    by (rewrite zip_with_length; lia).
  rewrite Lz in S. clear Lz.
  set (s := sum _) in *. split.
  - apply Rmult_le_reg_r with (INR (length y_true)); [exact Hn|].
    unfold Rdiv. rewrite Rmult_assoc, Rinv_l by lra. lra.
  - apply Rmult_le_reg_r with (INR (length y_true)); [exact Hn|].
    unfold Rdiv. rewrite Rmult_assoc, Rinv_l by lra. lra.
Qed.

(** Whenever [evaluate] returns, the first result (the ROC AUC) lies in
    [[0, 1]] and the second (the log loss of the clipped predictions) lies
    in [[- ln(1 - 1e-6), - ln(1e-6)]]: it is positive and bounded, whatever
    the model predicts. *)
Theorem evaluate_result_ranges (SI SV : Type) (batch_size : nat)
    (run_out : list SI -> list SV -> outcome (list R))
    (Xi : list SI) (Xv : list SV) (y : list R) (auc loss : R) :
  evaluate batch_size run_out roc_auc_score log_loss Xi Xv y =
  Returns (auc, loss) ->
  0 <= auc <= 1 /\ - ln clip_hi <= loss <= - ln clip_lo /\ 0 < loss.
Proof.
  unfold evaluate.
  destruct (predict batch_size run_out Xi Xv) as [[|p]| |]; cbn [bind np_clip];
    try discriminate.
  destruct (roc_auc_score y _) as [a| |] eqn:Ea; cbn [bind];
    try discriminate.
  destruct (log_loss y _) as [l| |] eqn:El; cbn [bind]; try discriminate.
  intros [= <- <-].
  apply roc_auc_score_range in Ea.
  apply log_loss_range in El.
  - split; [exact Ea|]. split; [exact El|].
    assert (H : ln clip_hi < 0).
    { rewrite <- ln_1. apply ln_increasing; unfold clip_hi; lra. }
    lra.
  - apply Forall_forall. intros q Hq. apply in_map_iff in Hq.
    destruct Hq as (x & <- & _). apply clip_range.
Qed.

Lemma evaluate_result_ranges_witness :
  exists auc loss,
    evaluate 2 half_run roc_auc_score log_loss [1; 2; 3]%nat [4; 5; 6]%nat
      [1; 0; 1] = Returns (auc, loss) /\ 0 <= auc <= 1.
Proof.
  assert (E : exists r,
            evaluate 2 half_run roc_auc_score log_loss [1; 2; 3]%nat
              [4; 5; 6]%nat [1; 0; 1] = Returns r).
  { unfold evaluate. rewrite half_predict. cbn [bind np_clip map].
    unfold roc_auc_score, log_loss. cbn [length map Nat.eqb negb].
    assert (U : np_unique [1; 0; 1] = [0; 1]).
    { unfold np_unique. cbn [nodup In_dec in_dec].
      repeat (destruct (Req_dec_T _ _); try lra); cbn; try reflexivity;
        repeat (destruct (Req_dec_T _ _); try lra); reflexivity. }
    rewrite U. cbn [length Nat.eqb negb bind]. eauto. }
  destruct E as ([auc loss] & E). exists auc, loss. split; [exact E|].
  apply (evaluate_result_ranges nat nat 2 half_run _ _ _ _ _ E).
Defined.

(** ** What an epoch of training reads *)

Lemma slice_firstn {A : Type} (l : list A) (a b k : nat) :
  (b <= k)%nat -> slice (firstn k l) a b = slice l a b.
Proof.
  intros H. unfold slice. rewrite skipn_firstn_comm, firstn_firstn.
  f_equal. lia.
Qed.

(** The training steps of one call of [fit_once] read only the first
    [(n // batch_size) * batch_size] samples of the (shuffled) lists: two
    data sets of the same length that agree there leave the same session and
    the same [last_step], whatever the remaining [n mod batch_size] samples
    are; with more than [n] samples per batch no step is taken at all, the
    session is the one before the call and [last_step] is 0. *)
Theorem train_epoch_ignores_tail (SI SV Y M : Type)
    (fit_on_batch : M -> list SI -> list SV -> list (list Y) -> M * (nat * R))
    (batch_size : nat) (m : M) (Xi Xi' : list SI) (Xv Xv' : list SV)
    (y y' : list Y) :
  let k := (length y / batch_size * batch_size)%nat in
  (length y = length y' ->
   firstn k Xi = firstn k Xi' -> firstn k Xv = firstn k Xv' ->
   firstn k y = firstn k y' ->
   train_epoch fit_on_batch batch_size m Xi Xv y =
   train_epoch fit_on_batch batch_size m Xi' Xv' y') /\
  ((length y < batch_size)%nat ->
   train_epoch fit_on_batch batch_size m Xi Xv y = Some (m, 0%nat)).
Proof.
  intros k. split.
  - intros L Hi Hv Hy. unfold train_epoch, training_batches, total_batch.
    rewrite <- L.
    destruct (Nat.eqb_spec batch_size 0) as [E|N]; [reflexivity|].
    assert (B : map (get_batch Xi Xv y batch_size)
                    (seq 0 (length y / batch_size)) =
                map (get_batch Xi' Xv' y' batch_size)
                    (seq 0 (length y / batch_size))).
    { apply map_ext_in. intros i Hin. apply in_seq in Hin.
      rewrite !get_batch_slices, <- L.
      assert (Hle : ((i + 1) * batch_size <= k)%nat) by (unfold k; nia).
      assert (Hn : (k <= length y)%nat).
      { unfold k. pose proof (Nat.div_mod_eq (length y) batch_size). nia. }
      rewrite Nat.min_l by lia.
      rewrite <- (slice_firstn Xi _ _ k Hle), <- (slice_firstn Xv _ _ k Hle),
        <- (slice_firstn y _ _ k Hle).
      rewrite Hi, Hv, Hy.
      now rewrite !slice_firstn by exact Hle. }
    now rewrite B.
  - intros Hlt. unfold train_epoch, training_batches, total_batch.
    destruct (Nat.eqb_spec batch_size 0) as [E|N]; [lia|].
    rewrite Nat.div_small by exact Hlt. reflexivity.
Qed.

Lemma train_epoch_ignores_tail_witness :
  train_epoch (fun (m : nat) (_ _ : list nat) (_ : list (list nat)) =>
                 (S m, (S m, 0))) 2 0%nat
    [1; 2; 3]%nat [4; 5; 6]%nat [7; 8; 9]%nat =
  train_epoch (fun (m : nat) (_ _ : list nat) (_ : list (list nat)) =>
                 (S m, (S m, 0))) 2 0%nat
    [1; 2; 0]%nat [4; 5; 0]%nat [7; 8; 0]%nat.
Proof.
  apply (proj1 (train_epoch_ignores_tail nat nat nat nat
                  (fun (m : nat) (_ _ : list nat) (_ : list (list nat)) =>
                     (S m, (S m, 0))) 2 0%nat
                  [1; 2; 3]%nat [1; 2; 0]%nat [4; 5; 6]%nat [4; 5; 0]%nat
                  [7; 8; 9]%nat [7; 8; 0]%nat)); reflexivity.
Defined.
